(** * modular-dm: a shallow embedding of the control-tree engine

    The development follows the current [dm] class of [src/index.js]
    (the one with [_acl], [_bypassNotify] and [SetAccess]).  Controls live
    in a heap indexed by natural numbers, JavaScript values are an
    inductive type, and every method of the class is a function on
    states.

    What the model leaves out: numbers are the integers and NaN (no
    fractions, no rounding, no exponent form when printed); objects used
    as maps ([_controls], [_properties], [_acl], the data handed to [Set])
    hold their own keys only, so a key that names a member inherited from
    a built-in prototype ([constructor], [toString], ...) reads as absent;
    [this[k]] is read among the own public members of the control, so the
    name of a method reads as absent too;
    listeners supplied by the caller are observers, logged with the heap
    they see when they run, and do not call back into the tree; [Init] is
    the empty method of the base class; [require] is a parameter. *)

From Stdlib Require Import ZArith String Ascii List Bool Lia DecimalString.
From stdpp Require Import base list strings.
Import ListNotations.
Set Warnings "-register-all".
Local Open Scope string_scope.
Local Open Scope list_scope.

(** ** JavaScript values *)

Module Js.

(** Plain objects and arrays are both objects; an array is an object whose
    keys are its indices.  [ref] is the identity of the object: two values
    with the same [ref] are the same object. *)
Inductive okind : Type := KObject | KArray.

(** Declarative data, as handed to [Set], [SetAccess] or assigned to a
    property.  Numbers are the integers (plus NaN). *)
Inductive jsval : Type :=
| JUndefined
| JNull
| JBool (b : bool)
| JNum (z : Z)
| JNaN
| JStr (s : string)
| JObj (kind : okind) (ref : nat) (fields : list (string * jsval)).

(** A runtime value is declarative data or a reference to a control. *)
Inductive value : Type :=
| VJs (j : jsval)
| VCtl (n : nat).

Coercion VJs : jsval >-> value.

(** Fresh object literals built by the library itself ([Get] results and
    notification deltas), and event payloads. *)
Inductive data : Type :=
| DVal (v : value)
| DObj (fields : list (string * data)).

(** *** Objects used as maps: association lists in insertion order *)

Section Obj.
Context {A : Type}.

Fixpoint obj_get (k : string) (o : list (string * A)) : option A :=
  match o with
  | [] => None
  | (k', v) :: o' => if String.eqb k k' then Some v else obj_get k o'
  end.

(** [o[k] = v]: overwrite in place, or append a new key. *)
Fixpoint obj_set (k : string) (v : A) (o : list (string * A)) : list (string * A) :=
  match o with
  | [] => [(k, v)]
  | (k', v') :: o' =>
      if String.eqb k k' then (k', v) :: o' else (k', v') :: obj_set k v o'
  end.

(** [delete o[k]] *)
Fixpoint obj_delete (k : string) (o : list (string * A)) : list (string * A) :=
  match o with
  | [] => []
  | (k', v') :: o' =>
      if String.eqb k k' then obj_delete k o' else (k', v') :: obj_delete k o'
  end.
End Obj.

(** *** Conversions *)

Definition string_of_Z (z : Z) : string := NilZero.string_of_int (Z.to_int z).

Fixpoint join (sep : string) (l : list string) : string :=
  match l with
  | [] => ""
  | [s] => s
  | s :: l' => s ++ sep ++ join sep l'
  end%string.

(** [ToString]; an array joins its elements with commas, printing
    [undefined] and [null] elements as the empty string. *)
Fixpoint to_string (j : jsval) : string :=
  match j with
  | JUndefined => "undefined"
  | JNull => "null"
  | JBool true => "true"
  | JBool false => "false"
  | JNum z => string_of_Z z
  | JNaN => "NaN"
  | JStr s => s
  | JObj KObject _ _ => "[object Object]"
  | JObj KArray _ fields =>
      join ","
        ((fix elems (fs : list (string * jsval)) : list string :=
            match fs with
            | [] => []
            | (_, JUndefined) :: fs' => "" :: elems fs'
            | (_, JNull) :: fs' => "" :: elems fs'
            | (_, e) :: fs' => to_string e :: elems fs'
            end) fields)
  end.

(** [StringToNumber], restricted to the integers: [None] stands for NaN
    and for every numeral that does not denote an integer.  Only ASCII
    white space is trimmed. *)
Definition is_space (c : ascii) : bool :=
  let n := nat_of_ascii c in
  ((9 <=? n) && (n <=? 13))%nat || (n =? 32)%nat.

Fixpoint trim_left (l : list ascii) : list ascii :=
  match l with
  | c :: l' => if is_space c then trim_left l' else l
  | [] => []
  end.

Definition trim (l : list ascii) : list ascii :=
  rev (trim_left (rev (trim_left l))).

Definition digit_of (base : Z) (c : ascii) : option Z :=
  let n := Z.of_nat (nat_of_ascii c) in
  let d :=
    (if (48 <=? n) && (n <=? 57) then Some (n - 48)
     else if (97 <=? n) && (n <=? 102) then Some (n - 87)
     else if (65 <=? n) && (n <=? 70) then Some (n - 55)
     else None)%Z in
  match d with
  | Some d => if (d <? base)%Z then Some d else None
  | None => None
  end.

(** Reads a maximal run of digits: accumulated value, number of digits
    read, and the rest of the input. *)
Fixpoint digits (base : Z) (acc : Z) (cnt : nat) (l : list ascii) : Z * nat * list ascii :=
  match l with
  | c :: l' =>
      match digit_of base c with
      | Some d => digits base (acc * base + d)%Z (S cnt) l'
      | None => (acc, cnt, l)
      end
  | [] => (acc, cnt, [])
  end.

Definition radix_literal (base : Z) (l : list ascii) : option Z :=
  match digits base 0 0 l with
  | (v, S _, []) => Some v
  | _ => None
  end.

Definition read_sign (l : list ascii) : bool * list ascii :=
  match l with
  | "-"%char :: l' => (true, l')
  | "+"%char :: l' => (false, l')
  | _ => (false, l)
  end.

Definition read_exponent (l : list ascii) : option Z :=
  match l with
  | [] => Some 0%Z
  | c :: l' =>
      if (Ascii.eqb c "e" || Ascii.eqb c "E")%char then
        let '(neg, l'') := read_sign l' in
        match digits 10 0 0 l'' with
        | (e, S _, []) => Some (if neg then (- e)%Z else e)
        | _ => None
        end
      else None
  end.

Definition decimal_literal (l : list ascii) : option Z :=
  let '(neg, l0) := read_sign l in
  let '(ip, ni, l1) := digits 10 0 0 l0 in
  let '(m, nf, l2) :=
    match l1 with
    | "."%char :: l1' => let '(m, nf, l2) := digits 10 ip 0 l1' in (m, nf, l2)
    | _ => (ip, 0%nat, l1)
    end in
  match (ni + nf)%nat with
  | O => None
  | S _ =>
      match read_exponent l2 with
      | None => None
      | Some e =>
          let sh := (e - Z.of_nat nf)%Z in
          let v :=
            if (0 <=? sh)%Z then Some (m * 10 ^ sh)%Z
            else if (m mod 10 ^ (- sh) =? 0)%Z then Some (m / 10 ^ (- sh))%Z
            else None in
          match v with
          | Some v => Some (if neg then (- v)%Z else v)
          | None => None
          end
      end
  end.

Definition string_to_number (s : string) : option Z :=
  match trim (list_ascii_of_string s) with
  | [] => Some 0%Z
  | "0"%char :: c :: l =>
      if (Ascii.eqb c "x" || Ascii.eqb c "X")%char then radix_literal 16 l
      else if (Ascii.eqb c "o" || Ascii.eqb c "O")%char then radix_literal 8 l
      else if (Ascii.eqb c "b" || Ascii.eqb c "B")%char then radix_literal 2 l
      else decimal_literal ("0"%char :: c :: l)
  | l => decimal_literal l
  end.

(** *** Operators *)

(** [v == undefined] (equivalently [v == null]). *)
Definition is_nullish (v : value) : bool :=
  match v with
  | VJs JUndefined | VJs JNull => true
  | _ => false
  end.

(** [ToBoolean] *)
Definition truthy (v : value) : bool :=
  match v with
  | VJs JUndefined | VJs JNull | VJs (JBool false) | VJs JNaN => false
  | VJs (JNum z) => negb (z =? 0)%Z
  | VJs (JStr s) => negb (String.eqb s "")
  | _ => true
  end.

(** What is left of a non-nullish value once booleans went through
    [ToNumber] and objects through [ToPrimitive]. *)
Inductive prim : Type :=
| PNum (z : Z)
| PNaN
| PStr (s : string).

Definition to_prim (v : value) : prim :=
  match v with
  | VJs (JBool b) => PNum (if b then 1 else 0)
  | VJs (JNum z) => PNum z
  | VJs JNaN => PNaN
  | VJs (JStr s) => PStr s
  | VJs (JObj k r fs) => PStr (to_string (JObj k r fs))
  | VJs JUndefined => PStr "undefined"
  | VJs JNull => PStr "null"
  | VCtl _ => PStr "[object Object]"
  end.

Definition prim_eq (p q : prim) : bool :=
  match p, q with
  | PNum a, PNum b => (a =? b)%Z
  | PStr a, PStr b => String.eqb a b
  | PNum a, PStr s | PStr s, PNum a =>
      match string_to_number s with
      | Some b => (a =? b)%Z
      | None => false
      end
  | _, _ => false
  end.

(** The [==] operator. *)
Definition loose_eq (x y : value) : bool :=
  match x, y with
  | VCtl a, VCtl b => (a =? b)%nat
  | VJs (JObj _ a _), VJs (JObj _ b _) => (a =? b)%nat
  | VCtl _, VJs (JObj _ _ _) | VJs (JObj _ _ _), VCtl _ => false
  | _, _ =>
      if is_nullish x || is_nullish y then is_nullish x && is_nullish y
      else prim_eq (to_prim x) (to_prim y)
  end.

(** [typeof v == "number" || typeof v == "string" || typeof v == "boolean"
    || Array.isArray(v)] *)
Definition is_settable (v : value) : bool :=
  match v with
  | VJs (JBool _) | VJs (JNum _) | VJs JNaN | VJs (JStr _)
  | VJs (JObj KArray _ _) => true
  | _ => false
  end.

(** [v.name] on declarative data; members inherited from the built-in
    prototypes are not modelled. *)
Definition member (j : jsval) (name : string) : jsval :=
  match j with
  | JObj _ _ fields =>
      match obj_get name fields with
      | Some v => v
      | None => JUndefined
      end
  | _ => JUndefined
  end.

(** [k[0] != "_"] *)
Definition not_internal (k : string) : bool :=
  match k with
  | String c _ => negb (Ascii.eqb c "_")
  | EmptyString => true
  end.

End Js.

Import Js.

(** ** Controls, the heap and the event log *)

(** An own public property of a control is either one of the generated
    getter/setter pairs or a plain data field (a child alias, or a field
    of the root, which never goes through the accessor generator). *)
Inductive slot : Type :=
| Accessor
| Field (v : value).

(** A listener is a user callback, known by its identity, or the closure
    that [on] installs on the [remove] event of a caller. *)
Inductive listener : Type :=
| LUser (id : nat)
| LAutoOff (target : nat) (ev : string) (id : nat).

(** What [new controlClass()] yields for a class found by the type
    resolver: the class name, the fields its constructor declares (in
    order) and the [SetAccess] calls its constructor makes. *)
Record cdecl : Type := mkClass {
  cname : string;
  cfields : list (string * jsval);
  cacl : list (string * jsval)
}.

Record node : Type := mkNode {
  slots : list (string * slot);
  _controlName : string;
  _controls : list (string * nat);
  _properties : list (string * value);
  _acl : list (string * jsval);
  _parent : option nat;
  _topLevelParent : option nat;
  _bypassNotify : bool;
  _cls_ : list (string * cdecl);
  _events : list (string * list listener)
}.

(** The log records every emission and every invocation of a user
    callback, the latter with the heap the callback can observe.  User
    callbacks are observers: they do not call back into the tree. *)
Inductive entry : Type :=
| Emitted (n : nat) (ev : string) (payload : data)
| Called (id : nat) (payload : data) (snapshot : list node).

Record state : Type := mkState {
  heap : list node;
  trace : list entry
}.

Definition with_slots f nd :=
  mkNode (f (slots nd)) (_controlName nd) (_controls nd) (_properties nd) (_acl nd)
    (_parent nd) (_topLevelParent nd) (_bypassNotify nd) (_cls_ nd) (_events nd).
Definition with_controls f nd :=
  mkNode (slots nd) (_controlName nd) (f (_controls nd)) (_properties nd) (_acl nd)
    (_parent nd) (_topLevelParent nd) (_bypassNotify nd) (_cls_ nd) (_events nd).
Definition with_properties f nd :=
  mkNode (slots nd) (_controlName nd) (_controls nd) (f (_properties nd)) (_acl nd)
    (_parent nd) (_topLevelParent nd) (_bypassNotify nd) (_cls_ nd) (_events nd).
Definition with_acl f nd :=
  mkNode (slots nd) (_controlName nd) (_controls nd) (_properties nd) (f (_acl nd))
    (_parent nd) (_topLevelParent nd) (_bypassNotify nd) (_cls_ nd) (_events nd).
Definition with_bypass b nd :=
  mkNode (slots nd) (_controlName nd) (_controls nd) (_properties nd) (_acl nd)
    (_parent nd) (_topLevelParent nd) b (_cls_ nd) (_events nd).
Definition with_cls f nd :=
  mkNode (slots nd) (_controlName nd) (_controls nd) (_properties nd) (_acl nd)
    (_parent nd) (_topLevelParent nd) (_bypassNotify nd) (f (_cls_ nd)) (_events nd).
Definition with_events f nd :=
  mkNode (slots nd) (_controlName nd) (_controls nd) (_properties nd) (_acl nd)
    (_parent nd) (_topLevelParent nd) (_bypassNotify nd) (_cls_ nd) (f (_events nd)).

(** In-place update of the control at address [n]. *)
Definition upd (n : nat) (f : node -> node) (s : state) : state :=
  mkState (alter f n (heap s)) (trace s).

Definition log (e : entry) (s : state) : state :=
  mkState (heap s) (trace s ++ [e]).

(** Outcome of a method call: normal return, an exception (with the
    state reached when it was thrown), or recursion cut off by the fuel. *)
Inductive result : Type :=
| Ok (s : state)
| Throw (s : state)
| Fuel.

Definition bind (r : result) (f : state -> result) : result :=
  match r with
  | Ok s => f s
  | Throw s => Throw s
  | Fuel => Fuel
  end.

Notation "r >>= f" := (bind r f) (at level 50, left associativity).

(** ** The event channel (Node's EventEmitter under [dm]) *)

Definition listeners (s : state) (n : nat) (ev : string) : list listener :=
  match heap s !! n with
  | Some nd => match obj_get ev (_events nd) with Some ls => ls | None => [] end
  | None => []
  end.

Definition listener_eqb (a b : listener) : bool :=
  match a, b with
  | LUser i, LUser j => (i =? j)%nat
  | LAutoOff t e i, LAutoOff t' e' j => (t =? t')%nat && String.eqb e e' && (i =? j)%nat
  | _, _ => false
  end.

(** Removes the first occurrence of [l]. *)
Fixpoint remove_first (l : listener) (ls : list listener) : list listener :=
  match ls with
  | [] => []
  | l' :: ls' => if listener_eqb l l' then ls' else l' :: remove_first l ls'
  end.

(** [removeListener] takes out the most recently added instance. *)
Definition remove_last (l : listener) (ls : list listener) : list listener :=
  rev (remove_first l (rev ls)).

(** [this.off(eventName, listener)] *)
Definition off (n : nat) (ev : string) (id : nat) (s : state) : state :=
  match heap s !! n with
  | Some nd =>
      match obj_get ev (_events nd) with
      | Some ls => upd n (with_events (obj_set ev (remove_last (LUser id) ls))) s
      | None => s
      end
  | None => s
  end.

(** [super.on(eventName, listener)] *)
Definition add_listener (n : nat) (ev : string) (l : listener) (s : state) : state :=
  upd n (fun nd => with_events (obj_set ev (match obj_get ev (_events nd) with
                                            | Some ls => ls ++ [l]
                                            | None => [l]
                                            end)) nd) s.

(** [c.removeAllListeners()] *)
Definition removeAllListeners (n : nat) (s : state) : state :=
  upd n (with_events (fun _ => [])) s.

Definition invoke (payload : data) (s : state) (l : listener) : state :=
  match l with
  | LUser id => log (Called id payload (heap s)) s
  | LAutoOff target ev id => off target ev id s
  end.

(** [super.emit(eventName, data)]: the listeners registered when the
    emission starts are called in registration order. *)
Definition super_emit (n : nat) (ev : string) (payload : data) (s : state) : state :=
  fold_left (invoke payload) (listeners s n ev) (log (Emitted n ev payload) s).

(** ** Property access *)

Definition acl_entry (nd : node) (k : string) : jsval :=
  match obj_get k (_acl nd) with Some a => a | None => JUndefined end.

(** [!this._acl[k] || !this._acl[k].ch || this._acl[k].ch == 'public'] *)
Definition acl_public (nd : node) (k ch : string) : bool :=
  negb (truthy (acl_entry nd k))
  || negb (truthy (member (acl_entry nd k) ch))
  || loose_eq (member (acl_entry nd k) ch) (JStr "public").

(** The test written in [Get]:
    [!this._acl[k] || !this._acl[k].Get || this._acl[k] == 'public'] *)
Definition acl_Get (nd : node) (k : string) : bool :=
  negb (truthy (acl_entry nd k))
  || negb (truthy (member (acl_entry nd k) "Get"))
  || loose_eq (acl_entry nd k) (JStr "public").

(** [this._properties[k]] *)
Definition prop_value (nd : node) (k : string) : value :=
  match obj_get k (_properties nd) with Some v => v | None => JUndefined end.

(** The generated getter. *)
Definition getter (nd : node) (k : string) : value :=
  if acl_public nd k "getter" then prop_value nd k else JUndefined.

(** [this[k]] for a public name [k]. *)
Definition read_slot (nd : node) (k : string) : value :=
  match obj_get k (slots nd) with
  | Some Accessor => getter nd k
  | Some (Field v) => v
  | None => JUndefined
  end.

Definition get_prop (s : state) (n : nat) (k : string) : value :=
  match heap s !! n with
  | Some nd => read_slot nd k
  | None => JUndefined
  end.

(** [this.hideData], as [_notify] and [Get] read it. *)
Definition hidden (s : state) (n : nat) : bool := truthy (get_prop s n "hideData").

(** ** The event channel, continued: [on] and scoped [emit] *)

Record on_options : Type := mkOn {
  immediate : bool;
  caller : option nat
}.

Definition on (n : nat) (ev : string) (id : nat) (options : on_options) (s : state) : state :=
  let s1 := add_listener n ev (LUser id) s in
  let s2 :=
    if immediate options && negb (is_nullish (get_prop s1 n ev))
    then log (Called id (DVal (get_prop s1 n ev)) (heap s1)) s1
    else s1 in
  match caller options with
  | Some c => add_listener c "remove" (LAutoOff n ev id) s2
  | None => s2
  end.

Inductive scope : Type := Local | Bubble | Top | LocalTop.

Fixpoint emit_fuel (fuel : nat) (n : nat) (ev : string) (payload : data) (sc : scope)
    (s : state) : result :=
  match fuel with
  | O => Fuel
  | S fuel' =>
      match heap s !! n with
      | None => Throw s
      | Some nd =>
          let s1 := match sc with
                    | Local | LocalTop | Bubble => super_emit n ev payload s
                    | Top => s
                    end in
          (match sc, _parent nd with
           | Bubble, Some p => emit_fuel fuel' p ev payload sc s1
           | _, _ => Ok s1
           end) >>= fun s2 =>
          match sc with
          | Top | LocalTop =>
              match _topLevelParent nd with
              | Some t => Ok (super_emit t ev payload s2)
              | None => Throw s2
              end
          | _ => Ok s2
          end
      end
  end.

Definition emit (n : nat) (ev : string) (payload : data) (sc : scope) (s : state) : result :=
  emit_fuel (length (heap s)) n ev payload sc s.

(** ** The notification router *)

Fixpoint _notify_fuel (fuel : nat) (n : nat) (delta : data) (s : state) : result :=
  match fuel with
  | O => Fuel
  | S fuel' =>
      match heap s !! n with
      | None => Throw s
      | Some nd =>
          (match _parent nd with
           | Some p =>
               if negb (hidden s n)
               then _notify_fuel fuel' p (DObj [(_controlName nd, delta)]) s
               else Ok s
           | None => Ok s
           end) >>= fun s1 => Ok (super_emit n "data" delta s1)
      end
  end.

Definition _notify (n : nat) (delta : data) (s : state) : result :=
  _notify_fuel (length (heap s)) n delta s.

Inductive names : Type :=
| Single (p : string)
| Many (ps : list string).

(** The delta [NotifyProperty] builds before it calls [_notify]. *)
Definition notify_delta (s : state) (n : nat) (nd : node) (ns : names) : list (string * data) :=
  match ns with
  | Many ps =>
      fold_left (fun d p =>
                   if acl_public nd p "Get" then
                     if negb (is_nullish (get_prop s n p))
                     then obj_set p (DVal (get_prop s n p)) d else d
                   else d) ps []
  | Single p =>
      if negb (is_nullish (get_prop s n p)) then
        if acl_public nd p "Get" then [(p, DVal (get_prop s n p))] else []
      else []
  end.

Definition NotifyProperty (n : nat) (ns : names) (s : state) : result :=
  match heap s !! n with
  | None => Throw s
  | Some nd => _notify n (DObj (notify_delta s n nd ns)) s
  end.

(** ** The generated setter and property assignment *)

Definition setter (n : nat) (k : string) (val : value) (s : state) : result :=
  match heap s !! n with
  | None => Throw s
  | Some nd =>
      (if negb (loose_eq (prop_value nd k) val) then
         if acl_public nd k "setter" then
           let s1 := upd n (with_properties (obj_set k val)) s in
           (if negb (_bypassNotify nd)
            then NotifyProperty n (Single k) s1
            else Ok (upd n (with_bypass false) s1)) >>= fun s2 =>
           Ok (super_emit n k (DVal val) s2)
         else Ok s
       else Ok s) >>= fun s3 =>
      Ok (upd n (with_bypass false) s3)
  end.

(** [this[k] = v] *)
Definition put_prop (n : nat) (k : string) (v : value) (s : state) : result :=
  match heap s !! n with
  | None => Throw s
  | Some nd =>
      match obj_get k (slots nd) with
      | Some Accessor => setter n k v s
      | _ => Ok (upd n (with_slots (obj_set k (Field v))) s)
      end
  end.

(** ** [SetAccess], [RemoveChild] and [Get] *)

Definition SetAccess (n : nat) (propertyName : string) (ACL : jsval) (s : state) : state :=
  if negb (is_nullish (get_prop s n propertyName))
  then upd n (with_acl (obj_set propertyName ACL)) s
  else s.

Definition RemoveChild (this : nat) (control : string) (s : state) : state :=
  match heap s !! this with
  | None => s
  | Some nd =>
      match obj_get control (_controls nd) with
      | Some c =>
          let s1 := super_emit c "remove" (DVal (VCtl c)) s in
          let s2 := upd this (with_controls (obj_delete control)) s1 in
          let s3 := upd this (with_slots (obj_delete control)) s2 in
          removeAllListeners c s3
      | None => s
      end
  end.

Record get_options : Type := mkGet { sparse : jsval }.

Definition default_options : get_options := mkGet (JBool true).

(** [options.sparse && v != '' || !options.sparse] *)
Definition sparse_keeps (options : get_options) (v : value) : bool :=
  truthy (sparse options) && negb (loose_eq v (JStr "")) || negb (truthy (sparse options)).

(** The first loop of [Get], over the property registry. *)
Definition own_step (nd : node) (options : get_options)
    (d : list (string * data)) (k : string) : list (string * data) :=
  if acl_Get nd k then
    if sparse_keeps options (prop_value nd k)
    then obj_set k (DVal (prop_value nd k)) d else d
  else d.

Definition own_data (nd : node) (options : get_options) : list (string * data) :=
  fold_left (own_step nd options) (map fst (_properties nd)) [].

Fixpoint Get_fuel (fuel : nat) (s : state) (n : nat) (options : get_options)
    : option (list (string * data)) :=
  match fuel with
  | O => None
  | S fuel' =>
      match heap s !! n with
      | None => None
      | Some nd =>
          (fix children (cs : list (string * nat)) (d : list (string * data))
             : option (list (string * data)) :=
             match cs with
             | [] => Some d
             | (k, c) :: cs' =>
                 if negb (hidden s c) then
                   match Get_fuel fuel' s c options with
                   | Some r => children cs' (obj_set k (DObj r) d)
                   | None => None
                   end
                 else children cs' d
             end) (_controls nd) (own_data nd options)
      end
  end.

Definition Get (s : state) (n : nat) (options : get_options) : option (list (string * data)) :=
  Get_fuel (length (heap s)) s n options.

(** ** Construction: the accessor generator and the type resolver *)

(** The own public fields [dm]'s constructor sets, in order. *)
Definition base_slots (class_name : string) : list (string * slot) :=
  [("controlType", Field (JStr class_name));
   ("hideData", Field (JBool false));
   ("remove", Field JUndefined)].

Definition blank (class_name : string) : node :=
  mkNode (base_slots class_name) "" [] [] [] None None false [] [].

(** [new controlClass()]: the base constructor, then the fields the class
    declares, then the [SetAccess] calls of its constructor. *)
Definition new_control (c : cdecl) : node :=
  let nd := fold_left (fun nd '(k, v) => with_slots (obj_set k (Field (VJs v))) nd)
              (cfields c) (blank (cname c)) in
  fold_left (fun nd '(k, a) =>
               if negb (is_nullish (read_slot nd k))
               then with_acl (obj_set k a) nd else nd)
    (cacl c) nd.

(** The loop of [_createControl] over [Object.getOwnPropertyNames]: every
    public field holding a number, string, boolean or array moves to the
    registry and becomes a getter/setter pair. *)
Definition generate_accessors (control : node) : node :=
  fold_left (fun nd k =>
               if not_internal k && is_settable (read_slot nd k)
               then with_slots (obj_set k Accessor)
                      (with_properties (obj_set k (read_slot nd k)) nd)
               else nd)
    (map fst (slots control)) control.

(** [new dmTopLevelContainer(path)] *)
Definition top_level_container : node :=
  mkNode (base_slots "dmTopLevelContainer") "topLevelContainer" [] [] [] None (Some 0%nat)
    false [] [].

Definition initial_state : state := mkState [top_level_container] [].

(** [/^[a-zA-Z0-9_]+$/] *)
Definition word_char (c : ascii) : bool :=
  let n := nat_of_ascii c in
  ((48 <=? n) && (n <=? 57) || (65 <=? n) && (n <=? 90)
   || (97 <=? n) && (n <=? 122) || (n =? 95))%nat.

Definition single_word (name : string) : bool :=
  match list_ascii_of_string name with
  | [] => false
  | l => forallb word_char l
  end.

Inductive resolved : Type :=
| Found (c : cdecl) (s : state)
| NotFound (s : state)
| Raised (s : state).

(** What [Set] assigns for [data[k] = v]: the value itself, or the text
    [`${v}`] when it is [null] or [undefined]. *)
Definition coerce (v : jsval) : value :=
  if negb (is_nullish v) then VJs v else VJs (JStr (to_string v)).

Section Engine.

(** The module loader, an external collaborator: [require(`${p}/${name}`)]
    gives the class exported by the file of that name, or fails. *)
Variable require : string -> option cdecl.

Definition _getDynamicClass (this : nat) (name : jsval) (s : state) : resolved :=
  match heap s !! this with
  | None => Raised s
  | Some nd =>
      match _topLevelParent nd with
      | None => Raised s
      | Some tp =>
          match heap s !! tp with
          | None => Raised s
          | Some tpn =>
              match obj_get (to_string name) (_cls_ tpn) with
              | Some c => Found c s
              | None =>
                  match name with
                  | JStr w =>
                      if single_word w then
                        match require w with
                        | Some c => Found c (upd tp (with_cls (obj_set w c)) s)
                        | None => NotFound s
                        end
                      else NotFound s
                  | _ => Raised s
                  end
              end
          end
      end
  end.

(** [_createControl(data, name)]; [SetData] stands for [control.Set(data)]. *)
Definition _createControl (SetData : nat -> state -> result)
    (this : nat) (d : jsval) (name : string) (s : state) : result :=
  match _getDynamicClass this (member d "controlType") s with
  | Raised s' => Throw s'
  | NotFound s' => Ok s'
  | Found c s1 =>
      match heap s1 !! this with
      | None => Throw s1
      | Some nd =>
          let id := length (heap s1) in
          let fresh := new_control c in
          let control :=
            generate_accessors
              (mkNode (slots fresh) name (_controls fresh) (_properties fresh) (_acl fresh)
                 (Some this) (_topLevelParent nd) (_bypassNotify fresh) (_cls_ fresh)
                 (_events fresh)) in
          let s2 := mkState (heap s1 ++ [control]) (trace s1) in
          let s3 := upd this (with_controls (obj_set name id)) s2 in
          put_prop this name (VCtl id) s3 >>= fun s4 =>
          SetData id s4 >>= fun s5 =>
          let s6 := super_emit this name (DVal (VCtl id)) s5 in
          Ok (super_emit this "newChildControl" (DVal (VCtl id)) s6)
      end
  end.

(** ** The tree mutation engine *)

(** The body of the [forEach] in [Set], for the key [k] with [data[k] = v];
    [SetData c] stands for [c.Set(data[k])]. *)
Definition Set_key (SetData : nat -> state -> result)
    (this : nat) (k : string) (v : jsval) (s : state) : result :=
  match heap s !! this with
  | None => Throw s
  | Some nd =>
      if String.eqb k "remove" then
        if loose_eq v (JBool true) then
          match _parent nd with
          | Some p => Ok (RemoveChild p (_controlName nd) s)
          | None => Throw s
          end
        else Ok s
      else if not_internal k && negb (String.eqb k "controlType") then
        if negb (is_nullish (read_slot nd k)) && is_settable (read_slot nd k) then
          if acl_public nd k "Set" then
            put_prop this k (coerce v) (upd this (with_bypass true) s)
          else Ok s
        else
          match obj_get k (_controls nd) with
          | Some c => SetData c s
          | None =>
              if negb (is_nullish v) && negb (is_nullish (member v "controlType"))
              then _createControl SetData this v k s
              else Ok s
          end
      else Ok s
  end.

Fixpoint Set_ (this : nat) (d : jsval) (s : state) {struct d} : result :=
  match d with
  | JObj _ _ fields =>
      (fix each (fs : list (string * jsval)) (s : state) {struct fs} : result :=
         match fs with
         | [] => Ok s
         | (k, v) :: fs' =>
             Set_key (fun c => Set_ c v) this k v s >>= each fs'
         end) fields s
  | _ => Ok s
  end.

End Engine.

(** ** A concrete tree: the data model of the README *)

Definition demo_require (w : string) : option cdecl :=
  if String.eqb w "house" then Some (mkClass "house" [("streetNumber", JStr "")] [])
  else if String.eqb w "room"
       then Some (mkClass "room" [("doors", JNum 1); ("windows", JNum 1)] [])
       else None.

Definition obj (ref : nat) (fields : list (string * jsval)) : jsval := JObj KObject ref fields.

Definition demo_data : jsval :=
  obj 1 [("house1",
          obj 2 [("controlType", JStr "house");
                 ("room1", obj 3 [("controlType", JStr "room"); ("windows", JNum 2)])])].

Definition state_of (r : result) : state :=
  match r with
  | Ok s => s
  | Throw s => s
  | Fuel => initial_state
  end.

(** The container is control 0, [house1] is control 1 and [room1] is
    control 2; the log is emptied so that later logs start afresh. *)
Definition demo_state : state :=
  Eval vm_compute in
    mkState (heap (state_of (Set_ demo_require 0 demo_data initial_state))) [].

(** ** Notions used in the statements *)

(** A control without its listener table; [Get], the accessors and the
    router read nothing else of the heap. *)
Definition erase (nd : node) : node := with_events (fun _ => []) nd.

Definition skeleton (s : state) : list node := map erase (heap s).

(** The entries an operation appended to the log. *)
Definition appended (s s' : state) (es : list entry) : Prop :=
  trace s' = trace s ++ es.

(** Children are allocated after their parent and live in the heap. *)
Definition children_above (s : state) : Prop :=
  forall n nd k c,
    heap s !! n = Some nd -> In (k, c) (_controls nd) -> n < c < length (heap s).

(** [room1] after [SetAccess('windows', {Get: 'public'})]. *)
Definition demo_public : state :=
  Eval vm_compute in SetAccess 2 "windows" (obj 5 [("Get", JStr "public")]) demo_state.

(** [room1] after [room1.windows = 0]. *)
Definition demo_zero : state :=
  Eval vm_compute in
    mkState (heap (state_of (put_prop 2 "windows" (JNum 0) demo_state))) [].

Definition is_call (e : entry) : Prop :=
  match e with
  | Called _ _ _ => True
  | Emitted _ _ _ => False
  end.

Arguments truthy : simpl never.
Arguments loose_eq : simpl never.
Arguments is_nullish : simpl never.
Arguments is_settable : simpl never.
Arguments to_string : simpl never.
Arguments acl_public : simpl never.
Arguments acl_Get : simpl never.
Arguments super_emit : simpl never.
Arguments RemoveChild : simpl never.
Arguments upd : simpl never.
Arguments coerce : simpl never.
Arguments _notify_fuel : simpl never.
Arguments Get_fuel : simpl never.

(** [ancestor s p n]: [p] is reached from [n] by following [_parent] at
    least once. *)
Inductive ancestor (s : state) : nat -> nat -> Prop :=
| ancestor_parent n nd p :
    heap s !! n = Some nd -> _parent nd = Some p -> ancestor s p n
| ancestor_step n nd p q :
    heap s !! n = Some nd -> _parent nd = Some p -> ancestor s q p -> ancestor s q n.

(** Parents are allocated before their children. *)
Definition parents_below (s : state) : Prop :=
  forall n nd p, heap s !! n = Some nd -> _parent nd = Some p -> p < n.

(** Going from [s] to [s'], the entry [e] was appended to the log. *)
Definition emitted (s s' : state) (e : entry) : Prop :=
  exists es, trace s' = trace s ++ es /\ In e es.

(** The tree in which the control [a] is taken out of the children of [par]. *)
Definition cut (par a : nat) (s : state) : state :=
  upd par (with_controls (List.filter (fun kc => negb (snd kc =? a)%nat))) s.

(** Checks over all controls of a heap, by address. *)
Fixpoint check_from (i : nat) (P : nat -> node -> bool) (h : list node) : bool :=
  match h with
  | [] => true
  | nd :: h' => P i nd && check_from (S i) P h'
  end.

Definition parents_below_b (s : state) : bool :=
  check_from 0 (fun n nd => match _parent nd with
                            | Some p => (p <? n)%nat
                            | None => true
                            end) (heap s).

Definition children_above_b (s : state) : bool :=
  check_from 0 (fun n nd =>
                  forallb (fun kc => (n <? snd kc)%nat && (snd kc <? length (heap s))%nat)
                    (_controls nd)) (heap s).

(** [house1] after [house1.hideData = true]. *)
Definition demo_hidden : state :=
  Eval vm_compute in
    mkState (heap (state_of (put_prop 1 "hideData" (JBool true) demo_state))) [].

(** [room1] after [SetAccess('windows', {getter: 'none'})]. *)
Definition demo_nogetter : state :=
  Eval vm_compute in SetAccess 2 "windows" (obj 5 [("getter", JStr "none")]) demo_state.

(** Number of registrations of the listener [l] in a listener array. *)
Definition registrations (l : listener) (ls : list listener) : nat :=
  length (List.filter (listener_eqb l) ls).

(** [house1] with two listeners on its ['data'] event: listener 7,
    registered by [house1.on('data', f7, {caller: room1})], and listener 8,
    registered without options. *)
Definition demo_listening : state :=
  Eval vm_compute in
    on 1 "data" 8 (mkOn false None) (on 1 "data" 7 (mkOn false (Some 2)) demo_state).

(** *** Notions for the idempotence of [Set] *)

(** The key loop of [Set], as a function of its own. *)
Definition Set_each (require : string -> option cdecl) (this : nat) :=
  fix each (fs : list (string * jsval)) (s : state) {struct fs} : result :=
    match fs with
    | [] => Ok s
    | (k, v) :: fs' =>
        Set_key require (fun c => Set_ require c v) this k v s >>= each fs'
    end.

(** What [Get] and the dispatch of [Set] can see of a control: everything
    but the listener table, the class cache and the bypass mark. *)
Definition shape (nd : node) : node :=
  mkNode (slots nd) (_controlName nd) (_controls nd) (_properties nd) (_acl nd)
    (_parent nd) (_topLevelParent nd) false [] [].

Definition shape_of (s : state) : list node := map shape (heap s).

Definition untouched (s s' : state) (x : nat) : Prop :=
  shape <$> heap s' !! x = shape <$> heap s !! x.

(** [x] is [a] or lies below [a]. *)
Definition within (s : state) (a x : nat) : Prop := x = a \/ ancestor s a x.

(** A heap is a forest: parents are allocated before their children, and
    every entry of a children mapping is a control that knows its parent
    and its name. *)
Definition tree (s : state) : Prop :=
  parents_below s
  /\ forall n nd k c,
      heap s !! n = Some nd -> In (k, c) (_controls nd) ->
      exists cd, heap s !! c = Some cd /\ _parent cd = Some n /\ _controlName cd = k.

(** The data requests no removal, at any depth. *)
Fixpoint no_remove (d : jsval) : Prop :=
  match d with
  | JObj _ _ fields =>
      (fix each (fs : list (string * jsval)) : Prop :=
         match fs with
         | [] => True
         | (k, v) :: fs' =>
             (k = "remove" -> loose_eq v (JBool true) = false) /\ no_remove v /\ each fs'
         end) fields
  | _ => True
  end.

(** Objects have each key once, at every depth. *)
Fixpoint unique_keys (d : jsval) : Prop :=
  match d with
  | JObj _ _ fields =>
      List.NoDup (map fst fields)
      /\ (fix each (fs : list (string * jsval)) : Prop :=
            match fs with
            | [] => True
            | (_, v) :: fs' => unique_keys v /\ each fs'
            end) fields
  | _ => True
  end.

Definition is_plain_object (v : value) : bool :=
  match v with
  | VJs (JObj KObject _ _) => true
  | _ => false
  end.

(** No public member of a control at or below [a] reads as a plain object. *)
Definition clean_within (s : state) (a : nat) : Prop :=
  forall x nd k,
    within s a x -> heap s !! x = Some nd -> is_plain_object (read_slot nd k) = false.

Definition clean (s : state) : Prop :=
  forall x nd k, heap s !! x = Some nd -> is_plain_object (read_slot nd k) = false.

(** The type resolver finds nothing, and leaves the state alone. *)
Definition unresolved (require : string -> option cdecl) (s : state) (n : nat)
    (name : jsval) : Prop :=
  _getDynamicClass require n name s = NotFound s.

(** [Set] has nothing left to do for the key [k] with value [v]:
    whichever branch it takes, what [Get] can see stays as it is. *)
Definition settled_key (require : string -> option cdecl) (s : state) (rec : nat -> Prop)
    (n : nat) (k : string) (v : jsval) : Prop :=
  exists nd,
    heap s !! n = Some nd
    /\ if String.eqb k "remove" then loose_eq v (JBool true) = false
       else if not_internal k && negb (String.eqb k "controlType") then
         if negb (is_nullish (read_slot nd k)) && is_settable (read_slot nd k) then
           acl_public nd k "Set" = true ->
           match obj_get k (slots nd) with
           | Some Accessor =>
               loose_eq (prop_value nd k) (coerce v) = true
               \/ acl_public nd k "setter" = false
               \/ obj_get k (_properties nd) = Some (coerce v)
           | other => other = Some (Field (coerce v))
           end
         else
           match obj_get k (_controls nd) with
           | Some c => rec c
           | None =>
               if negb (is_nullish v) && negb (is_nullish (member v "controlType"))
               then unresolved require s n (member v "controlType")
               else True
           end
       else True.

Fixpoint settled (require : string -> option cdecl) (s : state) (n : nat) (d : jsval)
    : Prop :=
  match d with
  | JObj _ _ fields =>
      (fix each (fs : list (string * jsval)) : Prop :=
         match fs with
         | [] => True
         | (k, v) :: fs' =>
             settled_key require s (fun c => settled require s c v) n k v /\ each fs'
         end) fields
  | _ => True
  end.

Definition settled_each (require : string -> option cdecl) (s : state) (n : nat) :=
  fix each (fs : list (string * jsval)) : Prop :=
    match fs with
    | [] => True
    | (k, v) :: fs' =>
        settled_key require s (fun c => settled require s c v) n k v /\ each fs'
    end.

(** Two states that [Get] and the dispatch of [Set] cannot tell apart. *)
Definition same_view (s s' : state) : Prop :=
  shape_of s' = shape_of s
  /\ forall x, _cls_ <$> heap s' !! x = _cls_ <$> heap s !! x.

(** What the processing of other keys keeps of the key [k] of [n]. *)
Definition key_kept (k : string) (n : nat) (s s' : state) : Prop :=
  forall nd, heap s !! n = Some nd ->
    exists nd', heap s' !! n = Some nd'
                /\ obj_get k (slots nd') = obj_get k (slots nd)
                /\ obj_get k (_properties nd') = obj_get k (_properties nd)
                /\ obj_get k (_controls nd') = obj_get k (_controls nd).

(** What every step of [Set] keeps of every control: its links, its
    access-control list, and its class cache, which only gains classes
    that were just loaded. *)
Definition links_kept (require : string -> option cdecl) (s s' : state) : Prop :=
  forall x nd, heap s !! x = Some nd ->
    exists nd', heap s' !! x = Some nd'
                /\ _parent nd' = _parent nd
                /\ _topLevelParent nd' = _topLevelParent nd
                /\ _acl nd' = _acl nd
                /\ forall w, obj_get w (_cls_ nd') = obj_get w (_cls_ nd)
                             \/ (obj_get w (_cls_ nd) = None
                                 /\ single_word w = true /\ require w <> None).

(** A step of [Set] on the control [m] leaves the controls that are not
    below [m] as they were, and whatever it creates is below [m]. *)
Definition kept_outside (s s' : state) (m : nat) : Prop :=
  forall x, x < length (heap s) -> ~ within s m x -> untouched s s' x.

Definition fresh_within (s s' : state) (m : nat) : Prop :=
  forall x, length (heap s) <= x -> x < length (heap s') -> within s' m x.

Definition advances (require : string -> option cdecl) (m : nat) (s s' : state) : Prop :=
  tree s' /\ length (heap s) <= length (heap s') /\ links_kept require s s'
  /\ kept_outside s s' m /\ fresh_within s s' m.

(** For the keys selected by [P]: the entries of the key in [m] are kept,
    and so is everything below the child of that name. *)
Definition keys_kept (P : string -> Prop) (m : nat) (s s' : state) : Prop :=
  forall k, P k ->
    key_kept k m s s'
    /\ forall nd c x,
        heap s !! m = Some nd -> obj_get k (_controls nd) = Some c ->
        within s c x -> untouched s s' x.

(** Only the control [m] changes, and only in its property and slot for
    the key [k]. *)
Definition changes_key (require : string -> option cdecl) (k : string) (m : nat)
    (s s' : state) : Prop :=
  length (heap s') = length (heap s)
  /\ links_kept require s s'
  /\ (forall x, x <> m -> untouched s s' x)
  /\ forall nd, heap s !! m = Some nd ->
      exists nd', heap s' !! m = Some nd'
                  /\ _controlName nd' = _controlName nd
                  /\ _controls nd' = _controls nd
                  /\ forall k', k' <> k ->
                       obj_get k' (slots nd') = obj_get k' (slots nd)
                       /\ obj_get k' (_properties nd') = obj_get k' (_properties nd).

(** What the first application of [Set] with the data [v] guarantees. *)
Definition Set_sound (require : string -> option cdecl) (v : jsval) : Prop :=
  forall m s s',
    Set_ require m v s = Ok s' -> tree s -> no_remove v -> unique_keys v ->
    advances require m s s' /\ (clean_within s' m -> settled require s' m v).

(** Induction on declarative data, through the fields of objects. *)
Fixpoint jsval_rect2 (P : jsval -> Prop)
    (Hu : P JUndefined) (Hn : P JNull) (Hb : forall b, P (JBool b))
    (Hz : forall z, P (JNum z)) (Hnan : P JNaN) (Hs : forall s, P (JStr s))
    (Ho : forall kind r fields, List.Forall (fun kv => P (snd kv)) fields ->
                                P (JObj kind r fields))
    (j : jsval) {struct j} : P j :=
  match j with
  | JUndefined => Hu
  | JNull => Hn
  | JBool b => Hb b
  | JNum z => Hz z
  | JNaN => Hnan
  | JStr s => Hs s
  | JObj kind r fields =>
      Ho kind r fields
        ((fix go (fs : list (string * jsval)) : List.Forall (fun kv => P (snd kv)) fs :=
            match fs with
            | [] => @List.Forall_nil _ _
            | (k, v) :: fs' =>
                @List.Forall_cons _ (fun kv => P (snd kv)) (k, v) fs'
                  (jsval_rect2 P Hu Hn Hb Hz Hnan Hs Ho v) (go fs')
            end) fields)
  end.

Definition tree_b (s : state) : bool :=
  parents_below_b s
  && check_from 0 (fun n nd =>
                     forallb (fun kc =>
                                match heap s !! snd kc with
                                | Some cd =>
                                    match _parent cd with
                                    | Some p => (p =? n)%nat
                                    | None => false
                                    end && String.eqb (_controlName cd) (fst kc)
                                | None => false
                                end) (_controls nd)) (heap s).

Definition clean_b (s : state) : bool :=
  forallb (fun nd => forallb (fun ks => negb (is_plain_object (read_slot nd (fst ks))))
                       (slots nd)) (heap s).

(** The state after [Set(demo_data)] on a new container, log included. *)
Definition demo_once : state :=
  Eval vm_compute in state_of (Set_ demo_require 0 demo_data initial_state).

(** Data that hands a plain object to the observable property [windows]. *)
Definition demo_confusing : jsval :=
  obj 9 [("windows", obj 10 [("controlType", JStr "room")])].

(** ** Further notions: scoped events, the log channel, lineages *)

(** [this.Log(message)]; [class_name] stands for [this.constructor.name]. *)
Definition Log (class_name : string) (n : nat) (message : jsval) (s : state) : result :=
  match heap s !! n with
  | None => Throw s
  | Some nd =>
      match _topLevelParent nd with
      | None => Throw s
      | Some t =>
          emit t "log"
            (DVal (JStr (class_name ++ " | " ++ _controlName nd ++ ": " ++ to_string message)))
            Local s
      end
  end.

(** The emissions among the entries of a log: control, event, payload. *)
Fixpoint emissions (es : list entry) : list (nat * string * data) :=
  match es with
  | [] => []
  | Emitted n ev p :: es' => (n, ev, p) :: emissions es'
  | Called _ _ _ :: es' => emissions es'
  end.

(** The control [n], its parent, the parent of its parent, and so on. *)
Fixpoint lineage_fuel (fuel : nat) (s : state) (n : nat) : list nat :=
  match fuel with
  | O => []
  | S fuel' =>
      match heap s !! n with
      | None => []
      | Some nd =>
          n :: match _parent nd with
               | Some p => lineage_fuel fuel' s p
               | None => []
               end
      end
  end.

Definition lineage (s : state) (n : nat) : list nat := lineage_fuel (length (heap s)) s n.

(** *** What [Set] keeps of every control *)

(** Every control of [s] is still there in [s'], under the same name,
    with the same parent, the same top-level parent and the same
    access-control list. *)
Definition identity_kept (s s' : state) : Prop :=
  forall x nd, heap s !! x = Some nd ->
    exists nd', heap s' !! x = Some nd'
                /\ _controlName nd' = _controlName nd
                /\ _parent nd' = _parent nd
                /\ _topLevelParent nd' = _topLevelParent nd
                /\ _acl nd' = _acl nd.

(** All controls have [t] as their top-level parent. *)
Definition contained (t : nat) (s : state) : Prop :=
  forall x nd, heap s !! x = Some nd -> _topLevelParent nd = Some t.

(** A step that allocates nothing and gives no control a new child. *)
Definition links_same (s s' : state) : Prop :=
  length (heap s') = length (heap s)
  /\ forall x nd, heap s !! x = Some nd ->
       exists nd', heap s' !! x = Some nd'
                   /\ _controlName nd' = _controlName nd
                   /\ _parent nd' = _parent nd
                   /\ _topLevelParent nd' = _topLevelParent nd
                   /\ _acl nd' = _acl nd
                   /\ forall k c, In (k, c) (_controls nd') -> In (k, c) (_controls nd).

(** What every step of [Set] keeps. *)
Definition kept (s s' : state) : Prop :=
  identity_kept s s'
  /\ (parents_below s -> parents_below s')
  /\ (tree s -> tree s')
  /\ (forall t, contained t s -> contained t s').

(** A call that started in [s] keeps all that, whether it returns or
    throws, and does not run out of fuel when parents are allocated
    before their children. *)
Definition steady (r : result) (s : state) : Prop :=
  (forall s', r = Ok s' \/ r = Throw s' -> kept s s')
  /\ (parents_below s -> r <> Fuel).

(** The keys [Set] acts upon: [remove], and the public names other than
    [controlType]. *)
Definition Set_reads (k : string) : bool :=
  String.eqb k "remove" || (not_internal k && negb (String.eqb k "controlType")).

(** One round of the accessor generator, for the field [k]. *)
Definition generate_step (nd : node) (k : string) : node :=
  if not_internal k && is_settable (read_slot nd k)
  then with_slots (obj_set k Accessor) (with_properties (obj_set k (read_slot nd k)) nd)
  else nd.

(** The names handed to [NotifyProperty]: one name, or an array of names. *)
Definition mentions (ns : names) (p : string) : bool :=
  match ns with
  | Single q => String.eqb p q
  | Many ps => existsb (String.eqb p) ps
  end.

(** The key [k] names an observable property of the control that [Set]
    can write: a public name with a generated accessor, a value that
    reads as a number, a string, a boolean or an array, and the channels
    [getter], [Set] and [setter] open. *)
Definition writable (nd : node) (k : string) : bool :=
  negb (String.eqb k "remove") && not_internal k && negb (String.eqb k "controlType")
  && match obj_get k (slots nd) with Some Accessor => true | _ => false end
  && acl_public nd k "getter" && is_settable (prop_value nd k)
  && acl_public nd k "Set" && acl_public nd k "setter".

(** The writes that change something: those whose value is not loosely
    equal to the stored one. *)
Definition effective (nd : node) (fs : list (string * jsval)) : list (string * jsval) :=
  List.filter (fun kv => negb (loose_eq (prop_value nd (fst kv)) (VJs (snd kv)))) fs.

(** A control without the values of its properties (and without its
    listener table, class cache and bypass mark). *)
Definition frame (nd : node) : node := with_properties (fun _ => []) (shape nd).

(** The control [_createControl] makes from the class [c], before it is
    entered in the heap. *)
Definition fresh_control (c : cdecl) (name : string) (parent : nat) (top : option nat)
    : node :=
  let fresh := new_control c in
  generate_accessors
    (mkNode (slots fresh) name (_controls fresh) (_properties fresh) (_acl fresh)
       (Some parent) top (_bypassNotify fresh) (_cls_ fresh) (_events fresh)).

(** *** Sessions *)

(** The calls a program can make on the controls of a tree. *)
Inductive call : Type :=
| CSet (n : nat) (d : jsval)
| CAssign (n : nat) (k : string) (v : value)
| CRemoveChild (n : nat) (name : string)
| CSetAccess (n : nat) (k : string) (ACL : jsval)
| COn (n : nat) (ev : string) (id : nat) (options : on_options)
| CNotifyProperty (n : nat) (ns : names)
| CEmit (n : nat) (ev : string) (payload : data) (sc : scope)
| CLog (class_name : string) (n : nat) (message : jsval).

Definition perform (require : string -> option cdecl) (c : call) (s : state) : result :=
  match c with
  | CSet n d => Set_ require n d s
  | CAssign n k v => put_prop n k v s
  | CRemoveChild n name => Ok (RemoveChild n name s)
  | CSetAccess n k ACL => Ok (SetAccess n k ACL s)
  | COn n ev id options => Ok (on n ev id options s)
  | CNotifyProperty n ns => NotifyProperty n ns s
  | CEmit n ev payload sc => emit n ev payload sc s
  | CLog class_name n message => Log class_name n message s
  end.

(** A session: the calls are made one after the other, until one throws. *)
Fixpoint session (require : string -> option cdecl) (cs : list call) (s : state) : result :=
  match cs with
  | [] => Ok s
  | c :: cs' => perform require c s >>= session require cs'
  end.

(** Assignments are made to public members only. *)
Definition public_call (c : call) : Prop :=
  match c with
  | CAssign _ k _ => not_internal k = true
  | _ => True
  end.

(** A tree under the container at address 0. *)
Definition sound (s : state) : Prop :=
  tree s /\ contained 0 s
  /\ exists nd, heap s !! 0 = Some nd /\ _parent nd = None.

(** * Properties *)

(** ** Values *)

(** The comparisons the engine relies on, on the values it meets. *)
Example loose_eq_table :
  loose_eq (JNum 1) (JBool true) = true
  /\ loose_eq (JStr "1") (JBool true) = true
  /\ loose_eq (JStr "true") (JBool true) = false
  /\ loose_eq (JObj KArray 0 [("0", JNum 1)]) (JBool true) = true
  /\ loose_eq (JNum 0) (JStr "") = true
  /\ loose_eq (JBool false) (JStr "") = true
  /\ loose_eq (JObj KArray 0 []) (JStr "") = true
  /\ loose_eq (JStr " ") (JNum 0) = true
  /\ loose_eq JNull JUndefined = true
  /\ loose_eq JNull (JNum 0) = false
  /\ loose_eq JNull (JStr "") = false
  /\ loose_eq JNaN JNaN = false
  /\ loose_eq (JObj KObject 0 []) (JObj KObject 1 []) = false
  /\ loose_eq (JObj KObject 0 []) (JObj KObject 0 []) = true
  /\ loose_eq (VCtl 1) (VCtl 1) = true
  /\ loose_eq (VCtl 1) (JStr "[object Object]") = true.
Proof. repeat split; reflexivity. Qed.

Example to_string_table :
  to_string (JNum (-12)) = "-12"
  /\ to_string JNull = "null"
  /\ to_string (JObj KArray 0 [("0", JNum 1); ("1", JNull); ("2", JStr "a")]) = "1,,a"
  /\ to_string (JObj KObject 0 [("a", JNum 1)]) = "[object Object]"
  /\ string_to_number "0x1F" = Some 31%Z
  /\ string_to_number " 12 " = Some 12%Z
  /\ string_to_number "1e2" = Some 100%Z
  /\ string_to_number "" = Some 0%Z
  /\ string_to_number "12a" = None.
Proof. repeat split; reflexivity. Qed.

(** ** Objects as maps *)

Section ObjFacts.
Context {A : Type}.
Implicit Types (o : list (string * A)) (k : string).

Lemma obj_get_set_eq k v o : obj_get k (obj_set k v o) = Some v.
Proof.
  induction o as [|[k' v'] o IH]; simpl.
  - now rewrite String.eqb_refl.
  - destruct (String.eqb k k') eqn:E; simpl; rewrite E; auto.
Qed.

Lemma obj_get_set_ne k k' v o : k <> k' -> obj_get k (obj_set k' v o) = obj_get k o.
Proof.
  intros Hne. induction o as [|[k0 v0] o IH]; simpl.
  - apply String.eqb_neq in Hne. now rewrite Hne.
  - destruct (String.eqb k' k0) eqn:E; simpl.
    + apply String.eqb_eq in E. subst k0.
      apply String.eqb_neq in Hne. now rewrite Hne.
    + now rewrite IH.
Qed.

Lemma obj_get_delete_eq k o : obj_get k (obj_delete k o) = None.
Proof.
  induction o as [|[k' v'] o IH]; simpl; auto.
  destruct (String.eqb k k') eqn:E; simpl; auto. now rewrite E.
Qed.

Lemma obj_get_delete_ne k k' o : k <> k' -> obj_get k (obj_delete k' o) = obj_get k o.
Proof.
  intros Hne. induction o as [|[k0 v0] o IH]; simpl; auto.
  destruct (String.eqb k' k0) eqn:E; simpl.
  - apply String.eqb_eq in E. subst k0.
    apply String.eqb_neq in Hne. now rewrite Hne.
  - now rewrite IH.
Qed.

Lemma obj_get_None_notin k o : obj_get k o = None -> ~ In k (map fst o).
Proof.
  induction o as [|[k' v'] o IH]; simpl; [tauto|].
  destruct (String.eqb k k') eqn:E; [discriminate|].
  intros H [H1|H1]; [|now apply IH].
  subst k'. now rewrite String.eqb_refl in E.
Qed.

Lemma obj_get_Some_in k v o : obj_get k o = Some v -> In (k, v) o.
Proof.
  induction o as [|[k' v'] o IH]; simpl; [discriminate|].
  destruct (String.eqb k k') eqn:E.
  - apply String.eqb_eq in E. intros [= ->]. left. now subst.
  - intros H. right. now apply IH.
Qed.
End ObjFacts.

(** ** The heap *)

Lemma bind_Ok_r r : r >>= Ok = r.
Proof. now destruct r. Qed.

Lemma lookup_upd_eq n f s nd :
  heap s !! n = Some nd -> heap (upd n f s) !! n = Some (f nd).
Proof. intros H. simpl. rewrite list_lookup_alter_eq, H. reflexivity. Qed.

Lemma lookup_upd_ne n m f s : n <> m -> heap (upd n f s) !! m = heap s !! m.
Proof. intros H. simpl. now apply list_lookup_alter_ne. Qed.

Lemma upd_id n f s nd : heap s !! n = Some nd -> f nd = nd -> upd n f s = s.
Proof.
  intros H Hf. destruct s as [h t]. unfold upd. simpl in *. f_equal.
  apply list_eq. intros i. destruct (decide (n = i)) as [->|Hne].
  - rewrite list_lookup_alter_eq, H. simpl. now rewrite Hf.
  - now rewrite list_lookup_alter_ne.
Qed.

(** ** The generated setter *)



(** ** [Get] *)

Lemma own_data_fold nd options k ks d :
  obj_get k (fold_left (own_step nd options) ks d)
  = if existsb (String.eqb k) ks && (acl_Get nd k && sparse_keeps options (prop_value nd k))
    then Some (DVal (prop_value nd k)) else obj_get k d.
Proof.
  revert d. induction ks as [|k0 ks IH]; intros d; simpl; [reflexivity|].
  rewrite IH. clear IH. unfold own_step.
  destruct (String.eqb k k0) eqn:E; simpl.
  - apply String.eqb_eq in E. subst k0.
    destruct (acl_Get nd k && sparse_keeps options (prop_value nd k)) eqn:Hp.
    + apply andb_prop in Hp as [-> ->]. rewrite obj_get_set_eq.
      now destruct (existsb _ ks).
    + rewrite andb_false_r.
      destruct (acl_Get nd k); [|reflexivity]. simpl in Hp. now rewrite Hp.
  - apply String.eqb_neq in E.
    destruct (existsb (String.eqb k) ks && _); [reflexivity|].
    destruct (acl_Get nd k0); [|reflexivity].
    destruct (sparse_keeps options (prop_value nd k0)); [|reflexivity].
    now apply obj_get_set_ne.
Qed.

Lemma existsb_eqb_In k ks : In k ks -> existsb (String.eqb k) ks = true.
Proof.
  intros H. apply existsb_exists. exists k. split; [assumption|apply String.eqb_refl].
Qed.

Lemma own_data_get nd options k :
  In k (map fst (_properties nd)) ->
  obj_get k (own_data nd options)
  = if acl_Get nd k && sparse_keeps options (prop_value nd k)
    then Some (DVal (prop_value nd k)) else None.
Proof.
  intros H. unfold own_data. rewrite own_data_fold, (existsb_eqb_In _ _ H). reflexivity.
Qed.

(** The second loop of [Get], as a function of the results for the children. *)
Definition children_loop (rec : nat -> option (list (string * data))) (s : state) :=
  fix children (cs : list (string * nat)) (d : list (string * data))
    : option (list (string * data)) :=
    match cs with
    | [] => Some d
    | (k, c) :: cs' =>
        if negb (hidden s c) then
          match rec c with
          | Some r => children cs' (obj_set k (DObj r) d)
          | None => None
          end
        else children cs' d
    end.

Lemma Get_fuel_unfold fuel s n options :
  Get_fuel (S fuel) s n options
  = match heap s !! n with
    | None => None
    | Some nd =>
        children_loop (fun c => Get_fuel fuel s c options) s (_controls nd)
          (own_data nd options)
    end.
Proof. reflexivity. Qed.

Lemma children_loop_total rec s cs d :
  (forall k c, In (k, c) cs -> is_Some (rec c)) ->
  is_Some (children_loop rec s cs d).
Proof.
  revert d. induction cs as [|[k c] cs IH]; intros d H; simpl; [eauto|].
  destruct (negb (hidden s c)).
  - destruct (H k c) as [r Hr]; [now left|]. rewrite Hr.
    apply IH. intros; eapply H; right; eauto.
  - apply IH. intros; eapply H; right; eauto.
Qed.

Lemma children_loop_other rec s cs d r k :
  (forall c, In (k, c) cs -> hidden s c = true) ->
  children_loop rec s cs d = Some r ->
  obj_get k r = obj_get k d.
Proof.
  revert d. induction cs as [|[k' c] cs IH]; intros d H; simpl.
  - now intros [= ->].
  - destruct (hidden s c) eqn:Hh; simpl.
    + apply IH. intros; apply H; now right.
    + destruct (rec c) as [rc|]; [|discriminate].
      intros Hr. rewrite (IH _ (fun c0 Hc0 => H c0 (or_intror Hc0)) Hr).
      apply obj_get_set_ne. intros ->.
      rewrite (H c) in Hh; [discriminate|now left].
Qed.

(** With children allocated above their parent, [Get] returns. *)
Lemma Get_fuel_total s options :
  children_above s ->
  forall fuel n, n < length (heap s) -> length (heap s) - n <= fuel ->
                 is_Some (Get_fuel fuel s n options).
Proof.
  intros Hwf. induction fuel as [|fuel IH]; intros n Hn Hf; [lia|].
  rewrite Get_fuel_unfold.
  destruct (lookup_lt_is_Some_2 (heap s) n Hn) as [nd Hnd]. rewrite Hnd.
  apply children_loop_total. intros k c Hin.
  destruct (Hwf n nd k c Hnd Hin). apply IH; lia.
Qed.

Lemma Get_total s n options :
  children_above s -> n < length (heap s) -> is_Some (Get s n options).
Proof. intros Hwf Hn. apply Get_fuel_total; auto; lia. Qed.

(** C1. [SetAccess(p, {Get: 'public'})] does not behave like the default:
    [Get] compares the whole entry, not its [Get] member, with ['public'],
    so it drops [windows] of [room1], which it returns when there is no
    entry; [NotifyProperty] still reports the property. *)
Theorem Get_drops_property_with_public_Get_channel :
  Get demo_state 2 default_options
  = Some [("controlType", DVal (JStr "room")); ("doors", DVal (JNum 1));
          ("windows", DVal (JNum 2))]
  /\ Get demo_public 2 default_options
     = Some [("controlType", DVal (JStr "room")); ("doors", DVal (JNum 1))]
  /\ (exists nd, heap demo_public !! 2 = Some nd
                 /\ acl_entry nd "windows" = obj 5 [("Get", JStr "public")]
                 /\ notify_delta demo_public 2 nd (Single "windows")
                    = [("windows", DVal (JNum 2))]).
Proof.
  split; [reflexivity|]. split; [reflexivity|].
  eexists. split; [reflexivity|]. split; reflexivity.
Qed.

(** Any plain object with a truthy [Get] member closes the [Get] channel of
    [Get], whatever that member is. *)
Lemma acl_Get_object nd k r fs :
  acl_entry nd k = JObj KObject r fs ->
  truthy (member (JObj KObject r fs) "Get") = true ->
  acl_Get nd k = false.
Proof.
  intros He Ht. unfold acl_Get. rewrite He, Ht. reflexivity.
Qed.

Lemma acl_Get_absent nd k : obj_get k (_acl nd) = None -> acl_Get nd k = true.
Proof. intros H. unfold acl_Get, acl_entry. rewrite H. reflexivity. Qed.

(** The counterexample to C4 as stated: [windows] holds the number 0, the
    [Get] channel admits it, and the sparse [Get] leaves it out. *)
Lemma Get_sparse_omits_zero :
  exists nd r,
    heap demo_zero !! 2 = Some nd
    /\ prop_value nd "windows" = JNum 0
    /\ prop_value nd "windows" <> JStr ""
    /\ acl_Get nd "windows" = true
    /\ Get demo_zero 2 default_options = Some r
    /\ obj_get "windows" r = None.
Proof.
  do 2 eexists. split; [reflexivity|]. split; [reflexivity|].
  split; [discriminate|]. split; [reflexivity|]. split; reflexivity.
Qed.

(** C4, amended. For a property admitted by the [Get] channel and not
    shadowed by a visible child of the same name, the sparse [Get] omits
    it exactly when its value is loosely equal ([==]) to the empty string,
    and the non-sparse [Get] always returns it. *)
Theorem Get_sparse_filter (s : state) (n : nat) (nd : node) (k : string)
    (options : get_options) :
  children_above s ->
  heap s !! n = Some nd ->
  In k (map fst (_properties nd)) ->
  acl_Get nd k = true ->
  (forall c, In (k, c) (_controls nd) -> hidden s c = true) ->
  exists r,
    Get s n options = Some r
    /\ obj_get k r
       = if truthy (sparse options) && loose_eq (prop_value nd k) (JStr "")
         then None else Some (DVal (prop_value nd k)).
Proof.
  intros Hwf Hn Hk Hacl Hch.
  destruct (Get_total s n options Hwf) as [r Hr].
  { apply lookup_lt_is_Some_1. eauto. }
  exists r. split; [assumption|].
  unfold Get in Hr. destruct (length (heap s)) as [|fuel]; [discriminate|].
  rewrite Get_fuel_unfold, Hn in Hr.
  rewrite (children_loop_other _ _ _ _ _ _ Hch Hr), (own_data_get _ _ _ Hk), Hacl.
  unfold sparse_keeps. simpl.
  destruct (truthy (sparse options)), (loose_eq (prop_value nd k) (JStr "")); reflexivity.
Qed.

Lemma Get_sparse_filter_witness :
  exists r,
    Get demo_zero 2 default_options = Some r
    /\ obj_get "windows" r
       = if truthy (sparse default_options) && loose_eq (JNum 0) (JStr "")
         then None else Some (DVal (JNum 0)).
Proof.
  apply (Get_sparse_filter demo_zero 2
           (mkNode [("controlType", Accessor); ("hideData", Accessor);
                    ("remove", Field JUndefined); ("doors", Accessor);
                    ("windows", Accessor)]
              "room1" []
              [("controlType", VJs (JStr "room")); ("hideData", VJs (JBool false));
               ("doors", VJs (JNum 1)); ("windows", VJs (JNum 0))]
              [] (Some 1) (Some 0) false [] [])
           "windows" default_options).
  - intros n nd k c Hn Hin.
    destruct n as [|[|[|n]]]; simpl in Hn; try discriminate;
      injection Hn as <-; simpl in Hin;
      repeat (destruct Hin as [Hin|Hin]; [injection Hin as <- <-; simpl; lia|]);
      destruct Hin.
  - reflexivity.
  - simpl. tauto.
  - reflexivity.
  - intros c [].
Defined.

(** ** Emission: what it logs and what it leaves alone *)

Lemma skeleton_upd_events n f s : skeleton (upd n (with_events f) s) = skeleton s.
Proof.
  unfold skeleton, upd. simpl. apply list_eq. intros i.
  rewrite !list_lookup_fmap. destruct (decide (n = i)) as [->|Hne].
  - rewrite list_lookup_alter_eq. now destruct (heap s !! i).
  - now rewrite list_lookup_alter_ne.
Qed.

Lemma skeleton_off n ev id s : skeleton (off n ev id s) = skeleton s.
Proof.
  unfold off. destruct (heap s !! n); [|reflexivity].
  destruct (obj_get ev (_events n0)); [|reflexivity]. apply skeleton_upd_events.
Qed.

Lemma skeleton_invoke p s l : skeleton (invoke p s l) = skeleton s.
Proof. destruct l; simpl; [reflexivity|apply skeleton_off]. Qed.

Lemma skeleton_fold_invoke p ls s : skeleton (fold_left (invoke p) ls s) = skeleton s.
Proof.
  revert s. induction ls as [|l ls IH]; intros s; simpl; [reflexivity|].
  now rewrite IH, skeleton_invoke.
Qed.

Lemma skeleton_super_emit n ev p s : skeleton (super_emit n ev p s) = skeleton s.
Proof. unfold super_emit. now rewrite skeleton_fold_invoke. Qed.

Lemma skeleton_lookup s s' n nd :
  skeleton s' = skeleton s -> heap s !! n = Some nd ->
  exists nd', heap s' !! n = Some nd' /\ erase nd' = erase nd.
Proof.
  intros Hsk Hn. assert (H : skeleton s' !! n = skeleton s !! n) by now rewrite Hsk.
  unfold skeleton in H. rewrite !list_lookup_fmap, Hn in H. simpl in H.
  destruct (heap s' !! n) as [nd'|]; [|discriminate].
  exists nd'. split; [reflexivity|]. simpl in H. congruence.
Qed.

Lemma erase_fields nd nd' :
  erase nd' = erase nd ->
  slots nd' = slots nd /\ _controlName nd' = _controlName nd
  /\ _controls nd' = _controls nd /\ _properties nd' = _properties nd
  /\ _acl nd' = _acl nd /\ _parent nd' = _parent nd
  /\ _topLevelParent nd' = _topLevelParent nd /\ _bypassNotify nd' = _bypassNotify nd
  /\ _cls_ nd' = _cls_ nd.
Proof.
  destruct nd, nd'. unfold erase, with_events. simpl. intros [= -> -> -> -> -> -> -> -> ->].
  repeat split.
Qed.

Lemma length_skeleton s s' : skeleton s' = skeleton s -> length (heap s') = length (heap s).
Proof.
  intros H. apply (f_equal (@length node)) in H. unfold skeleton in H.
  now rewrite !length_map in H.
Qed.

Lemma trace_off n ev id s : trace (off n ev id s) = trace s.
Proof.
  unfold off. destruct (heap s !! n); [|reflexivity].
  now destruct (obj_get ev (_events n0)).
Qed.

Lemma trace_fold_invoke p ls s :
  exists cs, trace (fold_left (invoke p) ls s) = trace s ++ cs /\ Forall is_call cs.
Proof.
  revert s. induction ls as [|l ls IH]; intros s; simpl.
  - exists []. split; [now rewrite app_nil_r|constructor].
  - destruct (IH (invoke p s l)) as (cs & Hcs & Hall). destruct l; simpl in *.
    + exists (Called id p (heap s) :: cs). rewrite Hcs, <- app_assoc. split; [reflexivity|].
      constructor; [exact I|assumption].
    + exists cs. split; [now rewrite Hcs, trace_off|assumption].
Qed.

(** An emission logs itself and then only calls of listeners. *)
Lemma trace_super_emit n ev p s :
  exists cs, trace (super_emit n ev p s) = trace s ++ Emitted n ev p :: cs
             /\ Forall is_call cs.
Proof.
  unfold super_emit.
  destruct (trace_fold_invoke p (listeners s n ev) (log (Emitted n ev p) s)) as (cs & H & Hall).
  exists cs. simpl in H. split; [now rewrite H, <- app_assoc|assumption].
Qed.

Lemma upd_upd n f g s : upd n f (upd n g s) = upd n (fun nd => f (g nd)) s.
Proof.
  unfold upd. simpl. f_equal. apply list_eq. intros i.
  destruct (decide (n = i)) as [->|Hne].
  - rewrite !list_lookup_alter_eq. now destruct (heap s !! i).
  - now rewrite !list_lookup_alter_ne.
Qed.

(** [this.emit(name, data)], with the default scope, is the plain
    emission the methods of [dm] are written with. *)
Lemma emit_local n ev p s nd :
  heap s !! n = Some nd -> emit n ev p Local s = Ok (super_emit n ev p s).
Proof.
  intros Hn. unfold emit. pose proof (lookup_lt_Some _ _ _ Hn) as Hlt.
  destruct (length (heap s)) as [|fuel]; [lia|]. simpl. now rewrite Hn.
Qed.

(** ** [Set]: the [remove] key *)

Lemma Set_single require this kind r k v s :
  Set_ require this (JObj kind r [(k, v)]) s
  = Set_key require (fun c => Set_ require c v) this k v s.
Proof. simpl. apply bind_Ok_r. Qed.


(** On the container, which has no parent, the [remove] key raises. *)
Example Set_remove_on_root_throws :
  Set_ demo_require 0 (obj 9 [("remove", JBool true)]) demo_state = Throw demo_state.
Proof. reflexivity. Qed.



(** ** [Set]: writes to an observable property *)

Lemma is_settable_not_nullish v : is_settable v = true -> is_nullish v = false.
Proof. destruct v as [[]|]; simpl; try discriminate; reflexivity. Qed.

Lemma eqb_neq_false (a b : string) : a <> b -> String.eqb a b = false.
Proof. apply String.eqb_neq. Qed.




(** ** The [getter] channel *)

(** C10. When the access-control entry of a generated property sets the
    [getter] channel to ['none'], reading the property gives [undefined];
    [Set] then does not take the property branch for that key but goes on
    to the child and new-control branches (and does nothing when neither
    applies), and [NotifyProperty] leaves the property out of its delta. *)
Theorem getter_none_hides_property (require : string -> option cdecl) (this : nat)
    (nd : node) (kind : okind) (r : nat) (k : string) (v : jsval) (s : state) :
  heap s !! this = Some nd ->
  obj_get k (slots nd) = Some Accessor ->
  member (acl_entry nd k) "getter" = JStr "none" ->
  k <> "remove" ->
  get_prop s this k = JUndefined
  /\ Set_ require this (JObj kind r [(k, v)]) s
     = (if not_internal k && negb (String.eqb k "controlType") then
          match obj_get k (_controls nd) with
          | Some c => Set_ require c v s
          | None =>
              if negb (is_nullish v) && negb (is_nullish (member v "controlType"))
              then _createControl require (fun c => Set_ require c v) this v k s
              else Ok s
          end
        else Ok s)
  /\ notify_delta s this nd (Single k) = []
  /\ (forall ps, obj_get k (notify_delta s this nd (Many ps)) = None).
Proof.
  intros Hn Hslot Hacl Hrem.
  assert (Hg : acl_public nd k "getter" = false).
  { unfold acl_public. rewrite Hacl.
    destruct (acl_entry nd k) as [| | | | | |kd rf fs]; try discriminate Hacl. reflexivity. }
  assert (Hread : read_slot nd k = JUndefined).
  { unfold read_slot, getter. now rewrite Hslot, Hg. }
  assert (Hprop : get_prop s this k = JUndefined).
  { unfold get_prop. now rewrite Hn. }
  split; [assumption|]. split; [|split].
  - rewrite Set_single. unfold Set_key. rewrite Hn, (eqb_neq_false _ _ Hrem), Hread.
    reflexivity.
  - simpl. now rewrite Hprop.
  - intros ps. simpl.
    assert (H : forall d, obj_get k d = None ->
              obj_get k
                (fold_left (fun d p =>
                              if acl_public nd p "Get" then
                                if negb (is_nullish (get_prop s this p))
                                then obj_set p (DVal (get_prop s this p)) d else d
                              else d) ps d) = None).
    { induction ps as [|p ps IH]; intros d Hd; simpl; [assumption|].
      apply IH. destruct (acl_public nd p "Get"); [|assumption].
      destruct (is_nullish (get_prop s this p)) eqn:Hnl; simpl; [assumption|].
      rewrite obj_get_set_ne; [assumption|]. intros ->.
      rewrite Hprop in Hnl. discriminate. }
    now apply H.
Qed.

Lemma getter_none_hides_property_witness :
  exists nd,
    heap demo_nogetter !! 2 = Some nd
    /\ get_prop demo_nogetter 2 "windows" = JUndefined
    /\ Set_ demo_require 2 (obj 9 [("windows", JNum 9)]) demo_nogetter = Ok demo_nogetter
    /\ notify_delta demo_nogetter 2 nd (Single "windows") = [].
Proof.
  eexists. split; [reflexivity|].
  destruct (getter_none_hides_property demo_require 2 _ KObject 9 "windows" (JNum 9)
              demo_nogetter eq_refl eq_refl eq_refl) as (H1 & H2 & H3 & _).
  { discriminate. }
  split; [exact H1|]. split; [exact H2|exact H3].
Defined.

(** ** Well-formed heaps, by computation *)

Lemma check_from_spec P h : forall i,
  check_from i P h = true -> forall n nd, h !! n = Some nd -> P (i + n) nd = true.
Proof.
  induction h as [|x h IH]; intros i H n nd Hn; [discriminate|].
  simpl in H. apply andb_prop in H as [H1 H2]. destruct n as [|n]; simpl in Hn.
  - injection Hn as <-. now rewrite Nat.add_0_r.
  - rewrite Nat.add_succ_r. apply (IH (S i)); assumption.
Qed.

Lemma parents_below_b_spec s : parents_below_b s = true -> parents_below s.
Proof.
  intros H n nd p Hn Hp.
  pose proof (check_from_spec _ _ 0 H n nd Hn) as Hc. simpl in Hc.
  rewrite Hp in Hc. now apply Nat.ltb_lt.
Qed.

Lemma children_above_b_spec s : children_above_b s = true -> children_above s.
Proof.
  intros H n nd k c Hn Hin.
  pose proof (check_from_spec _ _ 0 H n nd Hn) as Hc. simpl in Hc.
  rewrite forallb_forall in Hc. specialize (Hc (k, c) Hin). simpl in Hc.
  apply andb_prop in Hc as [H1 H2]. apply Nat.ltb_lt in H1, H2. lia.
Qed.

(** ** The log only grows *)

Definition grows (s s' : state) : Prop := exists es, trace s' = trace s ++ es.

Lemma grows_refl s : grows s s.
Proof. exists []. now rewrite app_nil_r. Qed.

Lemma grows_trans s1 s2 s3 : grows s1 s2 -> grows s2 s3 -> grows s1 s3.
Proof. intros [e1 H1] [e2 H2]. exists (e1 ++ e2). now rewrite H2, H1, app_assoc. Qed.

Lemma grows_same s s' : trace s' = trace s -> grows s s'.
Proof. intros H. exists []. now rewrite app_nil_r. Qed.

Lemma grows_super_emit n ev p s : grows s (super_emit n ev p s).
Proof. destruct (trace_super_emit n ev p s) as (cs & H & _). eexists. exact H. Qed.

Lemma emitted_grows s s' e : emitted s s' e -> grows s s'.
Proof. intros (es & H & _). now exists es. Qed.

Lemma emitted_super_emit n ev p s : emitted s (super_emit n ev p s) (Emitted n ev p).
Proof.
  destruct (trace_super_emit n ev p s) as (cs & H & _).
  eexists. split; [exact H|now left].
Qed.

Lemma emitted_before s1 s2 s3 e : emitted s1 s2 e -> grows s2 s3 -> emitted s1 s3 e.
Proof.
  intros (e1 & H1 & Hin) [e2 H2]. exists (e1 ++ e2).
  split; [now rewrite H2, H1, app_assoc|]. apply in_or_app. now left.
Qed.

Lemma emitted_after s1 s2 s3 e : grows s1 s2 -> emitted s2 s3 e -> emitted s1 s3 e.
Proof.
  intros [e1 H1] (e2 & H2 & Hin). exists (e1 ++ e2).
  split; [now rewrite H2, H1, app_assoc|]. apply in_or_app. now right.
Qed.

Lemma emitted_split s1 s2 s3 e :
  grows s1 s2 -> grows s2 s3 -> emitted s1 s3 e -> emitted s1 s2 e \/ emitted s2 s3 e.
Proof.
  intros [e1 H1] [e2 H2] (es & H & Hin).
  rewrite H2, H1, <- app_assoc in H. apply app_inv_head in H. subst es.
  apply in_app_or in Hin as [Hin|Hin]; [left; now exists e1|right; now exists e2].
Qed.

Lemma emitted_same s s' e : trace s' = trace s -> ~ emitted s s' e.
Proof.
  intros H (es & He & Hin). rewrite H in He.
  rewrite <- (app_nil_r (trace s)) in He at 1. apply app_inv_head in He. now subst es.
Qed.

(** The only emission of [super.emit] is the event itself. *)
Lemma emitted_super_emit_inv n ev p s m ev' p' :
  emitted s (super_emit n ev p s) (Emitted m ev' p') -> m = n /\ ev' = ev /\ p' = p.
Proof.
  intros (es & H & Hin). destruct (trace_super_emit n ev p s) as (cs & Hcs & Hall).
  rewrite Hcs in H. apply app_inv_head in H. subst es. destruct Hin as [Hin|Hin].
  - now injection Hin as -> -> ->.
  - rewrite List.Forall_forall in Hall. destruct (Hall _ Hin).
Qed.

(** ** The notification router *)

Lemma _notify_fuel_S fuel n delta s :
  _notify_fuel (S fuel) n delta s
  = match heap s !! n with
    | None => Throw s
    | Some nd =>
        (match _parent nd with
         | Some p =>
             if negb (hidden s n)
             then _notify_fuel fuel p (DObj [(_controlName nd, delta)]) s
             else Ok s
         | None => Ok s
         end) >>= fun s1 => Ok (super_emit n "data" delta s1)
    end.
Proof. reflexivity. Qed.

Lemma read_slot_set_property_ne nd p v k :
  k <> p -> read_slot (with_properties (obj_set p v) nd) k = read_slot nd k.
Proof.
  intros Hne. unfold read_slot, getter, prop_value. simpl.
  change (acl_public (with_properties (obj_set p v) nd) k "getter")
    with (acl_public nd k "getter").
  now rewrite obj_get_set_ne.
Qed.

Lemma hidden_upd_ne n f s m : n <> m -> hidden (upd n f s) m = hidden s m.
Proof. intros H. unfold hidden, get_prop. now rewrite lookup_upd_ne. Qed.

Lemma hidden_set_property n nd p v s :
  heap s !! n = Some nd -> p <> "hideData" ->
  hidden (upd n (with_properties (obj_set p v)) s) n = hidden s n.
Proof.
  intros Hn Hp. unfold hidden, get_prop.
  rewrite (lookup_upd_eq _ _ _ _ Hn), Hn, read_slot_set_property_ne; [reflexivity|].
  congruence.
Qed.




(** ** Hidden controls *)

Lemma ancestor_lt s p n : parents_below s -> ancestor s p n -> p < n.
Proof.
  intros Hwf H. induction H as [n nd p Hn Hp|n nd p q Hn Hp _ IH].
  - exact (Hwf _ _ _ Hn Hp).
  - pose proof (Hwf _ _ _ Hn Hp). lia.
Qed.

Lemma ancestor_parent_inv s a x nd q :
  ancestor s a x -> heap s !! x = Some nd -> _parent nd = Some q ->
  q = a \/ ancestor s a q.
Proof.
  intros H Hx Hq. inversion H as [n nd' p Hn Hp|n nd' p q' Hn Hp Hanc]; subst.
  - left. congruence.
  - right. assert (p = q) by congruence. now subst.
Qed.

Lemma lookup_upd n f s m :
  heap (upd n f s) !! m = if decide (n = m) then f <$> heap s !! m else heap s !! m.
Proof.
  destruct (decide (n = m)) as [->|Hne].
  - unfold upd. simpl. apply list_lookup_alter_eq.
  - now apply lookup_upd_ne.
Qed.

Lemma parents_below_upd n f s :
  (forall nd, _parent (f nd) = _parent nd) -> parents_below s -> parents_below (upd n f s).
Proof.
  intros Hf Hwf m nd p Hm Hp. rewrite lookup_upd in Hm.
  destruct (decide (n = m)) as [->|Hne]; [|now apply (Hwf m nd p)].
  destruct (heap s !! m) as [nd0|] eqn:H0; [|discriminate]. simpl in Hm.
  injection Hm as <-. rewrite Hf in Hp. now apply (Hwf m nd0 p).
Qed.

Lemma ancestor_upd n f s a x :
  (forall nd, _parent (f nd) = _parent nd) -> ancestor s a x -> ancestor (upd n f s) a x.
Proof.
  intros Hf H. induction H as [m nd p Hm Hp|m nd p q Hm Hp _ IH].
  - destruct (decide (n = m)) as [->|Hne].
    + apply (ancestor_parent _ m (f nd) p); [now apply lookup_upd_eq|now rewrite Hf].
    + apply (ancestor_parent _ m nd p); [now rewrite lookup_upd_ne|assumption].
  - destruct (decide (n = m)) as [->|Hne].
    + apply (ancestor_step _ m (f nd) p q);
        [now apply lookup_upd_eq|now rewrite Hf|assumption].
    + apply (ancestor_step _ m nd p q); [now rewrite lookup_upd_ne|assumption|assumption].
Qed.

Lemma emitted_traces s0 s s' s'' e :
  trace s0 = trace s -> trace s'' = trace s' -> emitted s s' e -> emitted s0 s'' e.
Proof. intros H0 H1 (es & H & Hin). exists es. now rewrite H0, H1. Qed.

Lemma _notify_fuel_grows fuel : forall n delta s s',
  _notify_fuel fuel n delta s = Ok s' -> grows s s'.
Proof.
  induction fuel as [|fuel IH]; intros n delta s s' H; [discriminate|].
  rewrite _notify_fuel_S in H. destruct (heap s !! n) as [nd|]; [|discriminate].
  destruct (match _parent nd with
            | Some p => if negb (hidden s n)
                        then _notify_fuel fuel p (DObj [(_controlName nd, delta)]) s
                        else Ok s
            | None => Ok s
            end) as [s1| |] eqn:Hup; simpl in H; try discriminate.
  injection H as <-. apply (grows_trans _ s1); [|apply grows_super_emit].
  destruct (_parent nd) as [p|]; [|injection Hup as <-; apply grows_refl].
  destruct (negb (hidden s n)); [now apply IH in Hup|injection Hup as <-; apply grows_refl].
Qed.

(** A notification from inside the subtree of a hidden control [a] stays
    at or below [a]. *)
Lemma _notify_fuel_within s a :
  parents_below s -> hidden s a = true ->
  forall fuel x delta s',
    x = a \/ ancestor s a x ->
    _notify_fuel fuel x delta s = Ok s' ->
    forall m ev p, emitted s s' (Emitted m ev p) -> a <= m.
Proof.
  intros Hwf Hha. induction fuel as [|fuel IH]; intros x delta s' Hx H m ev p Hem;
    [discriminate|].
  assert (Hax : a <= x).
  { destruct Hx as [->|Hx]; [lia|]. pose proof (ancestor_lt _ _ _ Hwf Hx). lia. }
  rewrite _notify_fuel_S in H. destruct (heap s !! x) as [nd|] eqn:Hnd; [|discriminate].
  destruct (match _parent nd with
            | Some p => if negb (hidden s x)
                        then _notify_fuel fuel p (DObj [(_controlName nd, delta)]) s
                        else Ok s
            | None => Ok s
            end) as [s1| |] eqn:Hup; simpl in H; try discriminate.
  injection H as <-.
  assert (Hlocal : emitted s1 (super_emit x "data" delta s1) (Emitted m ev p) -> a <= m).
  { intros He. apply emitted_super_emit_inv in He as (-> & _ & _). exact Hax. }
  destruct (_parent nd) as [q|] eqn:Hq.
  - destruct (hidden s x) eqn:Hhx; simpl in Hup.
    + injection Hup as <-. auto.
    + assert (Hq' : q = a \/ ancestor s a q).
      { destruct Hx as [->|Hx]; [congruence|]. eapply ancestor_parent_inv; eauto. }
      destruct (emitted_split s s1 _ _ (_notify_fuel_grows _ _ _ _ _ Hup)
                  (grows_super_emit _ _ _ _) Hem) as [He|He]; [|auto].
      eapply IH; eauto.
  - injection Hup as <-. auto.
Qed.

(** With parents allocated before their children, a notification returns,
    and it emits ['data'] locally. *)
Lemma _notify_fuel_total s :
  parents_below s ->
  forall fuel n delta, n < fuel -> n < length (heap s) ->
    exists s', _notify_fuel fuel n delta s = Ok s'
               /\ emitted s s' (Emitted n "data" delta).
Proof.
  intros Hwf. induction fuel as [|fuel IH]; intros n delta Hf Hn; [lia|].
  rewrite _notify_fuel_S.
  destruct (lookup_lt_is_Some_2 _ _ Hn) as [nd Hnd]. rewrite Hnd.
  destruct (_parent nd) as [q|] eqn:Hq.
  - pose proof (Hwf _ _ _ Hnd Hq) as Hlt. destruct (negb (hidden s n)).
    + destruct (IH q (DObj [(_controlName nd, delta)])) as (s1 & H1 & He1); [lia|lia|].
      rewrite H1. simpl. eexists. split; [reflexivity|].
      eapply emitted_after; [eapply emitted_grows; eauto|apply emitted_super_emit].
    + simpl. eexists. split; [reflexivity|apply emitted_super_emit].
  - simpl. eexists. split; [reflexivity|apply emitted_super_emit].
Qed.

Lemma put_prop_within s a x p v s' :
  parents_below s -> hidden s a = true ->
  x = a \/ ancestor s a x ->
  (x = a -> p <> "hideData") ->
  put_prop x p v s = Ok s' ->
  forall m ev pl, emitted s s' (Emitted m ev pl) -> a <= m.
Proof.
  intros Hwf Hha Hx Hp H m ev pl Hem.
  assert (Hax : a <= x).
  { destruct Hx as [->|Hx]; [lia|]. pose proof (ancestor_lt _ _ _ Hwf Hx). lia. }
  unfold put_prop in H. destruct (heap s !! x) as [nd|] eqn:Hnd; [|discriminate].
  destruct (obj_get p (slots nd)) as [[|fv]|];
    try (injection H as <-; now apply emitted_same in Hem).
  unfold setter in H. rewrite Hnd in H.
  destruct (loose_eq (prop_value nd p) v); simpl in H;
    [injection H as <-; now apply emitted_same in Hem|].
  destruct (acl_public nd p "setter"); simpl in H;
    [|injection H as <-; now apply emitted_same in Hem].
  set (s1 := upd x (with_properties (obj_set p v)) s) in *.
  destruct (_bypassNotify nd); simpl in H.
  - injection H as <-.
    apply (emitted_traces (upd x (with_bypass false) s1) _ _
             (super_emit x p (DVal v) (upd x (with_bypass false) s1))) in Hem;
      [|reflexivity|reflexivity].
    apply emitted_super_emit_inv in Hem as (-> & _ & _). exact Hax.
  - assert (Hnd1 : heap s1 !! x = Some (with_properties (obj_set p v) nd))
      by now apply lookup_upd_eq.
    unfold NotifyProperty in H. rewrite Hnd1 in H. unfold _notify in H.
    destruct (_notify_fuel _ x _ s1) as [s2| |] eqn:Hrun; simpl in H; try discriminate.
    injection H as <-.
    apply (emitted_traces s1 _ _ (super_emit x p (DVal v) s2)) in Hem;
      [|reflexivity|reflexivity].
    destruct (emitted_split s1 s2 _ _ (_notify_fuel_grows _ _ _ _ _ Hrun)
                (grows_super_emit _ _ _ _) Hem) as [He|He].
    + eapply (_notify_fuel_within s1 a); [| | |exact Hrun|exact He].
      * now apply parents_below_upd.
      * destruct (decide (x = a)) as [->|Hne].
        -- unfold s1. rewrite (hidden_set_property _ _ _ _ _ Hnd); auto.
        -- unfold s1. now rewrite hidden_upd_ne.
      * destruct Hx as [->|Hx]; [now left|right]. now apply ancestor_upd.
    + apply emitted_super_emit_inv in He as (-> & _ & _). exact Hax.
Qed.

Lemma put_prop_local_data s x nd p v :
  parents_below s ->
  heap s !! x = Some nd ->
  obj_get p (slots nd) = Some Accessor ->
  loose_eq (prop_value nd p) v = false ->
  acl_public nd p "setter" = true ->
  _bypassNotify nd = false ->
  exists s' delta, put_prop x p v s = Ok s' /\ emitted s s' (Emitted x "data" delta).
Proof.
  intros Hwf Hnd Hslot Hneq Hsetter Hby.
  set (s1 := upd x (with_properties (obj_set p v)) s).
  assert (Hnd1 : heap s1 !! x = Some (with_properties (obj_set p v) nd))
    by now apply lookup_upd_eq.
  destruct (_notify_fuel_total s1
              (parents_below_upd x (with_properties (obj_set p v)) s (fun _ => eq_refl) Hwf)
              (length (heap s1)) x
              (DObj (notify_delta s1 x (with_properties (obj_set p v) nd) (Single p))))
    as (s2 & Hrun & Hem).
  { apply (lookup_lt_Some _ _ _ Hnd1). }
  { apply (lookup_lt_Some _ _ _ Hnd1). }
  do 2 eexists. split.
  - unfold put_prop. rewrite Hnd, Hslot. unfold setter. rewrite Hnd, Hneq, Hsetter, Hby.
    simpl. fold s1. unfold NotifyProperty, _notify. rewrite Hnd1, Hrun. reflexivity.
  - apply (emitted_traces _ s1 (super_emit x p (DVal v) s2) _);
      [reflexivity|reflexivity|].
    eapply emitted_before; [exact Hem|apply grows_super_emit].
Qed.

Lemma children_loop_ext rec rec' s s' cs : forall d,
  (forall c, rec c = rec' c) -> (forall c, hidden s c = hidden s' c) ->
  children_loop rec s cs d = children_loop rec' s' cs d.
Proof.
  induction cs as [|[k c] cs IH]; intros d Hrec Hh; simpl; [reflexivity|].
  rewrite <- Hh, <- Hrec. destruct (negb (hidden s c)); [|now apply IH].
  destruct (rec c); [now apply IH|reflexivity].
Qed.

Lemma children_loop_filter rec s a cs : forall d,
  hidden s a = true ->
  children_loop rec s (List.filter (fun kc => negb (snd kc =? a)%nat) cs) d
  = children_loop rec s cs d.
Proof.
  induction cs as [|[k c] cs IH]; intros d Hh; [reflexivity|].
  cbn [List.filter snd]. destruct (c =? a)%nat eqn:E; cbn [negb].
  - apply Nat.eqb_eq in E. subst c. cbn [children_loop]. rewrite Hh. cbn [negb].
    now apply IH.
  - cbn [children_loop]. destruct (negb (hidden s c)); [|now apply IH].
    destruct (rec c); [now apply IH|reflexivity].
Qed.

Lemma hidden_cut par a s c : hidden (cut par a s) c = hidden s c.
Proof.
  unfold hidden, get_prop, cut. rewrite lookup_upd.
  destruct (decide (par = c)) as [->|]; [|reflexivity].
  now destruct (heap s !! c).
Qed.

Lemma Get_fuel_cut par a s options :
  hidden s a = true ->
  forall fuel r, Get_fuel fuel (cut par a s) r options = Get_fuel fuel s r options.
Proof.
  intros Hh. induction fuel as [|fuel IH]; intros r; [reflexivity|].
  rewrite !Get_fuel_unfold. unfold cut at 1. rewrite lookup_upd.
  destruct (decide (par = r)) as [->|Hne].
  - destruct (heap s !! r) as [nd|]; [|reflexivity]. cbn [fmap option_fmap option_map].
    change (own_data (with_controls _ nd) options) with (own_data nd options).
    cbn [_controls with_controls].
    rewrite (children_loop_ext _ (fun c => Get_fuel fuel s c options) _ s);
      [|assumption|apply hidden_cut].
    now apply children_loop_filter.
  - destruct (heap s !! r) as [nd|]; [|reflexivity].
    apply children_loop_ext; [assumption|apply hidden_cut].
Qed.

Lemma NotifyProperty_within s a x ns s' :
  parents_below s -> hidden s a = true ->
  x = a \/ ancestor s a x ->
  NotifyProperty x ns s = Ok s' ->
  forall m ev pl, emitted s s' (Emitted m ev pl) -> a <= m.
Proof.
  intros Hwf Hh Hx H. unfold NotifyProperty in H.
  destruct (heap s !! x) as [nd|]; [|discriminate]. unfold _notify in H.
  eapply _notify_fuel_within; eauto.
Qed.



(** With [house1] hidden, a write to [room1.windows] is seen on [room1]
    and on [house1], not on the container, whose [Get] is empty. *)
Example hidden_house :
  trace (state_of (put_prop 2 "windows" (JNum 5) demo_hidden))
  = [Emitted 1 "data" (DObj [("room1", DObj [("windows", DVal (JNum 5))])]);
     Emitted 2 "data" (DObj [("windows", DVal (JNum 5))]);
     Emitted 2 "windows" (DVal (JNum 5))]
  /\ Get demo_hidden 0 default_options = Some [].
Proof. split; reflexivity. Qed.

(** ** Listeners and removal *)

Lemma listener_eqb_eq a b : listener_eqb a b = true <-> a = b.
Proof.
  destruct a as [i|t e i], b as [j|t' e' j]; simpl; split; try discriminate.
  - intros H. apply Nat.eqb_eq in H. now subst.
  - intros [= ->]. apply Nat.eqb_refl.
  - intros H. apply andb_prop in H as [H H3]. apply andb_prop in H as [H1 H2].
    apply Nat.eqb_eq in H1, H3. apply String.eqb_eq in H2. now subst.
  - intros [= -> -> ->]. now rewrite !Nat.eqb_refl, String.eqb_refl.
Qed.

Lemma listener_eqb_refl a : listener_eqb a a = true.
Proof. now apply listener_eqb_eq. Qed.

Lemma listener_eqb_neq a b : a <> b -> listener_eqb a b = false.
Proof.
  intros H. destruct (listener_eqb a b) eqn:E; [|reflexivity].
  apply listener_eqb_eq in E. contradiction.
Qed.

Lemma registrations_app l ls1 ls2 :
  registrations l (ls1 ++ ls2) = registrations l ls1 + registrations l ls2.
Proof. unfold registrations. now rewrite List.filter_app, List.length_app. Qed.

Lemma registrations_rev l ls : registrations l (rev ls) = registrations l ls.
Proof. unfold registrations. now rewrite List.filter_rev, List.length_rev. Qed.

Lemma registrations_cons l x ls :
  registrations l (x :: ls)
  = if listener_eqb l x then S (registrations l ls) else registrations l ls.
Proof. unfold registrations. simpl. now destruct (listener_eqb l x). Qed.

Lemma registrations_remove_first l ls :
  registrations l (remove_first l ls) = registrations l ls - 1.
Proof.
  induction ls as [|x ls IH]; [reflexivity|]. simpl.
  rewrite !registrations_cons. destruct (listener_eqb l x) eqn:E.
  - lia.
  - now rewrite registrations_cons, E.
Qed.

Lemma registrations_remove_first_ne l l' ls :
  l <> l' -> registrations l' (remove_first l ls) = registrations l' ls.
Proof.
  intros Hne. induction ls as [|x ls IH]; [reflexivity|]. simpl.
  destruct (listener_eqb l x) eqn:E.
  - apply listener_eqb_eq in E. subst x.
    rewrite registrations_cons, listener_eqb_neq; [reflexivity|congruence].
  - now rewrite !registrations_cons, IH.
Qed.

Lemma registrations_remove_last l ls :
  registrations l (remove_last l ls) = registrations l ls - 1.
Proof.
  unfold remove_last.
  now rewrite registrations_rev, registrations_remove_first, registrations_rev.
Qed.

Lemma registrations_remove_last_ne l l' ls :
  l <> l' -> registrations l' (remove_last l ls) = registrations l' ls.
Proof.
  intros H. unfold remove_last.
  now rewrite registrations_rev, registrations_remove_first_ne, registrations_rev.
Qed.

Lemma registrations_zero l ls : registrations l ls = 0 -> ~ In l ls.
Proof.
  intros H Hin. unfold registrations in H.
  assert (Hf : In l (List.filter (listener_eqb l) ls)).
  { apply List.filter_In. split; [assumption|apply listener_eqb_refl]. }
  destruct (List.filter (listener_eqb l) ls); [destruct Hf|discriminate].
Qed.

Lemma listeners_upd n f s t ev :
  (forall nd, _events (f nd) = _events nd) ->
  listeners (upd n f s) t ev = listeners s t ev.
Proof.
  intros Hf. unfold listeners. rewrite lookup_upd.
  destruct (decide (n = t)) as [->|]; [|reflexivity].
  destruct (heap s !! t); [|reflexivity]. simpl. now rewrite Hf.
Qed.

Lemma listeners_off t e i s t' e' :
  listeners (off t e i s) t' e'
  = if decide (t = t' /\ e = e') then remove_last (LUser i) (listeners s t e)
    else listeners s t' e'.
Proof.
  unfold off. destruct (heap s !! t) as [nd|] eqn:Hnd.
  - destruct (obj_get e (_events nd)) as [ls|] eqn:Hls.
    + unfold listeners at 1. rewrite lookup_upd.
      destruct (decide (t = t')) as [<-|Hne].
      * rewrite Hnd. simpl. destruct (decide (e = e')) as [<-|Hne].
        -- rewrite obj_get_set_eq. rewrite decide_True by auto.
           unfold listeners. now rewrite Hnd, Hls.
        -- rewrite obj_get_set_ne by congruence. rewrite decide_False by tauto.
           unfold listeners. now rewrite Hnd.
      * rewrite decide_False by tauto. reflexivity.
    + destruct (decide (t = t' /\ e = e')) as [[<- <-]|]; [|reflexivity].
      unfold listeners. now rewrite Hnd, Hls.
  - destruct (decide (t = t' /\ e = e')) as [[<- <-]|]; [|reflexivity].
    unfold listeners. now rewrite Hnd.
Qed.

(** Running the listeners [ls]: every auto-off closure for [(t, ev, id)]
    takes one registration of [id] out of the listeners of [t] for [ev]. *)
Lemma fold_invoke_registrations p t ev id : forall ls s,
  registrations (LUser id) (listeners (fold_left (invoke p) ls s) t ev)
  = registrations (LUser id) (listeners s t ev) - registrations (LAutoOff t ev id) ls.
Proof.
  induction ls as [|l ls IH]; intros s; simpl; [now rewrite Nat.sub_0_r|].
  rewrite IH, registrations_cons. destruct l as [j|t' e' j]; simpl.
  - reflexivity.
  - rewrite listeners_off. destruct (decide (t' = t /\ e' = ev)) as [[-> ->]|Hne].
    + rewrite Nat.eqb_refl, String.eqb_refl. simpl.
      destruct (id =? j)%nat eqn:E.
      * apply Nat.eqb_eq in E. subst j. rewrite registrations_remove_last. lia.
      * apply Nat.eqb_neq in E. rewrite registrations_remove_last_ne; [reflexivity|].
        congruence.
    + destruct ((t =? t')%nat && String.eqb ev e' && (id =? j)%nat) eqn:E; [|reflexivity].
      apply andb_prop in E as [E _]. apply andb_prop in E as [E1 E2].
      apply Nat.eqb_eq in E1. apply String.eqb_eq in E2. subst. tauto.
Qed.

Lemma fold_invoke_calls p : forall ls s id pl snap,
  emitted s (fold_left (invoke p) ls s) (Called id pl snap) ->
  In (LUser id) ls /\ map erase snap = skeleton s.
Proof.
  induction ls as [|l ls IH]; intros s id pl snap Hem; simpl in Hem.
  - now apply emitted_same in Hem.
  - assert (Hg1 : grows s (invoke p s l)).
    { destruct l; simpl; [now exists [Called id0 p (heap s)]|].
      apply grows_same, trace_off. }
    assert (Hg2 : grows (invoke p s l) (fold_left (invoke p) ls (invoke p s l))).
    { destruct (trace_fold_invoke p ls (invoke p s l)) as (cs & H & _). now exists cs. }
    destruct (emitted_split _ _ _ _ Hg1 Hg2 Hem) as [He|He].
    + destruct l as [j|t e j]; simpl in He.
      * destruct He as (es & H & Hin). simpl in H. apply app_inv_head in H. subst es.
        destruct Hin as [Hin|[]]. injection Hin as -> _ <-. split; [now left|reflexivity].
      * apply emitted_same in He; [destruct He|apply trace_off].
    + apply IH in He as [H1 H2]. split; [now right|]. now rewrite H2, skeleton_invoke.
Qed.

(** An emission calls registered listeners only, and each of them sees the
    heap as it was, listener tables apart. *)
Lemma super_emit_calls n ev p s id pl snap :
  emitted s (super_emit n ev p s) (Called id pl snap) ->
  In (LUser id) (listeners s n ev) /\ map erase snap = skeleton s.
Proof.
  intros Hem. unfold super_emit in Hem.
  assert (Hg1 : grows s (log (Emitted n ev p) s)) by now exists [Emitted n ev p].
  assert (Hg2 : grows (log (Emitted n ev p) s)
                  (fold_left (invoke p) (listeners s n ev) (log (Emitted n ev p) s))).
  { destruct (trace_fold_invoke p (listeners s n ev) (log (Emitted n ev p) s))
      as (cs & H & _). now exists cs. }
  destruct (emitted_split _ _ _ _ Hg1 Hg2 Hem) as [He|He].
  - destruct He as (es & H & Hin). simpl in H. apply app_inv_head in H. subst es.
    destruct Hin as [Hin|[]]. discriminate.
  - now apply fold_invoke_calls in He.
Qed.

(** [on] with a caller registers the listener and, on the caller, the
    closure that will remove it. *)
Lemma on_with_caller n ev id c s nd cd :
  heap s !! n = Some nd -> heap s !! c = Some cd -> n <> c \/ ev <> "remove" ->
  let s' := on n ev id (mkOn false (Some c)) s in
  listeners s' n ev = listeners s n ev ++ [LUser id]
  /\ listeners s' c "remove" = listeners s c "remove" ++ [LAutoOff n ev id].
Proof.
  intros Hn Hc Hne. unfold on. simpl.
  assert (Hadd : forall m e l s0 md,
             heap s0 !! m = Some md ->
             forall m' e', listeners (add_listener m e l s0) m' e'
                           = if decide (m = m' /\ e = e') then listeners s0 m e ++ [l]
                             else listeners s0 m' e').
  { intros m e l s0 md Hm m' e'. unfold add_listener, listeners. rewrite lookup_upd.
    destruct (decide (m = m')) as [<-|Hmm].
    - rewrite Hm. simpl. destruct (decide (e = e')) as [<-|Hee].
      + rewrite obj_get_set_eq, decide_True by auto. now destruct (obj_get e (_events md)).
      + rewrite obj_get_set_ne by congruence. now rewrite decide_False by tauto.
    - now rewrite decide_False by tauto. }
  assert (Hc1 : exists cd1, heap (add_listener n ev (LUser id) s) !! c = Some cd1).
  { unfold add_listener. rewrite lookup_upd. destruct (decide (n = c)) as [->|].
    - rewrite Hc. simpl. eauto.
    - eauto. }
  destruct Hc1 as [cd1 Hc1]. split.
  - rewrite (Hadd _ _ _ _ _ Hc1), decide_False by (intros [? ?]; destruct Hne; congruence).
    rewrite (Hadd _ _ _ _ _ Hn). now rewrite decide_True by auto.
  - rewrite (Hadd _ _ _ _ _ Hc1), decide_True by auto.
    rewrite (Hadd _ _ _ _ _ Hn). now rewrite decide_False by (intros [? ?]; destruct Hne; congruence).
Qed.



(** ** Idempotence of [Set] *)

(** *** Shapes *)

Lemma shape_fields nd nd' :
  shape nd' = shape nd ->
  slots nd' = slots nd /\ _controlName nd' = _controlName nd
  /\ _controls nd' = _controls nd /\ _properties nd' = _properties nd
  /\ _acl nd' = _acl nd /\ _parent nd' = _parent nd
  /\ _topLevelParent nd' = _topLevelParent nd.
Proof.
  destruct nd, nd'. unfold shape. simpl. intros [= -> -> -> -> -> -> ->]. repeat split.
Qed.

Lemma read_slot_shape nd nd' k : shape nd' = shape nd -> read_slot nd' k = read_slot nd k.
Proof.
  intros H. apply shape_fields in H as (Hs & _ & _ & Hp & Ha & _).
  unfold read_slot, getter, acl_public, acl_entry, prop_value. now rewrite Hs, Hp, Ha.
Qed.

Lemma acl_public_shape nd nd' k ch :
  shape nd' = shape nd -> acl_public nd' k ch = acl_public nd k ch.
Proof.
  intros H. apply shape_fields in H as (_ & _ & _ & _ & Ha & _).
  unfold acl_public, acl_entry. now rewrite Ha.
Qed.

Lemma acl_Get_shape nd nd' k : shape nd' = shape nd -> acl_Get nd' k = acl_Get nd k.
Proof.
  intros H. apply shape_fields in H as (_ & _ & _ & _ & Ha & _).
  unfold acl_Get, acl_entry. now rewrite Ha.
Qed.

Lemma prop_value_shape nd nd' k : shape nd' = shape nd -> prop_value nd' k = prop_value nd k.
Proof.
  intros H. apply shape_fields in H as (_ & _ & _ & Hp & _).
  unfold prop_value. now rewrite Hp.
Qed.

Lemma shape_of_lookup s s' x nd :
  shape_of s' = shape_of s -> heap s !! x = Some nd ->
  exists nd', heap s' !! x = Some nd' /\ shape nd' = shape nd.
Proof.
  intros Hsh Hx. assert (H : shape_of s' !! x = shape_of s !! x) by now rewrite Hsh.
  unfold shape_of in H. rewrite !list_lookup_fmap, Hx in H.
  destruct (heap s' !! x) as [nd'|]; [|discriminate].
  exists nd'. split; [reflexivity|]. simpl in H. congruence.
Qed.

Lemma shape_of_lookup_None s s' x :
  shape_of s' = shape_of s -> heap s !! x = None -> heap s' !! x = None.
Proof.
  intros Hsh Hx. assert (H : shape_of s' !! x = shape_of s !! x) by now rewrite Hsh.
  unfold shape_of in H. rewrite !list_lookup_fmap, Hx in H.
  now destruct (heap s' !! x).
Qed.

Lemma shape_of_upd n f s :
  (forall nd, shape (f nd) = shape nd) -> shape_of (upd n f s) = shape_of s.
Proof.
  intros Hf. unfold shape_of, upd. simpl. apply list_eq. intros i.
  rewrite !list_lookup_fmap. destruct (decide (n = i)) as [->|Hne].
  - rewrite list_lookup_alter_eq. destruct (heap s !! i); [|reflexivity].
    simpl. now rewrite Hf.
  - now rewrite list_lookup_alter_ne.
Qed.

Lemma shape_of_skeleton s s' : skeleton s' = skeleton s -> shape_of s' = shape_of s.
Proof.
  intros H. unfold shape_of.
  assert (E : forall h, map shape h = map shape (map erase h)).
  { intros h. rewrite List.map_map. apply List.map_ext. now intros []. }
  rewrite (E (heap s')), (E (heap s)). unfold skeleton in H. now rewrite H.
Qed.

Lemma shape_of_super_emit n ev p s : shape_of (super_emit n ev p s) = shape_of s.
Proof. apply shape_of_skeleton, skeleton_super_emit. Qed.

Lemma length_shape_of s s' : shape_of s' = shape_of s -> length (heap s') = length (heap s).
Proof.
  intros H. apply (f_equal (@length node)) in H. unfold shape_of in H.
  now rewrite !length_map in H.
Qed.

Lemma hidden_shape s s' c : shape_of s' = shape_of s -> hidden s' c = hidden s c.
Proof.
  intros H. unfold hidden, get_prop. destruct (heap s !! c) as [nd|] eqn:Hc.
  - destruct (shape_of_lookup _ _ _ _ H Hc) as (nd' & -> & Hsh).
    now rewrite (read_slot_shape _ _ _ Hsh).
  - now rewrite (shape_of_lookup_None _ _ _ H Hc).
Qed.

Lemma fold_left_pointwise {A B : Type} (f g : A -> B -> A) (l : list B) :
  (forall a b, f a b = g a b) -> forall a, fold_left f l a = fold_left g l a.
Proof.
  intros H. induction l as [|b l IH]; intros a; simpl; [reflexivity|].
  now rewrite H, IH.
Qed.

Lemma own_data_shape nd nd' options :
  shape nd' = shape nd -> own_data nd' options = own_data nd options.
Proof.
  intros H. unfold own_data.
  destruct (shape_fields _ _ H) as (_ & _ & _ & Hp & _). rewrite Hp.
  apply fold_left_pointwise. intros d k. unfold own_step.
  now rewrite (acl_Get_shape _ _ _ H), (prop_value_shape _ _ _ H).
Qed.

(** [Get] reads shapes only. *)
Lemma Get_fuel_shape s s' options :
  shape_of s' = shape_of s ->
  forall fuel r, Get_fuel fuel s' r options = Get_fuel fuel s r options.
Proof.
  intros H. induction fuel as [|fuel IH]; intros r; [reflexivity|].
  rewrite !Get_fuel_unfold. destruct (heap s !! r) as [nd|] eqn:Hr.
  - destruct (shape_of_lookup _ _ _ _ H Hr) as (nd' & -> & Hsh).
    rewrite (own_data_shape _ _ _ Hsh).
    destruct (shape_fields _ _ Hsh) as (_ & _ & -> & _).
    apply children_loop_ext; [assumption|]. intros c. now apply hidden_shape.
  - now rewrite (shape_of_lookup_None _ _ _ H Hr).
Qed.

Lemma Get_shape s s' r options :
  shape_of s' = shape_of s -> Get s' r options = Get s r options.
Proof.
  intros H. unfold Get. rewrite (length_shape_of _ _ H). now apply Get_fuel_shape.
Qed.

(** *** States with the same view *)

Lemma same_view_refl s : same_view s s.
Proof. split; reflexivity. Qed.

Lemma same_view_trans s1 s2 s3 : same_view s1 s2 -> same_view s2 s3 -> same_view s1 s3.
Proof. intros [H1 C1] [H2 C2]. split; [congruence|]. intros x. now rewrite C2, C1. Qed.

Lemma same_view_upd n f s :
  (forall nd, shape (f nd) = shape nd) -> (forall nd, _cls_ (f nd) = _cls_ nd) ->
  same_view s (upd n f s).
Proof.
  intros Hf Hc. split; [now apply shape_of_upd|]. intros x. rewrite lookup_upd.
  destruct (decide (n = x)) as [->|]; [|reflexivity].
  destruct (heap s !! x); [|reflexivity]. simpl. now rewrite Hc.
Qed.

Lemma same_view_upd_at n f s nd :
  heap s !! n = Some nd -> shape (f nd) = shape nd -> _cls_ (f nd) = _cls_ nd ->
  same_view s (upd n f s).
Proof.
  intros Hn Hf Hc. split.
  - unfold shape_of, upd. simpl. apply list_eq. intros i. rewrite !list_lookup_fmap.
    destruct (decide (n = i)) as [<-|Hne].
    + rewrite list_lookup_alter_eq, Hn. simpl. now rewrite Hf.
    + now rewrite list_lookup_alter_ne.
  - intros x. rewrite lookup_upd. destruct (decide (n = x)) as [<-|]; [|reflexivity].
    rewrite Hn. simpl. now rewrite Hc.
Qed.

Lemma same_view_skeleton s s' : skeleton s' = skeleton s -> same_view s s'.
Proof.
  intros H. split; [now apply shape_of_skeleton|]. intros x.
  destruct (heap s !! x) as [nd|] eqn:Hx.
  - destruct (skeleton_lookup _ _ _ _ H Hx) as (nd' & -> & He).
    apply erase_fields in He. simpl. f_equal. tauto.
  - assert (Hs : skeleton s' !! x = skeleton s !! x) by now rewrite H.
    unfold skeleton in Hs. rewrite !list_lookup_fmap, Hx in Hs.
    now destruct (heap s' !! x).
Qed.

Lemma same_view_super_emit n ev p s : same_view s (super_emit n ev p s).
Proof. apply same_view_skeleton, skeleton_super_emit. Qed.

Lemma same_view_lookup s s' x nd :
  same_view s s' -> heap s !! x = Some nd ->
  exists nd', heap s' !! x = Some nd' /\ shape nd' = shape nd /\ _cls_ nd' = _cls_ nd.
Proof.
  intros [Hsh Hc] Hx. destruct (shape_of_lookup _ _ _ _ Hsh Hx) as (nd' & Hx' & Hs).
  exists nd'. split; [assumption|]. split; [assumption|].
  specialize (Hc x). rewrite Hx, Hx' in Hc. simpl in Hc. congruence.
Qed.

Lemma unresolved_view require s s' n name :
  same_view s s' -> unresolved require s n name -> unresolved require s' n name.
Proof.
  intros Hv. unfold unresolved, _getDynamicClass.
  destruct (heap s !! n) as [nd|] eqn:Hn; [|discriminate].
  destruct (same_view_lookup _ _ _ _ Hv Hn) as (nd' & -> & Hs & _).
  destruct (shape_fields _ _ Hs) as (_ & _ & _ & _ & _ & _ & ->).
  destruct (_topLevelParent nd) as [tp|]; [|discriminate].
  destruct (heap s !! tp) as [tpn|] eqn:Htp; [|discriminate].
  destruct (same_view_lookup _ _ _ _ Hv Htp) as (tpn' & -> & _ & ->).
  destruct (obj_get (to_string name) (_cls_ tpn)); [discriminate|].
  destruct name; try discriminate.
  destruct (single_word s0); [|reflexivity].
  destruct (require s0); [discriminate|reflexivity].
Qed.

Lemma read_slot_key nd nd' k :
  obj_get k (slots nd') = obj_get k (slots nd) ->
  obj_get k (_properties nd') = obj_get k (_properties nd) ->
  _acl nd' = _acl nd ->
  read_slot nd' k = read_slot nd k.
Proof.
  intros Hs Hp Ha. unfold read_slot, getter, acl_public, acl_entry, prop_value.
  now rewrite Hs, Hp, Ha.
Qed.

(** What [settled_key] reads: the entries of the key in the control, the
    access-control list, the settledness of the child of that name, and
    the failure of the resolver. *)
Lemma settled_key_transfer require s s' (rec rec' : nat -> Prop) n k v nd nd' :
  heap s !! n = Some nd -> heap s' !! n = Some nd' ->
  obj_get k (slots nd') = obj_get k (slots nd) ->
  obj_get k (_properties nd') = obj_get k (_properties nd) ->
  obj_get k (_controls nd') = obj_get k (_controls nd) ->
  _acl nd' = _acl nd ->
  (forall c, obj_get k (_controls nd) = Some c -> rec c -> rec' c) ->
  (unresolved require s n (member v "controlType") ->
   unresolved require s' n (member v "controlType")) ->
  settled_key require s rec n k v -> settled_key require s' rec' n k v.
Proof.
  intros Hn Hn' Hs Hp Hc Ha Hrec Hun (nd0 & Hn0 & H).
  assert (nd0 = nd) by congruence. subst nd0.
  exists nd'. split; [assumption|].
  rewrite (read_slot_key _ _ _ Hs Hp Ha), Hs, Hp, Hc.
  unfold acl_public, acl_entry, prop_value in *. rewrite Ha, Hp.
  destruct (String.eqb k "remove"); [assumption|].
  destruct (not_internal k && negb (String.eqb k "controlType")); [|assumption].
  destruct (negb (is_nullish (read_slot nd k)) && is_settable (read_slot nd k));
    [assumption|].
  destruct (obj_get k (_controls nd)) as [c|]; [now apply Hrec|].
  destruct (negb (is_nullish v) && negb (is_nullish (member v "controlType")));
    [now apply Hun|assumption].
Qed.

Lemma settled_unfold require s n kind r fs :
  settled require s n (JObj kind r fs) = settled_each require s n fs.
Proof. reflexivity. Qed.

Lemma Set_unfold require n kind r fs s :
  Set_ require n (JObj kind r fs) s = Set_each require n fs s.
Proof. reflexivity. Qed.

Lemma settled_view require s s' : same_view s s' ->
  forall d n, settled require s n d -> settled require s' n d.
Proof.
  intros Hv. induction d as [| | | | | |kind r fs IH] using jsval_rect2; intros n H;
    try exact I.
  rewrite settled_unfold in *. induction IH as [|[k v] fs Hkv _ IHfs]; [exact I|].
  simpl in *. destruct H as [Hk Hrest]. split; [|now apply IHfs].
  destruct Hk as (nd & Hn & Hk).
  destruct (same_view_lookup _ _ _ _ Hv Hn) as (nd' & Hn' & Hsh & _).
  destruct (shape_fields _ _ Hsh) as (Es & _ & Ec & Ep & Ea & _).
  eapply (settled_key_transfer require s s' _ _ n k v nd nd'); eauto.
  - now rewrite Es.
  - now rewrite Ep.
  - now rewrite Ec.
  - intros c _. apply Hkv.
  - now apply unresolved_view.
  - exists nd. split; assumption.
Qed.

(** *** A settled [Set] changes nothing that [Get] can see *)

Lemma obj_set_same {A : Type} k (v : A) o : obj_get k o = Some v -> obj_set k v o = o.
Proof.
  induction o as [|[k' v'] o IH]; simpl; [discriminate|].
  destruct (String.eqb k k') eqn:E.
  - now intros [= ->].
  - intros H. now rewrite IH.
Qed.

Lemma settled_key_quiet require (SetData : nat -> state -> result) (rec : nat -> Prop)
    n k v s :
  (forall c s0, same_view s s0 -> rec c ->
                exists s', SetData c s0 = Ok s' /\ same_view s0 s') ->
  settled_key require s rec n k v ->
  exists s', Set_key require SetData n k v s = Ok s' /\ same_view s s'.
Proof.
  intros Hrec (nd & Hn & H). unfold Set_key. rewrite Hn.
  destruct (String.eqb k "remove").
  { rewrite H. eexists. split; [reflexivity|apply same_view_refl]. }
  destruct (not_internal k && negb (String.eqb k "controlType"));
    [|eexists; split; [reflexivity|apply same_view_refl]].
  destruct (negb (is_nullish (read_slot nd k)) && is_settable (read_slot nd k)) eqn:Hset.
  - destruct (acl_public nd k "Set");
      [|eexists; split; [reflexivity|apply same_view_refl]].
    specialize (H eq_refl).
    assert (Hb : heap (upd n (with_bypass true) s) !! n = Some (with_bypass true nd))
      by now apply lookup_upd_eq.
    assert (Hv0 : same_view s (upd n (with_bypass true) s))
      by (apply same_view_upd; reflexivity).
    unfold put_prop. rewrite Hb. cbn [slots with_bypass].
    destruct (obj_get k (slots nd)) as [[|fv]|] eqn:Hslot; [| |discriminate].
    + unfold setter. rewrite Hb.
      change (prop_value (with_bypass true nd) k) with (prop_value nd k).
      change (acl_public (with_bypass true nd) k "setter") with (acl_public nd k "setter").
      destruct (loose_eq (prop_value nd k) (coerce v)) eqn:Heq; cbn [negb].
      { eexists. split; [reflexivity|].
        eapply same_view_trans; [exact Hv0|]. apply same_view_upd; reflexivity. }
      destruct (acl_public nd k "setter") eqn:Hsetter.
      2:{ eexists. split; [reflexivity|].
          eapply same_view_trans; [exact Hv0|]. apply same_view_upd; reflexivity. }
      destruct H as [H|[H|H]]; try discriminate.
      set (sA := upd n (with_bypass true) s) in *.
      set (sB := upd n (with_properties (obj_set k (coerce v))) sA).
      set (sC := upd n (with_bypass false) sB).
      set (sD := super_emit n k (DVal (coerce v)) sC).
      exists (upd n (with_bypass false) sD). split; [reflexivity|].
      apply (same_view_trans _ sA); [exact Hv0|].
      apply (same_view_trans _ sB).
      { apply (same_view_upd_at n (with_properties (obj_set k (coerce v))) _ _ Hb).
        - unfold shape. simpl. now rewrite (obj_set_same _ _ _ H).
        - reflexivity. }
      apply (same_view_trans _ sC); [apply same_view_upd; reflexivity|].
      apply (same_view_trans _ sD); [apply same_view_super_emit|].
      apply same_view_upd; reflexivity.
    + injection H as ->. eexists. split; [reflexivity|].
      eapply same_view_trans; [exact Hv0|].
      apply (same_view_upd_at n _ _ _ Hb); [|reflexivity].
      unfold shape. simpl. now rewrite (obj_set_same _ _ _ Hslot).
  - destruct (obj_get k (_controls nd)) as [c|].
    + apply Hrec; [apply same_view_refl|assumption].
    + destruct (negb (is_nullish v) && negb (is_nullish (member v "controlType"))).
      * unfold _createControl. unfold unresolved in H. rewrite H.
        eexists. split; [reflexivity|apply same_view_refl].
      * eexists. split; [reflexivity|apply same_view_refl].
Qed.

Lemma settled_quiet require : forall d n s,
  settled require s n d ->
  exists s', Set_ require n d s = Ok s' /\ same_view s s'.
Proof.
  induction d as [| |b|z| |str|kind r fs IH] using jsval_rect2; intros n s H;
    try (eexists; split; [reflexivity|apply same_view_refl]).
  rewrite settled_unfold in H. rewrite Set_unfold.
  revert s H. induction IH as [|[k v] fs Hkv _ IHfs]; intros s H.
  - eexists. split; [reflexivity|apply same_view_refl].
  - simpl in *. destruct H as [Hk Hrest].
    destruct (settled_key_quiet require (fun c => Set_ require c v)
                (fun c => settled require s c v) n k v s) as (s1 & H1 & V1);
      [|assumption|].
    { intros c s0 V0 Hc. apply Hkv. now apply (settled_view require s s0). }
    rewrite H1. simpl.
    destruct (IHfs s1) as (s2 & H2 & V2).
    { exact (settled_view require s s1 V1 (JObj KObject 0 fs) n Hrest). }
    exists s2. split; [assumption|]. eapply same_view_trans; eauto.
Qed.

(** *** Below and above *)

Lemma within_refl s a : within s a a.
Proof. now left. Qed.

Lemma ancestor_trans s a b c : ancestor s a b -> ancestor s b c -> ancestor s a c.
Proof.
  intros Hab Hbc. induction Hbc as [n nd p Hn Hp|n nd p q Hn Hp _ IH].
  - eapply ancestor_step; eauto.
  - eapply ancestor_step; eauto.
Qed.

Lemma within_trans s a b c : within s a b -> within s b c -> within s a c.
Proof.
  intros [->|Hab] [->|Hbc]; [now left|now right|now right|].
  right. eapply ancestor_trans; eauto.
Qed.

Lemma within_le s a x : parents_below s -> within s a x -> a <= x.
Proof.
  intros Hwf [->|H]; [lia|]. pose proof (ancestor_lt _ _ _ Hwf H). lia.
Qed.

Lemma within_child s m c cd x :
  heap s !! c = Some cd -> _parent cd = Some m -> within s c x -> within s m x.
Proof.
  intros Hc Hp H. apply (within_trans _ _ c); [|assumption].
  right. eapply ancestor_parent; eauto.
Qed.

Lemma within_linear s a x :
  within s a x -> forall b, within s b x -> within s a b \/ within s b a.
Proof.
  intros [->|Ha]; [now right|].
  induction Ha as [x nd p Hx Hp|x nd p q Hx Hp Hq IH]; intros b [->|Hb].
  - left. right. eapply ancestor_parent; eauto.
  - destruct (ancestor_parent_inv _ _ _ _ _ Hb Hx Hp) as [->|H];
      [left; now left|right; now right].
  - left. right. eapply ancestor_step; eauto.
  - destruct (ancestor_parent_inv _ _ _ _ _ Hb Hx Hp) as [->|H].
    + left. now right.
    + apply IH. now right.
Qed.

(** The subtrees of two children of different names are disjoint. *)
Lemma siblings_disjoint s m nd k k' c c' x :
  tree s -> heap s !! m = Some nd ->
  obj_get k (_controls nd) = Some c -> obj_get k' (_controls nd) = Some c' ->
  k <> k' -> within s c x -> ~ within s c' x.
Proof.
  intros [Hpb Hch] Hm Hc Hc' Hne Hx Hx'.
  destruct (Hch _ _ _ _ Hm (obj_get_Some_in _ _ _ Hc)) as (cd & Hcd & Hp & Hname).
  destruct (Hch _ _ _ _ Hm (obj_get_Some_in _ _ _ Hc')) as (cd' & Hcd' & Hp' & Hname').
  assert (Hcc : c <> c') by (intros ->; congruence).
  pose proof (Hpb _ _ _ Hcd Hp). pose proof (Hpb _ _ _ Hcd' Hp').
  destruct (within_linear _ _ _ Hx _ Hx') as [[E|H1]|[E|H1]]; try congruence.
  - destruct (ancestor_parent_inv _ _ _ _ _ H1 Hcd' Hp') as [->|H2]; [lia|].
    pose proof (ancestor_lt _ _ _ Hpb H2). lia.
  - destruct (ancestor_parent_inv _ _ _ _ _ H1 Hcd Hp) as [->|H2]; [lia|].
    pose proof (ancestor_lt _ _ _ Hpb H2). lia.
Qed.

Lemma ancestor_fwd require s s' a x :
  links_kept require s s' -> ancestor s a x -> ancestor s' a x.
Proof.
  intros Hl H. induction H as [n nd p Hn Hp|n nd p q Hn Hp _ IH];
    destruct (Hl _ _ Hn) as (nd' & Hn' & Hp' & _).
  - apply (ancestor_parent s' n nd' p Hn'). congruence.
  - apply (ancestor_step s' n nd' p q Hn'); [congruence|assumption].
Qed.

Lemma within_fwd require s s' a x :
  links_kept require s s' -> within s a x -> within s' a x.
Proof. intros Hl [->|H]; [now left|right]. eapply ancestor_fwd; eauto. Qed.

Lemma ancestor_back require s s' a x :
  links_kept require s s' -> parents_below s' -> x < length (heap s) ->
  ancestor s' a x -> ancestor s a x.
Proof.
  intros Hl Hpb Hx H. induction H as [n nd' p Hn Hp|n nd' p q Hn Hp _ IH].
  - destruct (lookup_lt_is_Some_2 _ _ Hx) as [nd Hnd].
    destruct (Hl _ _ Hnd) as (nd0 & Hn0 & Hp0 & _).
    apply (ancestor_parent s n nd p Hnd). congruence.
  - destruct (lookup_lt_is_Some_2 _ _ Hx) as [nd Hnd].
    destruct (Hl _ _ Hnd) as (nd0 & Hn0 & Hp0 & _).
    pose proof (Hpb _ _ _ Hn Hp).
    apply (ancestor_step s n nd p q Hnd); [congruence|]. apply IH. lia.
Qed.

Lemma within_back require s s' a x :
  links_kept require s s' -> parents_below s' -> x < length (heap s) ->
  within s' a x -> within s a x.
Proof. intros Hl Hpb Hx [->|H]; [now left|right]. eapply ancestor_back; eauto. Qed.

(** *** What a step keeps *)

Lemma untouched_refl s x : untouched s s x.
Proof. reflexivity. Qed.

Lemma untouched_trans s1 s2 s3 x :
  untouched s1 s2 x -> untouched s2 s3 x -> untouched s1 s3 x.
Proof. unfold untouched. congruence. Qed.

Lemma untouched_lookup s s' x nd :
  untouched s s' x -> heap s !! x = Some nd ->
  exists nd', heap s' !! x = Some nd' /\ shape nd' = shape nd.
Proof.
  unfold untouched. intros H Hx. rewrite Hx in H.
  destruct (heap s' !! x) as [nd'|]; [|discriminate].
  exists nd'. split; [reflexivity|]. simpl in H. congruence.
Qed.

Lemma untouched_lookup_back s s' x nd' :
  untouched s s' x -> heap s' !! x = Some nd' ->
  exists nd, heap s !! x = Some nd /\ shape nd' = shape nd.
Proof.
  unfold untouched. intros H Hx. rewrite Hx in H.
  destruct (heap s !! x) as [nd|]; [|discriminate].
  exists nd. split; [reflexivity|]. simpl in H. congruence.
Qed.

Lemma same_view_untouched s s' x : same_view s s' -> untouched s s' x.
Proof.
  intros [H _]. unfold untouched.
  assert (E : shape_of s' !! x = shape_of s !! x) by now rewrite H.
  unfold shape_of in E. now rewrite !list_lookup_fmap in E.
Qed.

Lemma links_kept_refl require s : links_kept require s s.
Proof. intros x nd Hx. exists nd. repeat split; auto. Qed.

Lemma links_kept_trans require s1 s2 s3 :
  links_kept require s1 s2 -> links_kept require s2 s3 -> links_kept require s1 s3.
Proof.
  intros H1 H2 x nd Hx.
  destruct (H1 _ _ Hx) as (nd2 & Hx2 & Hp2 & Ht2 & Ha2 & Hc2).
  destruct (H2 _ _ Hx2) as (nd3 & Hx3 & Hp3 & Ht3 & Ha3 & Hc3).
  exists nd3. split; [assumption|]. repeat split; try congruence.
  intros w. destruct (Hc3 w) as [E3|(N3 & S3 & R3)], (Hc2 w) as [E2|(N2 & S2 & R2)].
  - left. congruence.
  - right. repeat split; auto. 
  - right. repeat split; auto. congruence.
  - right. repeat split; auto.
Qed.

Lemma same_view_links require s s' : same_view s s' -> links_kept require s s'.
Proof.
  intros Hv x nd Hx. destruct (same_view_lookup _ _ _ _ Hv Hx) as (nd' & Hx' & Hs & Hc).
  destruct (shape_fields _ _ Hs) as (_ & _ & _ & _ & Ha & Hp & Ht).
  exists nd'. repeat split; auto. intros w. left. now rewrite Hc.
Qed.

Lemma tree_children_above s : tree s -> children_above s.
Proof.
  intros [Hpb Hch] n nd k c Hn Hin.
  destruct (Hch _ _ _ _ Hn Hin) as (cd & Hc & Hp & _).
  pose proof (Hpb _ _ _ Hc Hp). pose proof (lookup_lt_Some _ _ _ Hc). lia.
Qed.

Lemma tree_b_spec s : tree_b s = true -> tree s.
Proof.
  unfold tree_b. intros H. apply andb_prop in H as [H1 H2].
  split; [now apply parents_below_b_spec|].
  intros n nd k c Hn Hin.
  pose proof (check_from_spec _ _ 0 H2 n nd Hn) as Hc. simpl in Hc.
  rewrite forallb_forall in Hc. specialize (Hc (k, c) Hin). simpl in Hc.
  destruct (heap s !! c) as [cd|]; [|discriminate].
  apply andb_prop in Hc as [Hp Hname]. exists cd. split; [reflexivity|].
  destruct (_parent cd) as [p|]; [|discriminate].
  apply Nat.eqb_eq in Hp. apply String.eqb_eq in Hname. now subst.
Qed.

Lemma clean_b_spec s : clean_b s = true -> clean s.
Proof.
  unfold clean_b. intros H x nd k Hx. rewrite forallb_forall in H.
  assert (Hin : In nd (heap s)).
  { apply list_elem_of_In. eapply list_elem_of_lookup_2. eauto. }
  specialize (H nd Hin). rewrite forallb_forall in H.
  unfold read_slot. destruct (obj_get k (slots nd)) as [sl|] eqn:Hk; [|reflexivity].
  specialize (H (k, sl) (obj_get_Some_in _ _ _ Hk)). simpl in H.
  unfold read_slot in H. rewrite Hk in H. now apply negb_true_iff in H.
Qed.

Lemma node_kept_changes_key require k m s s' x nd :
  changes_key require k m s s' -> heap s !! x = Some nd ->
  exists nd', heap s' !! x = Some nd'
              /\ _parent nd' = _parent nd /\ _controlName nd' = _controlName nd
              /\ _controls nd' = _controls nd.
Proof.
  intros (_ & Hl & Hun & Hm) Hx. destruct (decide (x = m)) as [->|Hne].
  - destruct (Hm _ Hx) as (nd' & Hx' & Hname & Hc & _).
    destruct (Hl _ _ Hx) as (nd0 & Hx0 & Hp & _).
    exists nd'. repeat split; auto. congruence.
  - destruct (untouched_lookup _ _ _ _ (Hun _ Hne) Hx) as (nd' & Hx' & Hs).
    apply shape_fields in Hs as (_ & Hname & Hc & _ & _ & Hp & _).
    exists nd'. repeat split; auto.
Qed.

Lemma tree_changes_key require k m s s' :
  tree s -> changes_key require k m s s' -> tree s'.
Proof.
  intros [Hpb Hch] Hck. pose proof Hck as (Hlen & Hl & Hun & Hm). split.
  - intros x nd' p Hx' Hp.
    pose proof (lookup_lt_Some _ _ _ Hx') as Hlt. rewrite Hlen in Hlt.
    destruct (lookup_lt_is_Some_2 _ _ Hlt) as [nd Hx].
    destruct (node_kept_changes_key _ _ _ _ _ _ _ Hck Hx) as (nd0 & Hx0 & Hp0 & _).
    apply (Hpb x nd p Hx). congruence.
  - intros n nd' k' c Hn' Hin.
    pose proof (lookup_lt_Some _ _ _ Hn') as Hlt. rewrite Hlen in Hlt.
    destruct (lookup_lt_is_Some_2 _ _ Hlt) as [nd Hn].
    destruct (node_kept_changes_key _ _ _ _ _ _ _ Hck Hn) as (nd0 & Hn0 & _ & _ & Hc0).
    assert (nd0 = nd') by congruence. subst nd0. rewrite Hc0 in Hin.
    destruct (Hch _ _ _ _ Hn Hin) as (cd & Hc & Hp & Hname).
    destruct (node_kept_changes_key _ _ _ _ _ _ _ Hck Hc) as (cd' & Hc' & Hp' & Hn'' & _).
    exists cd'. repeat split; congruence.
Qed.

Lemma advances_changes_key require k m s s' :
  tree s -> changes_key require k m s s' -> advances require m s s'.
Proof.
  intros Ht Hck. split; [eapply tree_changes_key; eauto|].
  destruct Hck as (Hlen & Hl & Hun & Hm). split; [lia|]. split; [assumption|]. split.
  - intros x _ Hx. apply Hun. intros ->. apply Hx. apply within_refl.
  - intros x H1 H2. lia.
Qed.

Lemma keys_kept_changes_key require k m s s' :
  tree s -> changes_key require k m s s' -> keys_kept (fun k' => k' <> k) m s s'.
Proof.
  intros Ht (Hlen & Hl & Hun & Hm) k' Hne. split.
  - intros nd Hn. destruct (Hm _ Hn) as (nd' & Hn' & _ & Hc & Hk).
    destruct (Hk _ Hne) as (Hs & Hp). exists nd'. repeat split; auto. now rewrite Hc.
  - intros nd c x Hn Hc Hx. apply Hun. intros ->.
    destruct Ht as [Hpb Hch].
    destruct (Hch _ _ _ _ Hn (obj_get_Some_in _ _ _ Hc)) as (cd & Hcd & Hp & _).
    pose proof (Hpb _ _ _ Hcd Hp). pose proof (within_le _ _ _ Hpb Hx). lia.
Qed.

Lemma changes_key_trans require k m s1 s2 s3 :
  changes_key require k m s1 s2 -> changes_key require k m s2 s3 ->
  changes_key require k m s1 s3.
Proof.
  intros (L1 & K1 & U1 & M1) (L2 & K2 & U2 & M2). split; [congruence|].
  split; [eapply links_kept_trans; eauto|]. split.
  - intros x Hx. eapply untouched_trans; eauto.
  - intros nd Hn. destruct (M1 _ Hn) as (nd2 & Hn2 & N2 & C2 & E2).
    destruct (M2 _ Hn2) as (nd3 & Hn3 & N3 & C3 & E3).
    exists nd3. split; [assumption|]. split; [congruence|]. split; [congruence|].
    intros k' Hne. destruct (E2 _ Hne), (E3 _ Hne). split; congruence.
Qed.

Lemma changes_key_view require k m s s' : same_view s s' -> changes_key require k m s s'.
Proof.
  intros Hv. split; [apply length_shape_of, Hv|]. split; [now apply same_view_links|].
  split; [intros x _; now apply same_view_untouched|].
  intros nd Hn. destruct (same_view_lookup _ _ _ _ Hv Hn) as (nd' & Hn' & Hs & _).
  apply shape_fields in Hs as (Es & En & Ec & Ep & _).
  exists nd'. repeat split; auto; congruence.
Qed.

Lemma changes_key_upd require k m f s :
  (forall nd, _controlName (f nd) = _controlName nd /\ _controls (f nd) = _controls nd
              /\ _acl (f nd) = _acl nd /\ _parent (f nd) = _parent nd
              /\ _topLevelParent (f nd) = _topLevelParent nd /\ _cls_ (f nd) = _cls_ nd
              /\ forall k', k' <> k ->
                   obj_get k' (slots (f nd)) = obj_get k' (slots nd)
                   /\ obj_get k' (_properties (f nd)) = obj_get k' (_properties nd)) ->
  changes_key require k m s (upd m f s).
Proof.
  intros Hf. split; [unfold upd; simpl; apply length_alter|]. split; [|split].
  - intros x nd Hx. rewrite lookup_upd. destruct (decide (m = x)) as [->|].
    + rewrite Hx. simpl. destruct (Hf nd) as (_ & _ & Ha & Hp & Ht & Hc & _).
      exists (f nd). repeat split; auto. intros w. left. now rewrite Hc.
    + exists nd. repeat split; auto.
  - intros x Hx. unfold untouched. now rewrite lookup_upd_ne.
  - intros nd Hn. exists (f nd). split; [now apply lookup_upd_eq|].
    destruct (Hf nd) as (Hname & Hc & _ & _ & _ & _ & Hk). auto.
Qed.

Lemma advances_trans require m s1 s2 s3 :
  advances require m s1 s2 -> advances require m s2 s3 -> advances require m s1 s3.
Proof.
  intros (T2 & L2 & K2 & O2 & F2) (T3 & L3 & K3 & O3 & F3).
  split; [assumption|]. split; [lia|]. split; [eapply links_kept_trans; eauto|]. split.
  - intros x Hx Hnot. eapply untouched_trans; [now apply O2|].
    apply O3; [lia|]. intros Hw. apply Hnot.
    eapply within_back; eauto. apply T2.
  - intros x H1 H3. destruct (decide (x < length (heap s2))) as [Hlt|Hge].
    + eapply within_fwd; eauto.
    + apply F3; lia.
Qed.

Lemma keys_kept_trans require (P : string -> Prop) m s1 s2 s3 :
  links_kept require s1 s2 ->
  keys_kept P m s1 s2 -> keys_kept P m s2 s3 -> keys_kept P m s1 s3.
Proof.
  intros Hl H1 H2 k Hk. destruct (H1 _ Hk) as [K1 C1], (H2 _ Hk) as [K2 C2]. split.
  - intros nd Hn. destruct (K1 _ Hn) as (nd2 & Hn2 & E1 & E2 & E3).
    destruct (K2 _ Hn2) as (nd3 & Hn3 & E4 & E5 & E6).
    exists nd3. repeat split; congruence.
  - intros nd c x Hn Hc Hx. eapply untouched_trans; [eapply C1; eauto|].
    destruct (K1 _ Hn) as (nd2 & Hn2 & _ & _ & E3).
    apply (C2 nd2 c x Hn2); [congruence|]. eapply within_fwd; eauto.
Qed.

Lemma keys_kept_weaken (P P' : string -> Prop) m s s' :
  (forall k, P' k -> P k) -> keys_kept P m s s' -> keys_kept P' m s s'.
Proof. intros H Hk k Hp. apply Hk. auto. Qed.

Lemma advances_below require m c s s' :
  within s m c -> advances require c s s' -> advances require m s s'.
Proof.
  intros Hmc (T & L & K & O & F). split; [assumption|]. split; [assumption|].
  split; [assumption|]. split.
  - intros x Hx Hnot. apply O; [assumption|]. intros Hw. apply Hnot.
    eapply within_trans; eauto.
  - intros x H1 H2. eapply within_trans; [eapply within_fwd; eauto|]. now apply F.
Qed.

(** A step on a child keeps the parent and the subtrees of its siblings. *)
Lemma keys_kept_child require m nd k c s s' :
  tree s -> heap s !! m = Some nd -> obj_get k (_controls nd) = Some c ->
  advances require c s s' -> keys_kept (fun k' => k' <> k) m s s'.
Proof.
  intros Ht Hm Hc (T & L & K & O & F) k' Hne.
  pose proof Ht as [Hpb Hch].
  destruct (Hch _ _ _ _ Hm (obj_get_Some_in _ _ _ Hc)) as (cd & Hcd & Hp & _).
  pose proof (Hpb _ _ _ Hcd Hp) as Hlt. split.
  - intros nd0 Hn0. assert (nd0 = nd) by congruence. subst nd0.
    assert (Hu : untouched s s' m).
    { apply O; [eapply lookup_lt_Some; eauto|]. intros Hw.
      pose proof (within_le _ _ _ Hpb Hw). lia. }
    destruct (untouched_lookup _ _ _ _ Hu Hm) as (nd' & Hm' & Hs).
    apply shape_fields in Hs as (Es & _ & Ec & Ep & _).
    exists nd'. repeat split; congruence.
  - intros nd0 c' x Hn0 Hc' Hx. assert (nd0 = nd) by congruence. subst nd0.
    apply O.
    + destruct Hx as [->|Hx].
      * destruct (Hch _ _ _ _ Hm (obj_get_Some_in _ _ _ Hc')) as (cd' & Hcd' & _).
        eapply lookup_lt_Some; eauto.
      * inversion Hx; eapply lookup_lt_Some; eauto.
    + eapply siblings_disjoint; eauto.
Qed.

(** *** The steps of the first application *)

Lemma _notify_fuel_skeleton fuel : forall n delta s s',
  _notify_fuel fuel n delta s = Ok s' -> skeleton s' = skeleton s.
Proof.
  induction fuel as [|fuel IH]; intros n delta s s' H; [discriminate|].
  rewrite _notify_fuel_S in H. destruct (heap s !! n) as [nd|]; [|discriminate].
  destruct (match _parent nd with
            | Some p => if negb (hidden s n)
                        then _notify_fuel fuel p (DObj [(_controlName nd, delta)]) s
                        else Ok s
            | None => Ok s
            end) as [s1| |] eqn:Hup; simpl in H; try discriminate.
  injection H as <-. rewrite skeleton_super_emit.
  destruct (_parent nd) as [p|]; [|now injection Hup as <-].
  destruct (negb (hidden s n)); [now apply IH in Hup|now injection Hup as <-].
Qed.

(** [this[k] = v] either changes nothing that can be seen, or stores [v]
    in the registry through the setter, or stores it in a plain field. *)
Lemma put_prop_view n k v s s' :
  put_prop n k v s = Ok s' ->
  exists nd,
    heap s !! n = Some nd
    /\ ((obj_get k (slots nd) = Some Accessor
         /\ (loose_eq (prop_value nd k) v = true \/ acl_public nd k "setter" = false)
         /\ same_view s s')
        \/ (obj_get k (slots nd) = Some Accessor
            /\ same_view (upd n (with_properties (obj_set k v)) s) s')
        \/ (obj_get k (slots nd) <> Some Accessor
            /\ same_view (upd n (with_slots (obj_set k (Field v))) s) s')).
Proof.
  unfold put_prop. destruct (heap s !! n) as [nd|] eqn:Hn; [|discriminate].
  intros H. exists nd. split; [reflexivity|].
  destruct (obj_get k (slots nd)) as [[|fv]|] eqn:Hslot.
  - unfold setter in H. rewrite Hn in H.
    destruct (loose_eq (prop_value nd k) v) eqn:Heq; simpl in H.
    { injection H as <-. left. split; [reflexivity|]. split; [now left|].
      apply same_view_upd; reflexivity. }
    destruct (acl_public nd k "setter") eqn:Hsetter; simpl in H.
    2:{ injection H as <-. left. split; [reflexivity|]. split; [now right|].
        apply same_view_upd; reflexivity. }
    right. left. split; [reflexivity|].
    set (s1 := upd n (with_properties (obj_set k v)) s) in *.
    destruct (_bypassNotify nd); simpl in H.
    + injection H as <-.
      apply (same_view_trans _ (upd n (with_bypass false) s1));
        [apply same_view_upd; reflexivity|].
      apply (same_view_trans _ (super_emit n k (DVal v) (upd n (with_bypass false) s1)));
        [apply same_view_super_emit|apply same_view_upd; reflexivity].
    + unfold NotifyProperty in H.
      destruct (heap s1 !! n) as [nd1|]; [|discriminate]. unfold _notify in H.
      destruct (_notify_fuel _ n _ s1) as [s2| |] eqn:Hrun; simpl in H; try discriminate.
      injection H as <-.
      apply (same_view_trans _ s2);
        [apply same_view_skeleton; eapply _notify_fuel_skeleton; eauto|].
      apply (same_view_trans _ (super_emit n k (DVal v) s2));
        [apply same_view_super_emit|apply same_view_upd; reflexivity].
  - injection H as <-. right. right. split; [discriminate|apply same_view_refl].
  - injection H as <-. right. right. split; [discriminate|apply same_view_refl].
Qed.

Lemma put_prop_changes require n k v s s' :
  put_prop n k v s = Ok s' -> changes_key require k n s s'.
Proof.
  intros H. destruct (put_prop_view _ _ _ _ _ H) as (nd & Hn & [(_ & _ & V)|[(_ & V)|(_ & V)]]).
  - now apply changes_key_view.
  - eapply changes_key_trans; [|apply changes_key_view; exact V].
    apply changes_key_upd. intros nd0. repeat split; auto.
    simpl. now apply obj_get_set_ne.
  - eapply changes_key_trans; [|apply changes_key_view; exact V].
    apply changes_key_upd. intros nd0. repeat split; auto.
    simpl. now apply obj_get_set_ne.
Qed.

Lemma changes_key_shape require k m s s' :
  length (heap s') = length (heap s) -> links_kept require s s' ->
  (forall x, untouched s s' x) -> changes_key require k m s s'.
Proof.
  intros Hlen Hl Hun. split; [assumption|]. split; [assumption|]. split; [auto|].
  intros nd Hn. destruct (untouched_lookup _ _ _ _ (Hun m) Hn) as (nd' & Hn' & Hs).
  apply shape_fields in Hs as (Es & En & Ec & Ep & _).
  exists nd'. repeat split; auto; congruence.
Qed.

(** The resolver changes at most the class cache, by a class just loaded. *)
Lemma _getDynamicClass_found require n name s c s' :
  _getDynamicClass require n name s = Found c s' ->
  length (heap s') = length (heap s) /\ links_kept require s s'
  /\ forall x, untouched s s' x.
Proof.
  unfold _getDynamicClass. destruct (heap s !! n) as [nd|]; [|discriminate].
  destruct (_topLevelParent nd) as [tp|]; [|discriminate].
  destruct (heap s !! tp) as [tpn|] eqn:Htp; [|discriminate].
  destruct (obj_get (to_string name) (_cls_ tpn)) as [c0|] eqn:Hc0.
  { intros [= _ <-]. split; [reflexivity|]. split; [apply links_kept_refl|].
    intros x. apply untouched_refl. }
  destruct name; try discriminate.
  destruct (single_word s0) eqn:Hw; [|discriminate].
  destruct (require s0) as [c1|] eqn:Hr; [|discriminate].
  intros [= _ <-]. split; [|split].
  - unfold upd. simpl. apply length_alter.
  - intros x nd0 Hx. rewrite lookup_upd. destruct (decide (tp = x)) as [->|].
    + rewrite Hx. simpl. exists (with_cls (obj_set s0 c1) nd0). repeat split; auto.
      intros w. simpl. destruct (decide (w = s0)) as [->|Hne].
      * right. assert (nd0 = tpn) by congruence. subst. repeat split; auto.
        rewrite Hr. discriminate.
      * left. now apply obj_get_set_ne.
    + exists nd0. repeat split; auto.
  - intros x. unfold untouched. rewrite lookup_upd.
    destruct (decide (tp = x)) as [->|]; [|reflexivity]. now destruct (heap s !! x).
Qed.

Lemma _getDynamicClass_not_found require n name s s' :
  _getDynamicClass require n name s = NotFound s' -> s' = s.
Proof.
  unfold _getDynamicClass. destruct (heap s !! n) as [nd|]; [|discriminate].
  destruct (_topLevelParent nd) as [tp|]; [|discriminate].
  destruct (heap s !! tp) as [tpn|]; [|discriminate].
  destruct (obj_get (to_string name) (_cls_ tpn)); [discriminate|].
  destruct name; try discriminate.
  destruct (single_word s0); [|now intros [= <-]].
  destruct (require s0); [discriminate|now intros [= <-]].
Qed.

Lemma In_obj_set {A : Type} k (v : A) k' v' o :
  In (k', v') (obj_set k v o) -> (k', v') = (k, v) \/ In (k', v') o.
Proof.
  induction o as [|[k0 v0] o IH]; simpl.
  - intros [H|[]]. left. congruence.
  - destruct (String.eqb k k0) eqn:E.
    + apply String.eqb_eq in E. subst k0. intros [H|H]; [left; congruence|right; now right].
    + intros [H|H]; [right; now left|]. destruct (IH H); [now left|right; now right].
Qed.

Lemma generate_accessors_fields control :
  _controlName (generate_accessors control) = _controlName control
  /\ _controls (generate_accessors control) = _controls control
  /\ _parent (generate_accessors control) = _parent control.
Proof.
  unfold generate_accessors. generalize (map fst (slots control)). intros ks.
  revert control. induction ks as [|k ks IH]; intros control; simpl; [auto|].
  destruct (not_internal k && is_settable (read_slot control k)); [|apply IH].
  destruct (IH (with_slots (obj_set k Accessor)
                  (with_properties (obj_set k (read_slot control k)) control)))
    as (H1 & H2 & H3).
  rewrite H1, H2, H3. auto.
Qed.

Lemma new_control_controls c : _controls (new_control c) = [].
Proof.
  unfold new_control.
  assert (H1 : forall fs nd, _controls nd = [] ->
             _controls (fold_left (fun nd '(k, v) =>
                                     with_slots (obj_set k (Field (VJs v))) nd) fs nd) = []).
  { induction fs as [|[k v] fs IH]; intros nd Hnd; simpl; [assumption|]. now apply IH. }
  assert (H2 : forall acl nd, _controls nd = [] ->
             _controls (fold_left (fun nd '(k, a) =>
                                     if negb (is_nullish (read_slot nd k))
                                     then with_acl (obj_set k a) nd else nd) acl nd) = []).
  { induction acl as [|[k a] acl IH]; intros nd Hnd; simpl; [assumption|].
    apply IH. now destruct (negb (is_nullish (read_slot nd k))). }
  apply H2, H1. reflexivity.
Qed.

(** Attaching a fresh control under the name [k]. *)
Lemma attach_step require s m nd k control :
  tree s -> heap s !! m = Some nd ->
  _parent control = Some m -> _controlName control = k -> _controls control = [] ->
  let id := length (heap s) in
  let s3 := upd m (with_controls (obj_set k id))
              (mkState (heap s ++ [control]) (trace s)) in
  advances require m s s3
  /\ keys_kept (fun k' => k' <> k) m s s3
  /\ heap s3 !! m = Some (with_controls (obj_set k id) nd)
  /\ heap s3 !! id = Some control.
Proof.
  intros Ht Hm Hp Hname Hcs id s3. pose proof Ht as [Hpb Hch].
  pose proof (lookup_lt_Some _ _ _ Hm) as Hmlt.
  assert (Hlk : forall x,
             heap s3 !! x
             = if decide (x = m) then Some (with_controls (obj_set k id) nd)
               else if decide (x = id) then Some control else heap s !! x).
  { intros x. unfold s3. rewrite lookup_upd. simpl.
    destruct (decide (m = x)) as [<-|Hne].
    - rewrite decide_True by reflexivity. rewrite lookup_app_l by assumption.
      now rewrite Hm.
    - rewrite decide_False by congruence. destruct (decide (x = id)) as [->|Hid].
      + unfold id. now apply list_lookup_middle.
      + rewrite lookup_app. destruct (heap s !! x) eqn:Hx; [reflexivity|].
        apply lookup_ge_None in Hx. destruct (x - length (heap s)) eqn:E; [|reflexivity].
        unfold id in Hid. lia. }
  assert (Hold : forall x, x <> m -> x < id -> heap s3 !! x = heap s !! x).
  { intros x H1 H2. rewrite Hlk, decide_False, decide_False by (unfold id in *; lia).
    reflexivity. }
  assert (Hm3 : heap s3 !! m = Some (with_controls (obj_set k id) nd)).
  { rewrite Hlk. now rewrite decide_True. }
  assert (Hid3 : heap s3 !! id = Some control).
  { rewrite Hlk. rewrite decide_False by (unfold id; lia). now rewrite decide_True. }
  assert (Hlen : length (heap s3) = S id).
  { unfold s3, upd. simpl. rewrite length_alter, List.length_app. simpl. unfold id. lia. }
  assert (Hl : links_kept require s s3).
  { intros x nd0 Hx. rewrite Hlk. destruct (decide (x = m)) as [->|Hne].
    - assert (nd0 = nd) by congruence. subst.
      eexists. split; [reflexivity|]. repeat split; auto.
    - pose proof (lookup_lt_Some _ _ _ Hx). rewrite decide_False by (unfold id; lia).
      exists nd0. repeat split; auto. }
  split; [|split; [|split; assumption]].
  - split; [|split; [lia|split; [assumption|split]]].
    + split.
      * intros x nd' p Hx Hpx. rewrite Hlk in Hx.
        destruct (decide (x = m)) as [->|Hne].
        -- injection Hx as <-. simpl in Hpx. eapply Hpb; eauto.
        -- destruct (decide (x = id)) as [->|Hne2].
           ++ injection Hx as <-. rewrite Hp in Hpx. injection Hpx as <-. assumption.
           ++ eapply Hpb; eauto.
      * intros n nd' k' c Hn Hin. rewrite Hlk in Hn.
        assert (Hvalid : forall k0 c0 n0 nd0,
                   heap s !! n0 = Some nd0 -> In (k0, c0) (_controls nd0) ->
                   exists cd, heap s3 !! c0 = Some cd /\ _parent cd = Some n0
                              /\ _controlName cd = k0).
        { intros k0 c0 n0 nd0 Hn0 Hin0.
          destruct (Hch _ _ _ _ Hn0 Hin0) as (cd & Hcd & Hpc & Hnc).
          rewrite Hlk. destruct (decide (c0 = m)) as [->|Hc0].
          - assert (cd = nd) by congruence. subst cd.
            eexists. split; [reflexivity|]. simpl. auto.
          - pose proof (lookup_lt_Some _ _ _ Hcd).
            rewrite decide_False by (unfold id; lia). eauto. }
        destruct (decide (n = m)) as [->|Hne].
        -- injection Hn as <-. simpl in Hin.
           destruct (In_obj_set _ _ _ _ _ Hin) as [E|Hin'].
           ++ injection E as -> ->. exists control. auto.
           ++ eapply Hvalid; eauto.
        -- destruct (decide (n = id)) as [->|Hne2].
           ++ injection Hn as <-. rewrite Hcs in Hin. destruct Hin.
           ++ eapply Hvalid; eauto.
    + intros x Hx Hnot. unfold untouched. rewrite Hold; [reflexivity| |assumption].
      intros ->. apply Hnot, within_refl.
    + intros x H1 H2. assert (x = id) by (unfold id in *; lia). subst x.
      right. eapply ancestor_parent; eauto.
  - intros k' Hne. split.
    + intros nd0 Hn0. assert (nd0 = nd) by congruence. subst.
      eexists. split; [exact Hm3|]. simpl. repeat split; auto.
      now apply obj_get_set_ne.
    + intros nd0 c x Hn0 Hc Hx. assert (nd0 = nd) by congruence. subst.
      destruct (Hch _ _ _ _ Hm (obj_get_Some_in _ _ _ Hc)) as (cd & Hcd & Hpc & _).
      pose proof (Hpb _ _ _ Hcd Hpc). pose proof (within_le _ _ _ Hpb Hx).
      assert (x < id).
      { destruct Hx as [->|Hx]; [eapply lookup_lt_Some; eauto|].
        inversion Hx; eapply lookup_lt_Some; eauto. }
      unfold untouched. rewrite Hold; [reflexivity|lia|assumption].
Qed.

Lemma unresolved_kept require s s' n name :
  links_kept require s s' -> unresolved require s n name -> unresolved require s' n name.
Proof.
  intros Hl. unfold unresolved, _getDynamicClass.
  destruct (heap s !! n) as [nd|] eqn:Hn; [|discriminate].
  destruct (Hl _ _ Hn) as (nd' & -> & _ & -> & _).
  destruct (_topLevelParent nd) as [tp|]; [|discriminate].
  destruct (heap s !! tp) as [tpn|] eqn:Htp; [|discriminate].
  destruct (Hl _ _ Htp) as (tpn' & -> & _ & _ & _ & Hc).
  destruct (obj_get (to_string name) (_cls_ tpn)) eqn:Hmiss; [discriminate|].
  destruct name; try discriminate.
  change (to_string (JStr s0)) with s0 in *.
  destruct (Hc s0) as [E|(_ & Hw & Hr)].
  - rewrite E, Hmiss. destruct (single_word s0); [|reflexivity].
    destruct (require s0); [discriminate|reflexivity].
  - rewrite Hw. destruct (require s0); [discriminate|contradiction].
Qed.

(** Settledness below [c] only depends on the controls below [c]. *)
Lemma settled_stable require s s' :
  tree s -> links_kept require s s' ->
  forall d c, (forall x, within s c x -> untouched s s' x) ->
              settled require s c d -> settled require s' c d.
Proof.
  intros Ht Hl.
  induction d as [| | | | | |kind r fs IH] using jsval_rect2; intros c Hun H; try exact I.
  rewrite settled_unfold in *. induction IH as [|[k v] fs Hkv _ IHfs]; [exact I|].
  simpl in *. destruct H as [Hk Hrest]. split; [|now apply IHfs].
  destruct Hk as (nd & Hn & Hk).
  destruct (untouched_lookup _ _ _ _ (Hun c (within_refl _ _)) Hn) as (nd' & Hn' & Hsh).
  destruct (shape_fields _ _ Hsh) as (Es & _ & Ec & Ep & Ea & _).
  apply (settled_key_transfer require s s' (fun c0 => settled require s c0 v)
           (fun c0 => settled require s' c0 v) c k v nd nd'); auto; try congruence.
  - intros c2 Hc2. apply Hkv. intros x Hx. apply Hun.
    destruct Ht as [_ Hch].
    destruct (Hch _ _ _ _ Hn (obj_get_Some_in _ _ _ Hc2)) as (cd & Hcd & Hp & _).
    eapply within_child; eauto.
  - now apply unresolved_kept.
  - exists nd. split; assumption.
Qed.

Lemma advances_refl require m s : tree s -> advances require m s s.
Proof.
  intros Ht. split; [assumption|]. split; [lia|]. split; [apply links_kept_refl|]. split.
  - intros x _ _. apply untouched_refl.
  - intros x H1 H2. lia.
Qed.

Lemma keys_kept_refl P m s : keys_kept P m s s.
Proof.
  intros k _. split.
  - intros nd Hn. exists nd. auto.
  - intros nd c x _ _ _. apply untouched_refl.
Qed.

Lemma coerce_settable v :
  is_plain_object (coerce v) = false ->
  is_settable (coerce v) = true /\ is_nullish (coerce v) = false.
Proof.
  unfold coerce. destruct v as [| | | | | |[] r fs]; simpl; intros H;
    try discriminate; split; reflexivity.
Qed.

Lemma accessor_read_open nd k :
  obj_get k (slots nd) = Some Accessor -> is_nullish (read_slot nd k) = false ->
  acl_public nd k "getter" = true.
Proof.
  intros Hs. unfold read_slot, getter. rewrite Hs.
  destruct (acl_public nd k "getter"); [reflexivity|discriminate].
Qed.

Lemma clean_within_view s s' c :
  same_view s s' -> clean_within s' c -> clean_within s c.
Proof.
  intros Hv Hc x nd k Hx Hn.
  destruct (same_view_lookup _ _ _ _ Hv Hn) as (nd' & Hn' & Hs & _).
  rewrite <- (read_slot_shape _ _ k Hs). apply (Hc x nd' k); [|assumption].
  eapply (within_fwd (fun _ => None)); [apply same_view_links; eauto|assumption].
Qed.

Lemma advances_view require m s s' : tree s -> same_view s s' -> advances require m s s'.
Proof.
  intros Ht Hv. eapply (advances_changes_key require "" m); [assumption|].
  now apply changes_key_view.
Qed.

Lemma keys_kept_view (P : string -> Prop) m s s' : same_view s s' -> keys_kept P m s s'.
Proof.
  intros Hv k _. split.
  - intros nd Hn. destruct (same_view_lookup _ _ _ _ Hv Hn) as (nd' & Hn' & Hs & _).
    apply shape_fields in Hs as (Es & _ & Ec & Ep & _).
    exists nd'. repeat split; congruence.
  - intros nd c x _ _ _. now apply same_view_untouched.
Qed.

(** The property branch of [Set], first application. *)
Lemma Set_key_property_step require k v m nd s s' :
  heap s !! m = Some nd ->
  negb (is_nullish (read_slot nd k)) && is_settable (read_slot nd k) = true ->
  put_prop m k (coerce v) (upd m (with_bypass true) s) = Ok s' ->
  changes_key require k m s s'
  /\ ((forall nd', heap s' !! m = Some nd' -> is_plain_object (read_slot nd' k) = false) ->
      exists nd',
        heap s' !! m = Some nd'
        /\ negb (is_nullish (read_slot nd' k)) && is_settable (read_slot nd' k) = true
        /\ (acl_public nd' k "Set" = true ->
            match obj_get k (slots nd') with
            | Some Accessor =>
                loose_eq (prop_value nd' k) (coerce v) = true
                \/ acl_public nd' k "setter" = false
                \/ obj_get k (_properties nd') = Some (coerce v)
            | other => other = Some (Field (coerce v))
            end)).
Proof.
  intros Hm Htest H.
  set (sA := upd m (with_bypass true) s) in *.
  assert (HA : heap sA !! m = Some (with_bypass true nd)) by now apply lookup_upd_eq.
  split.
  { eapply changes_key_trans; [|eapply put_prop_changes; eauto].
    apply changes_key_view, same_view_upd; reflexivity. }
  intros Hclean.
  apply andb_prop in Htest as [Hnn Hst]. apply negb_true_iff in Hnn.
  destruct (put_prop_view _ _ _ _ _ H) as (ndA & HA' & Hcases).
  assert (ndA = with_bypass true nd) by congruence. subst ndA. cbn [slots with_bypass] in Hcases.
  destruct Hcases as [(Hslot & Hwhy & V)|[(Hslot & V)|(Hslot & V)]].
  - destruct (same_view_lookup _ _ _ _ V HA) as (nd' & Hn' & Hs & _).
    change (shape (with_bypass true nd)) with (shape nd) in Hs.
    exists nd'. split; [assumption|].
    rewrite (read_slot_shape _ _ _ Hs), Hnn, Hst. split; [reflexivity|]. intros _.
    destruct (shape_fields _ _ Hs) as (-> & _). rewrite Hslot.
    rewrite (prop_value_shape _ _ _ Hs), (acl_public_shape _ _ _ _ Hs).
    destruct Hwhy; auto.
  - assert (HB : heap (upd m (with_properties (obj_set k (coerce v))) sA) !! m
                 = Some (with_properties (obj_set k (coerce v)) (with_bypass true nd)))
      by now apply lookup_upd_eq.
    destruct (same_view_lookup _ _ _ _ V HB) as (nd' & Hn' & Hs & _).
    assert (Hread : read_slot nd' k = coerce v).
    { rewrite (read_slot_shape _ _ _ Hs). unfold read_slot, getter. cbn [slots with_properties with_bypass].
      rewrite Hslot.
      change (acl_public (with_properties (obj_set k (coerce v)) (with_bypass true nd)) k "getter")
        with (acl_public nd k "getter").
      rewrite (accessor_read_open _ _ Hslot Hnn). unfold prop_value. simpl.
      now rewrite obj_get_set_eq. }
    destruct (coerce_settable v) as [Hs1 Hs2].
    { rewrite <- Hread. now apply Hclean. }
    exists nd'. split; [assumption|]. rewrite Hread, Hs1, Hs2. split; [reflexivity|].
    intros _. destruct (shape_fields _ _ Hs) as (-> & _ & _ & Hp & _).
    cbn [slots with_properties with_bypass]. rewrite Hslot. right. right.
    rewrite Hp. simpl. apply obj_get_set_eq.
  - assert (HB : heap (upd m (with_slots (obj_set k (Field (coerce v)))) sA) !! m
                 = Some (with_slots (obj_set k (Field (coerce v))) (with_bypass true nd)))
      by now apply lookup_upd_eq.
    destruct (same_view_lookup _ _ _ _ V HB) as (nd' & Hn' & Hs & _).
    assert (Hslot' : obj_get k (slots nd') = Some (Field (coerce v))).
    { destruct (shape_fields _ _ Hs) as (-> & _). simpl. apply obj_get_set_eq. }
    assert (Hread : read_slot nd' k = coerce v).
    { unfold read_slot. now rewrite Hslot'. }
    destruct (coerce_settable v) as [Hs1 Hs2].
    { rewrite <- Hread. now apply Hclean. }
    exists nd'. split; [assumption|]. rewrite Hread, Hs1, Hs2. split; [reflexivity|].
    intros _. now rewrite Hslot'.
Qed.

(** The new-control branch of [Set], first application. *)
Lemma Set_key_create_step require k v m nd s s' :
  Set_sound require v -> tree s -> heap s !! m = Some nd ->
  no_remove v -> unique_keys v ->
  negb (is_nullish (read_slot nd k)) && is_settable (read_slot nd k) = false ->
  _createControl require (fun c => Set_ require c v) m v k s = Ok s' ->
  advances require m s s'
  /\ keys_kept (fun k' => k' <> k) m s s'
  /\ ((s' = s /\ unresolved require s m (member v "controlType"))
      \/ exists id nd',
          heap s' !! m = Some nd'
          /\ negb (is_nullish (read_slot nd' k)) && is_settable (read_slot nd' k) = false
          /\ obj_get k (_controls nd') = Some id
          /\ (clean_within s' id -> settled require s' id v)).
Proof.
  intros HQ Ht Hm Hnr Huk Htest H. unfold _createControl in H.
  destruct (_getDynamicClass require m (member v "controlType") s) as [cls s1|s1|s1] eqn:Hres;
    [| |discriminate].
  2:{ injection H as <-. pose proof (_getDynamicClass_not_found _ _ _ _ _ Hres). subst s1.
      split; [now apply advances_refl|]. split; [apply keys_kept_refl|]. left. auto. }
  destruct (_getDynamicClass_found _ _ _ _ _ _ Hres) as (Hlen1 & Hl1 & Hun1).
  assert (CK1 : changes_key require k m s s1) by now apply changes_key_shape.
  pose proof (tree_changes_key _ _ _ _ _ Ht CK1) as Ht1.
  destruct (heap s1 !! m) as [nd1|] eqn:Hm1; [|discriminate].
  destruct (untouched_lookup _ _ _ _ (Hun1 m) Hm) as (nd1' & Hm1' & Hs1).
  assert (nd1' = nd1) by congruence. subst nd1'.
  set (id := length (heap s1)) in *.
  set (control := generate_accessors
                    (mkNode (slots (new_control cls)) k (_controls (new_control cls))
                       (_properties (new_control cls)) (_acl (new_control cls)) (Some m)
                       (_topLevelParent nd1) (_bypassNotify (new_control cls))
                       (_cls_ (new_control cls)) (_events (new_control cls)))) in *.
  set (s3 := upd m (with_controls (obj_set k id))
               (mkState (heap s1 ++ [control]) (trace s1))) in *.
  destruct (generate_accessors_fields
              (mkNode (slots (new_control cls)) k (_controls (new_control cls))
                 (_properties (new_control cls)) (_acl (new_control cls)) (Some m)
                 (_topLevelParent nd1) (_bypassNotify (new_control cls))
                 (_cls_ (new_control cls)) (_events (new_control cls))))
    as (Gname & Gcs & Gp). fold control in Gname, Gcs, Gp. simpl in Gname, Gcs, Gp.
  rewrite new_control_controls in Gcs.
  destruct (attach_step require s1 m nd1 k control Ht1 Hm1 Gp Gname Gcs)
    as (A3 & K3 & Hm3 & Hid3). fold id in A3, K3, Hm3, Hid3. fold s3 in A3, K3, Hm3, Hid3.
  destruct (put_prop m k (VCtl id) s3) as [s4| |] eqn:Hput; simpl in H; try discriminate.
  destruct (Set_ require id v s4) as [s5| |] eqn:Hrun; simpl in H; try discriminate.
  injection H as <-.
  set (s6 := super_emit m k (DVal (VCtl id)) s5).
  set (s7 := super_emit m "newChildControl" (DVal (VCtl id)) s6).
  pose proof A3 as (Ht3 & _).
  pose proof (put_prop_changes require _ _ _ _ _ Hput) as CK4.
  pose proof (tree_changes_key _ _ _ _ _ Ht3 CK4) as Ht4.
  destruct (HQ id s4 s5 Hrun Ht4 Hnr Huk) as (A5 & Hset5).
  pose proof A5 as (Ht5 & _ & Hl5 & Hout5 & _).
  assert (V57 : same_view s5 s7).
  { apply (same_view_trans _ s6); apply same_view_super_emit. }
  (* the control [m] and the new control after the alias assignment *)
  destruct CK4 as (Hlen4 & Hl4 & Hun4 & Hnode4).
  destruct (Hnode4 _ Hm3) as (nd4 & Hm4 & _ & Hcs4 & _).
  assert (Hmid : m < id) by (apply (lookup_lt_Some _ _ _ Hm1)).
  assert (Hid4 : exists cd, heap s4 !! id = Some cd /\ _parent cd = Some m).
  { destruct (untouched_lookup _ _ _ _ (Hun4 id ltac:(lia)) Hid3) as (cd & Hcd & Hs).
    apply shape_fields in Hs as (_ & _ & _ & _ & _ & Hp & _).
    exists cd. split; [assumption|]. congruence. }
  destruct Hid4 as (cd4 & Hid4 & Hpid4).
  assert (Hk4 : obj_get k (_controls nd4) = Some id).
  { rewrite Hcs4. simpl. apply obj_get_set_eq. }
  assert (Hwm : within s4 m id) by (right; eapply ancestor_parent; eauto).
  assert (Hu5 : untouched s4 s5 m).
  { apply Hout5; [eapply lookup_lt_Some; eauto|]. intros Hw.
    destruct Ht4 as [Hpb4 _]. pose proof (within_le _ _ _ Hpb4 Hw). lia. }
  destruct (untouched_lookup _ _ _ _ Hu5 Hm4) as (nd5 & Hm5 & Hs5).
  destruct (same_view_lookup _ _ _ _ V57 Hm5) as (nd7 & Hm7 & Hs7 & _).
  split; [|split].
  - apply (advances_trans _ _ _ s1); [now apply (advances_changes_key require k)|].
    apply (advances_trans _ _ _ s3); [assumption|].
    apply (advances_trans _ _ _ s4).
    { apply (advances_changes_key require k); [assumption|]. repeat split; assumption. }
    apply (advances_trans _ _ _ s5); [now apply (advances_below _ _ id)|].
    now apply advances_view.
  - apply (keys_kept_trans require _ _ _ s1); [assumption| |].
    { now apply (keys_kept_changes_key require). }
    apply (keys_kept_trans require _ _ _ s3); [apply A3|assumption|].
    apply (keys_kept_trans require _ _ _ s4); [assumption| |].
    { apply (keys_kept_changes_key require); [assumption|]. repeat split; assumption. }
    apply (keys_kept_trans require _ _ _ s5); [assumption| |].
    { eapply keys_kept_child; eauto. }
    now apply keys_kept_view.
  - right. exists id, nd7. split; [assumption|].
    assert (Hs74 : shape nd7 = shape nd4) by congruence.
    split; [|split].
    + rewrite (read_slot_shape _ _ _ Hs74).
      destruct (put_prop_view _ _ _ _ _ Hput) as (nd3 & Hm3' & Hcases).
      assert (nd3 = with_controls (obj_set k id) nd1) by congruence. subst nd3.
      assert (Hr1 : read_slot (with_controls (obj_set k id) nd1) k = read_slot nd k).
      { change (read_slot (with_controls (obj_set k id) nd1) k) with (read_slot nd1 k).
        now apply read_slot_shape. }
      destruct Hcases as [(_ & _ & V)|[(Hslot & V)|(Hslot & V)]].
      * destruct (same_view_lookup _ _ _ _ V Hm3) as (nd4' & Hm4' & Hs4 & _).
        assert (nd4' = nd4) by congruence. subst nd4'.
        now rewrite (read_slot_shape _ _ _ Hs4), Hr1.
      * assert (HB : heap (upd m (with_properties (obj_set k (VCtl id))) s3) !! m
                     = Some (with_properties (obj_set k (VCtl id))
                               (with_controls (obj_set k id) nd1)))
          by now apply lookup_upd_eq.
        destruct (same_view_lookup _ _ _ _ V HB) as (nd4' & Hm4' & Hs4 & _).
        assert (nd4' = nd4) by congruence. subst nd4'.
        rewrite (read_slot_shape _ _ _ Hs4). unfold read_slot, getter.
        cbn [slots with_properties with_controls] in *. rewrite Hslot.
        match goal with |- context [if ?b then _ else _] => destruct b end;
          [|reflexivity].
        unfold prop_value. simpl. now rewrite obj_get_set_eq.
      * assert (HB : heap (upd m (with_slots (obj_set k (Field (VCtl id)))) s3) !! m
                     = Some (with_slots (obj_set k (Field (VCtl id)))
                               (with_controls (obj_set k id) nd1)))
          by now apply lookup_upd_eq.
        destruct (same_view_lookup _ _ _ _ V HB) as (nd4' & Hm4' & Hs4 & _).
        assert (nd4' = nd4) by congruence. subst nd4'.
        rewrite (read_slot_shape _ _ _ Hs4). unfold read_slot. simpl.
        now rewrite obj_get_set_eq.
    + destruct (shape_fields _ _ Hs74) as (_ & _ & -> & _). assumption.
    + intros Hclean. apply (settled_view require s5 s7 V57). apply Hset5.
      now apply (clean_within_view s5 s7).
Qed.

(** One key of the first application. *)
Lemma Set_key_step require k v m s s' :
  Set_sound require v ->
  Set_key require (fun c => Set_ require c v) m k v s = Ok s' ->
  tree s -> (k = "remove" -> loose_eq v (JBool true) = false) ->
  no_remove v -> unique_keys v ->
  advances require m s s'
  /\ keys_kept (fun k' => k' <> k) m s s'
  /\ ((forall nd, heap s' !! m = Some nd -> is_plain_object (read_slot nd k) = false) ->
      (forall nd c, heap s' !! m = Some nd -> obj_get k (_controls nd) = Some c ->
                    clean_within s' c) ->
      settled_key require s' (fun c => settled require s' c v) m k v).
Proof.
  intros HQ H Ht Hrem Hnr Huk. unfold Set_key in H.
  destruct (heap s !! m) as [nd|] eqn:Hm; [|discriminate].
  assert (Hstay : s' = s ->
            advances require m s s' /\ keys_kept (fun k' => k' <> k) m s s').
  { intros ->. split; [now apply advances_refl|apply keys_kept_refl]. }
  unfold settled_key.
  destruct (String.eqb k "remove") eqn:Ek.
  { apply String.eqb_eq in Ek. rewrite (Hrem Ek) in H. injection H as <-.
    destruct Hstay as [A K]; [reflexivity|]. split; [assumption|]. split; [assumption|].
    intros _ _. exists nd. split; [assumption|]. auto. }
  destruct (not_internal k && negb (String.eqb k "controlType")) eqn:Epub.
  2:{ injection H as <-. destruct Hstay as [A K]; [reflexivity|].
      split; [assumption|]. split; [assumption|]. intros _ _. exists nd. auto. }
  destruct (negb (is_nullish (read_slot nd k)) && is_settable (read_slot nd k)) eqn:Htest.
  - destruct (acl_public nd k "Set") eqn:HSet.
    2:{ injection H as <-. destruct Hstay as [A K]; [reflexivity|].
        split; [assumption|]. split; [assumption|]. intros _ _.
        exists nd. split; [assumption|]. rewrite Htest, HSet. discriminate. }
    destruct (Set_key_property_step require _ _ _ _ _ _ Hm Htest H) as (CK & Hset).
    split; [now apply (advances_changes_key require k)|].
    split; [now apply (keys_kept_changes_key require)|].
    intros Hp1 _. destruct (Hset Hp1) as (nd' & Hm' & Htest' & Hrest).
    exists nd'. split; [assumption|]. now rewrite Htest'.
  - destruct (obj_get k (_controls nd)) as [c|] eqn:Hc.
    + destruct (HQ c s s' H Ht Hnr Huk) as (A & Hset).
      pose proof Ht as [Hpb Hch].
      destruct (Hch _ _ _ _ Hm (obj_get_Some_in _ _ _ Hc)) as (cd & Hcd & Hp & _).
      pose proof (Hpb _ _ _ Hcd Hp) as Hlt.
      split.
      { apply (advances_below _ _ c); [|assumption]. right. eapply ancestor_parent; eauto. }
      split; [eapply keys_kept_child; eauto|].
      intros _ Hp2.
      assert (Hu : untouched s s' m).
      { destruct A as (_ & _ & _ & Hout & _).
        apply Hout; [eapply lookup_lt_Some; eauto|]. intros Hw.
        pose proof (within_le _ _ _ Hpb Hw). lia. }
      destruct (untouched_lookup _ _ _ _ Hu Hm) as (nd' & Hm' & Hs).
      exists nd'. split; [assumption|]. rewrite (read_slot_shape _ _ _ Hs), Htest.
      destruct (shape_fields _ _ Hs) as (_ & _ & Ec & _).
      rewrite Ec, Hc. apply Hset. apply (Hp2 nd'); [assumption|]. now rewrite Ec.
    + destruct (negb (is_nullish v) && negb (is_nullish (member v "controlType"))) eqn:Ecr.
      2:{ injection H as <-. destruct Hstay as [A K]; [reflexivity|].
          split; [assumption|]. split; [assumption|]. intros _ _.
          exists nd. split; [assumption|]. now rewrite Htest, Hc. }
      destruct (Set_key_create_step require _ _ _ _ _ _ HQ Ht Hm Hnr Huk Htest H)
        as (A & K & Hcases).
      split; [assumption|]. split; [assumption|]. intros _ Hp2.
      destruct Hcases as [(-> & Hun)|(id & nd' & Hm' & Htest' & Hk' & Hset)].
      * exists nd. split; [assumption|]. now rewrite Htest, Hc.
      * exists nd'. split; [assumption|]. rewrite Htest', Hk'. apply Hset.
        now apply (Hp2 nd').
Qed.

(** The key loop of the first application. *)
Lemma Set_each_step require fs :
  List.Forall (fun kv => Set_sound require (snd kv)) fs ->
  forall m s s',
    Set_each require m fs s = Ok s' -> tree s ->
    no_remove (JObj KObject 0 fs) -> unique_keys (JObj KObject 0 fs) ->
    advances require m s s'
    /\ keys_kept (fun k' => ~ In k' (map fst fs)) m s s'
    /\ (clean_within s' m -> settled_each require s' m fs).
Proof.
  induction 1 as [|[k v] fs Hkv _ IH]; intros m s s' H Ht Hnr Huk.
  - injection H as <-. split; [now apply advances_refl|]. split; [apply keys_kept_refl|].
    intros _. exact I.
  - simpl in Hkv. cbn [Set_each] in H.
    destruct (Set_key require (fun c => Set_ require c v) m k v s) as [s1| |] eqn:Hkey;
      try discriminate.
    cbn [bind] in H. simpl in Hnr, Huk.
    destruct Hnr as (Hrem & Hnrv & Hnr'). destruct Huk as (Hnd & Hukv & Huk').
    apply List.NoDup_cons_iff in Hnd as [Hnotin Hnd'].
    destruct (Set_key_step require _ _ _ _ _ Hkv Hkey Ht Hrem Hnrv Hukv) as (A1 & K1 & S1).
    pose proof A1 as (Ht1 & _ & Hl1 & _).
    destruct (IH m s1 s' H Ht1 Hnr' (conj Hnd' Huk')) as (A2 & K2 & S2).
    pose proof A2 as (Ht2 & _ & Hl2 & _).
    split; [eapply advances_trans; eauto|]. split.
    { apply (keys_kept_trans require _ _ _ s1); [assumption| |].
      - eapply keys_kept_weaken; [|exact K1]. intros k' Hk' ->. apply Hk'. now left.
      - eapply keys_kept_weaken; [|exact K2]. intros k' Hk' Hin. apply Hk'. now right. }
    intros Hclean. cbn [settled_each]. split; [|now apply S2].
    destruct (K2 k Hnotin) as [Kk Ksub].
    assert (Hex : exists nd1, heap s1 !! m = Some nd1).
    { unfold Set_key in Hkey. destruct (heap s !! m) as [nd|] eqn:Hm; [|discriminate].
      destruct (Hl1 _ _ Hm) as (nd1 & Hm1 & _). eauto. }
    destruct Hex as [nd1 Hm1].
    destruct (Kk _ Hm1) as (nd' & Hm' & Es & Ep & Ec).
    destruct (Hl2 _ _ Hm1) as (nd0 & Hm0 & _ & _ & Ea & _).
    assert (nd0 = nd') by congruence. subst nd0.
    apply (settled_key_transfer require s1 s' (fun c => settled require s1 c v)
             (fun c => settled require s' c v) m k v nd1 nd'); auto.
    + intros c Hc. apply (settled_stable require s1 s' Ht1 Hl2).
      intros x Hx. eapply Ksub; eauto.
    + now apply unresolved_kept.
    + apply S1.
      * intros nd2 Hm2. assert (nd2 = nd1) by congruence. subst nd2.
        rewrite <- (read_slot_key nd1 nd' k Es Ep Ea).
        apply (Hclean m nd' k); [apply within_refl|assumption].
      * intros nd2 c Hm2 Hc x ndx k0 Hx Hndx.
        assert (nd2 = nd1) by congruence. subst nd2.
        destruct (untouched_lookup _ _ _ _ (Ksub _ _ _ Hm1 Hc Hx) Hndx)
          as (ndx' & Hndx' & Hs).
        rewrite <- (read_slot_shape _ _ k0 Hs). apply (Hclean x ndx' k0); [|assumption].
        apply (within_fwd require s1 s'); [assumption|].
        destruct Ht1 as [_ Hch1].
        destruct (Hch1 _ _ _ _ Hm1 (obj_get_Some_in _ _ _ Hc)) as (cd & Hcd & Hp & _).
        eapply within_child; eauto.
Qed.

Lemma Set_is_sound require : forall d, Set_sound require d.
Proof.
  induction d as [| |b|z| |str|kind r fs IH] using jsval_rect2; intros m s s' H Ht Hnr Huk;
    try (injection H as <-; split; [now apply advances_refl|intros _; exact I]).
  rewrite Set_unfold in H.
  destruct (Set_each_step require fs IH m s s' H Ht Hnr Huk) as (A & _ & S).
  split; [assumption|]. intros Hclean. rewrite settled_unfold. now apply S.
Qed.



(** * Further properties *)

(** ** Scoped emission and the log channel *)

Lemma emissions_app es1 es2 : emissions (es1 ++ es2) = emissions es1 ++ emissions es2.
Proof.
  induction es1 as [|[m ev p|id p snap] es1 IH]; simpl; [reflexivity| |assumption].
  now rewrite IH.
Qed.

Lemma emissions_calls cs : Forall is_call cs -> emissions cs = [].
Proof.
  induction 1 as [|[m ev p|id p snap] cs Hc _ IH]; simpl; [reflexivity| |assumption].
  destruct Hc.
Qed.

Lemma emissions_super_emit n ev p s :
  exists es, trace (super_emit n ev p s) = trace s ++ es /\ emissions es = [(n, ev, p)].
Proof.
  destruct (trace_super_emit n ev p s) as (cs & Htr & Hcs).
  exists (Emitted n ev p :: cs). split; [exact Htr|].
  simpl. now rewrite (emissions_calls cs Hcs).
Qed.

Lemma parents_below_skeleton s s' :
  skeleton s' = skeleton s -> parents_below s -> parents_below s'.
Proof.
  intros Hsk Hwf n nd' p Hn Hp.
  destruct (skeleton_lookup s' s n nd' (eq_sym Hsk) Hn) as (nd & Hn0 & He).
  apply erase_fields in He as (_ & _ & _ & _ & _ & Hpar & _).
  apply (Hwf n nd p Hn0). congruence.
Qed.

Lemma lineage_fuel_skeleton s s' :
  skeleton s' = skeleton s ->
  forall fuel n, lineage_fuel fuel s' n = lineage_fuel fuel s n.
Proof.
  intros Hsk. induction fuel as [|fuel IH]; intros n; [reflexivity|]. simpl.
  destruct (heap s !! n) as [nd|] eqn:Hn.
  - destruct (skeleton_lookup s s' n nd Hsk Hn) as (nd' & Hn' & He).
    apply erase_fields in He as (_ & _ & _ & _ & _ & Hpar & _).
    rewrite Hn', Hpar. destruct (_parent nd); [now rewrite IH|reflexivity].
  - destruct (heap s' !! n) as [nd'|] eqn:Hn'; [|reflexivity].
    destruct (skeleton_lookup s' s n nd' (eq_sym Hsk) Hn') as (nd & Hn0 & _). congruence.
Qed.

(** Under [parents_below], any fuel above [n] gives the same lineage. *)
Lemma lineage_fuel_enough s :
  parents_below s ->
  forall fuel fuel' n, n < fuel -> n < fuel' ->
                       lineage_fuel fuel s n = lineage_fuel fuel' s n.
Proof.
  intros Hwf. induction fuel as [|fuel IH]; intros fuel' n H1 H2; [lia|].
  destruct fuel' as [|fuel']; [lia|]. simpl.
  destruct (heap s !! n) as [nd|] eqn:Hn; [|reflexivity].
  destruct (_parent nd) as [p|] eqn:Hp; [|reflexivity].
  pose proof (Hwf n nd p Hn Hp). f_equal. apply IH; lia.
Qed.

Lemma lineage_spec s n m :
  parents_below s -> n < length (heap s) ->
  In m (lineage s n) <-> m = n \/ ancestor s m n.
Proof.
  intros Hwf. unfold lineage.
  assert (G : forall fuel n, n < fuel -> n < length (heap s) ->
                In m (lineage_fuel fuel s n) <-> m = n \/ ancestor s m n).
  { induction fuel as [|fuel IH]; intros x H1 H2; [lia|]. simpl.
    destruct (lookup_lt_is_Some_2 (heap s) x H2) as [nd Hx]. rewrite Hx.
    destruct (_parent nd) as [p|] eqn:Hp.
    - pose proof (Hwf x nd p Hx Hp) as Hlt.
      simpl. rewrite (IH p) by lia. split.
      + intros [E|[E|Ha]].
        * left. now symmetry.
        * right. rewrite E. now apply (ancestor_parent s x nd p).
        * right. now apply (ancestor_step s x nd p m).
      + intros [E|Ha]; [left; now symmetry|]. right.
        inversion Ha as [x' nd' p' Hx' Hp'|x' nd' p' q Hx' Hp' Hq]; subst.
        * left. congruence.
        * right. assert (p' = p) by congruence. now subst.
    - simpl. split.
      + intros [E|[]]. left. now symmetry.
      + intros [E|Ha]; [left; now symmetry|].
        inversion Ha as [x' nd' p' Hx' Hp'|x' nd' p' q Hx' Hp' Hq]; subst; congruence. }
  intros Hn. apply G; [exact Hn|exact Hn].
Qed.

Lemma emit_fuel_bubble ev payload :
  forall fuel s n,
    parents_below s -> n < fuel -> n < length (heap s) ->
    exists s' es,
      emit_fuel fuel n ev payload Bubble s = Ok s'
      /\ trace s' = trace s ++ es
      /\ emissions es = map (fun m => (m, ev, payload)) (lineage_fuel fuel s n)
      /\ skeleton s' = skeleton s.
Proof.
  induction fuel as [|fuel IH]; intros s n Hwf H1 H2; [lia|]. simpl.
  destruct (lookup_lt_is_Some_2 (heap s) n H2) as [nd Hn]. rewrite Hn.
  destruct (emissions_super_emit n ev payload s) as (es1 & Htr1 & Hem1).
  pose proof (skeleton_super_emit n ev payload s) as Hsk1.
  destruct (_parent nd) as [p|] eqn:Hp.
  - pose proof (Hwf n nd p Hn Hp) as Hlt.
    destruct (IH (super_emit n ev payload s) p) as (s' & es2 & Hrun & Htr2 & Hem2 & Hsk2).
    { now apply (parents_below_skeleton s). }
    { lia. }
    { rewrite (length_skeleton _ _ Hsk1). lia. }
    rewrite Hrun. simpl. exists s', (es1 ++ es2). split; [reflexivity|].
    split; [now rewrite Htr2, Htr1, app_assoc|].
    split; [|now rewrite Hsk2].
    rewrite emissions_app, Hem1, Hem2. simpl.
    now rewrite (lineage_fuel_skeleton _ _ Hsk1).
  - simpl. exists (super_emit n ev payload s), es1. repeat split; assumption.
Qed.



Lemma emit_unfold n ev payload sc s nd :
  heap s !! n = Some nd ->
  emit n ev payload sc s
  = (match sc, _parent nd with
     | Bubble, Some p =>
         emit_fuel (length (heap s) - 1) p ev payload sc
           (match sc with
            | Local | LocalTop | Bubble => super_emit n ev payload s
            | Top => s
            end)
     | _, _ => Ok (match sc with
                   | Local | LocalTop | Bubble => super_emit n ev payload s
                   | Top => s
                   end)
     end) >>= fun s2 =>
    match sc with
    | Top | LocalTop =>
        match _topLevelParent nd with
        | Some t => Ok (super_emit t ev payload s2)
        | None => Throw s2
        end
    | _ => Ok s2
    end.
Proof.
  intros Hn. unfold emit. pose proof (lookup_lt_Some _ _ _ Hn) as Hlt.
  destruct (length (heap s)) as [|fuel] eqn:E; [lia|]. simpl. rewrite Hn.
  now rewrite Nat.sub_0_r.
Qed.



(** X3. A control that belongs to no container (one made by [new dm()]) has
    no top-level parent: [top], [local_top] and [Log] raise an exception
    there, [local_top] after the local listeners have run. *)
Theorem emit_without_container_throws (s : state) (n : nat) (nd : node) (ev : string)
    (payload : data) (class_name : string) (message : jsval) :
  heap s !! n = Some nd ->
  _topLevelParent nd = None ->
  emit n ev payload Top s = Throw s
  /\ emit n ev payload LocalTop s = Throw (super_emit n ev payload s)
  /\ Log class_name n message s = Throw s.
Proof.
  intros Hn Ht. split; [|split].
  - rewrite (emit_unfold n ev payload Top s nd Hn). destruct (_parent nd); simpl; now rewrite Ht.
  - rewrite (emit_unfold n ev payload LocalTop s nd Hn).
    destruct (_parent nd); simpl; now rewrite Ht.
  - unfold Log. now rewrite Hn, Ht.
Qed.

Lemma emit_without_container_throws_witness :
  let s := mkState [blank "dm"] [] in
  emit 0 "tick" (DVal JNull) Top s = Throw s
  /\ emit 0 "tick" (DVal JNull) LocalTop s = Throw (super_emit 0 "tick" (DVal JNull) s)
  /\ Log "dm" 0 (JStr "started") s = Throw s.
Proof.
  cbv zeta.
  eapply (emit_without_container_throws (mkState [blank "dm"] []) 0 _ "tick" (DVal JNull)
            "dm" (JStr "started")); reflexivity.
Defined.



(** ** Subscription with [immediate] *)

Lemma listeners_add_listener m e l s md :
  heap s !! m = Some md ->
  forall m' e', listeners (add_listener m e l s) m' e'
                = if decide (m = m' /\ e = e') then listeners s m e ++ [l]
                  else listeners s m' e'.
Proof.
  intros Hm m' e'. unfold add_listener, listeners. rewrite lookup_upd.
  destruct (decide (m = m')) as [<-|Hmm].
  - rewrite Hm. simpl. destruct (decide (e = e')) as [<-|Hee].
    + rewrite obj_get_set_eq, decide_True by auto. now destruct (obj_get e (_events md)).
    + rewrite obj_get_set_ne by congruence. now rewrite decide_False by tauto.
  - now rewrite decide_False by tauto.
Qed.

Lemma upd_missing n f s : heap s !! n = None -> upd n f s = s.
Proof.
  intros H. destruct s as [h t]. unfold upd. simpl in *. f_equal.
  apply list_eq. intros i. destruct (decide (n = i)) as [->|Hne].
  - now rewrite list_lookup_alter_eq, H.
  - now rewrite list_lookup_alter_ne.
Qed.

Lemma skeleton_upd_events_gen n (f : node -> node) s :
  (forall nd, erase (f nd) = erase nd) -> skeleton (upd n f s) = skeleton s.
Proof.
  intros Hf. unfold skeleton, upd. simpl. apply list_eq. intros i.
  rewrite !list_lookup_fmap. destruct (decide (n = i)) as [->|Hne].
  - rewrite list_lookup_alter_eq. destruct (heap s !! i); simpl; [|reflexivity].
    now rewrite Hf.
  - now rewrite list_lookup_alter_ne.
Qed.

Lemma skeleton_add_listener m e l s : skeleton (add_listener m e l s) = skeleton s.
Proof. unfold add_listener. apply skeleton_upd_events_gen. intros nd. reflexivity. Qed.

Lemma registrations_add_other l l' m e s n ev :
  l <> l' ->
  registrations l (listeners (add_listener m e l' s) n ev)
  = registrations l (listeners s n ev).
Proof.
  intros Hne. destruct (heap s !! m) as [md|] eqn:Hm.
  - rewrite (listeners_add_listener m e l' s md Hm).
    destruct (decide (m = n /\ e = ev)) as [[<- <-]|]; [|reflexivity].
    rewrite registrations_app. unfold registrations at 2. simpl.
    rewrite (listener_eqb_neq l l' Hne). simpl. lia.
  - unfold add_listener. now rewrite (upd_missing m _ s Hm).
Qed.



(** ** Access control *)

Lemma obj_set_set {A : Type} k (v w : A) o : obj_set k w (obj_set k v o) = obj_set k w o.
Proof.
  induction o as [|[k' v'] o IH]; simpl.
  - now rewrite String.eqb_refl.
  - destruct (String.eqb k k') eqn:E; simpl; rewrite E; [reflexivity|now rewrite IH].
Qed.

Lemma upd_ext n f g s nd : heap s !! n = Some nd -> f nd = g nd -> upd n f s = upd n g s.
Proof.
  intros H Hfg. destruct s as [h t]. unfold upd. simpl in *. f_equal.
  apply list_eq. intros i. destruct (decide (n = i)) as [->|Hne].
  - rewrite !list_lookup_alter_eq, H. simpl. now rewrite Hfg.
  - now rewrite !list_lookup_alter_ne.
Qed.

(** X6. [SetAccess] replaces the whole entry of a property, so that the
    channels the new entry does not name are open again; and once an
    entry closes the [getter] channel, the property reads as [undefined]
    and every later [SetAccess] on it is ignored. *)
Theorem SetAccess_twice (s : state) (n : nat) (nd : node) (k : string) (a1 a2 : jsval) :
  heap s !! n = Some nd ->
  obj_get k (slots nd) = Some Accessor ->
  is_nullish (prop_value nd k) = false ->
  acl_public nd k "getter" = true ->
  SetAccess n k a2 (SetAccess n k a1 s)
  = if acl_public (with_acl (obj_set k a1) nd) k "getter"
    then SetAccess n k a2 s
    else SetAccess n k a1 s.
Proof.
  intros Hn Hslot Hval Hget.
  assert (H1 : SetAccess n k a1 s = upd n (with_acl (obj_set k a1)) s).
  { unfold SetAccess, get_prop. rewrite Hn. unfold read_slot. rewrite Hslot.
    unfold getter. now rewrite Hget, Hval. }
  assert (H2 : SetAccess n k a2 s = upd n (with_acl (obj_set k a2)) s).
  { unfold SetAccess, get_prop. rewrite Hn. unfold read_slot. rewrite Hslot.
    unfold getter. now rewrite Hget, Hval. }
  rewrite H1, H2. unfold SetAccess at 1. unfold get_prop.
  rewrite (lookup_upd_eq _ _ _ _ Hn). unfold read_slot at 1.
  change (slots (with_acl (obj_set k a1) nd)) with (slots nd). rewrite Hslot.
  unfold getter. destruct (acl_public (with_acl (obj_set k a1) nd) k "getter").
  - change (prop_value (with_acl (obj_set k a1) nd) k) with (prop_value nd k).
    rewrite Hval. simpl. rewrite upd_upd.
    apply (upd_ext n _ _ s nd Hn). unfold with_acl. simpl. now rewrite obj_set_set.
  - reflexivity.
Qed.

Lemma SetAccess_twice_witness :
  let closed := obj 5 [("getter", JStr "none")] in
  let opened := obj 6 [("getter", JStr "public")] in
  let partial := obj 7 [("Set", JStr "none")] in
  SetAccess 2 "windows" opened (SetAccess 2 "windows" closed demo_state)
  = SetAccess 2 "windows" closed demo_state
  /\ SetAccess 2 "windows" opened (SetAccess 2 "windows" partial demo_state)
     = SetAccess 2 "windows" opened demo_state.
Proof.
  cbv zeta. split.
  - exact (SetAccess_twice demo_state 2 _ "windows" (obj 5 [("getter", JStr "none")])
             (obj 6 [("getter", JStr "public")]) eq_refl eq_refl eq_refl eq_refl).
  - exact (SetAccess_twice demo_state 2 _ "windows" (obj 7 [("Set", JStr "none")])
             (obj 6 [("getter", JStr "public")]) eq_refl eq_refl eq_refl eq_refl).
Defined.

(** X7. A property whose [Set] channel is closed is left alone by [Set]; a
    property whose [setter] channel is closed is read-only: neither a
    direct assignment nor [Set], which assigns through the setter,
    changes its value or emits anything. *)
Theorem closed_channels_are_silent (require : string -> option cdecl) (s : state)
    (n : nat) (nd : node) (k : string) (v : jsval) (kind : okind) (r : nat) :
  heap s !! n = Some nd ->
  obj_get k (slots nd) = Some Accessor ->
  k <> "remove" ->
  is_settable (read_slot nd k) = true ->
  (acl_public nd k "Set" = false ->
   Set_ require n (JObj kind r [(k, v)]) s = Ok s)
  /\ (acl_public nd k "setter" = false ->
      (forall w, put_prop n k w s = Ok (upd n (with_bypass false) s))
      /\ exists s',
          Set_ require n (JObj kind r [(k, v)]) s = Ok s'
          /\ shape_of s' = shape_of s /\ trace s' = trace s).
Proof.
  intros Hn Hslot Hrem Hread.
  pose proof (is_settable_not_nullish _ Hread) as Hnn.
  assert (Hkey : Set_ require n (JObj kind r [(k, v)]) s
                 = if not_internal k && negb (String.eqb k "controlType")
                   then if acl_public nd k "Set"
                        then put_prop n k (coerce v) (upd n (with_bypass true) s)
                        else Ok s
                   else Ok s).
  { rewrite Set_single. unfold Set_key. rewrite Hn, (eqb_neq_false _ _ Hrem).
    now rewrite Hnn, Hread. }
  split.
  - intros HSet. rewrite Hkey, HSet. now destruct (_ && _).
  - intros Hsetter.
    assert (Hput : forall w s0 nd0,
               heap s0 !! n = Some nd0 -> slots nd0 = slots nd -> _acl nd0 = _acl nd ->
               put_prop n k w s0 = Ok (upd n (with_bypass false) s0)).
    { intros w s0 nd0 H0 Hs Ha. unfold put_prop, setter. rewrite H0, Hs, Hslot.
      assert (E : acl_public nd0 k "setter" = false).
      { unfold acl_public, acl_entry in *. now rewrite Ha. }
      rewrite E. destruct (negb (loose_eq (prop_value nd0 k) w)); reflexivity. }
    split; [intros w; now apply (Hput w s nd)|].
    rewrite Hkey. destruct (not_internal k && negb (String.eqb k "controlType")).
    + destruct (acl_public nd k "Set").
      * rewrite (Hput (coerce v) (upd n (with_bypass true) s) (with_bypass true nd));
          [|now apply lookup_upd_eq|reflexivity|reflexivity].
        eexists. split; [reflexivity|]. split; [|reflexivity].
        rewrite upd_upd. apply shape_of_upd. intros nd0. reflexivity.
      * exists s. repeat split.
    + exists s. repeat split.
Qed.

Lemma closed_channels_are_silent_witness :
  let s := SetAccess 2 "windows" (obj 5 [("setter", JStr "none")]) demo_state in
  (forall w, put_prop 2 "windows" w s = Ok (upd 2 (with_bypass false) s))
  /\ exists s',
      Set_ demo_require 2 (obj 9 [("windows", JNum 7)]) s = Ok s'
      /\ shape_of s' = shape_of s /\ trace s' = trace s.
Proof.
  cbv zeta.
  refine (proj2 (closed_channels_are_silent demo_require
                   (SetAccess 2 "windows" (obj 5 [("setter", JStr "none")]) demo_state)
                   2 _ "windows" (JNum 7) KObject 9 eq_refl eq_refl _ eq_refl) eq_refl).
  discriminate.
Defined.

(** ** The accessor generator *)

Lemma generate_accessors_fold control :
  generate_accessors control = fold_left generate_step (map fst (slots control)) control.
Proof. reflexivity. Qed.

Lemma generate_step_acl nd k1 : _acl (generate_step nd k1) = _acl nd.
Proof. unfold generate_step. now destruct (_ && _). Qed.

Lemma generate_step_other nd k1 k :
  k <> k1 ->
  obj_get k (slots (generate_step nd k1)) = obj_get k (slots nd)
  /\ obj_get k (_properties (generate_step nd k1)) = obj_get k (_properties nd).
Proof.
  intros Hne. unfold generate_step. destruct (_ && _); [|now split].
  simpl. now rewrite !obj_get_set_ne.
Qed.

Lemma read_slot_same nd nd' k :
  obj_get k (slots nd') = obj_get k (slots nd) ->
  obj_get k (_properties nd') = obj_get k (_properties nd) ->
  _acl nd' = _acl nd ->
  read_slot nd' k = read_slot nd k.
Proof.
  intros Hs Hp Ha. unfold read_slot, getter, acl_public, acl_entry, prop_value.
  now rewrite Hs, Hp, Ha.
Qed.

Lemma generate_step_read_other nd k1 k :
  k <> k1 -> read_slot (generate_step nd k1) k = read_slot nd k.
Proof.
  intros Hne. destruct (generate_step_other nd k1 k Hne) as [Hs Hp].
  apply read_slot_same; [exact Hs|exact Hp|apply generate_step_acl].
Qed.

Lemma generate_step_accessor nd k1 k :
  obj_get k (slots (generate_step nd k1)) = Some Accessor
  <-> obj_get k (slots nd) = Some Accessor
      \/ (k = k1 /\ not_internal k = true /\ is_settable (read_slot nd k) = true).
Proof.
  destruct (String.eqb_spec k k1) as [->|Hne].
  - unfold generate_step. destruct (not_internal k1 && is_settable (read_slot nd k1)) eqn:E.
    + simpl. rewrite obj_get_set_eq. apply andb_true_iff in E. tauto.
    + apply andb_false_iff in E. split; [tauto|].
      intros [H|(_ & H1 & H2)]; [exact H|]. destruct E; congruence.
  - rewrite (proj1 (generate_step_other nd k1 k Hne)). tauto.
Qed.

Lemma generate_fold_accessor k : forall ks nd,
  obj_get k (slots (fold_left generate_step ks nd)) = Some Accessor
  <-> obj_get k (slots nd) = Some Accessor
      \/ (In k ks /\ not_internal k = true /\ is_settable (read_slot nd k) = true).
Proof.
  induction ks as [|k1 ks IH]; intros nd; simpl; [tauto|].
  rewrite IH, generate_step_accessor.
  destruct (String.eqb_spec k k1) as [->|Hne].
  - split.
    + intros [[H|H]|(Hin & Hni & Hs)]; [tauto|right; tauto|].
      unfold generate_step in Hs.
      destruct (not_internal k1 && is_settable (read_slot nd k1)) eqn:E.
      * apply andb_true_iff in E. right. tauto.
      * right. tauto.
    + intros [H|(_ & Hni & Hs)]; [tauto|]. left. right. tauto.
  - rewrite (generate_step_read_other nd k1 k Hne). split.
    + intros [[H|(E & _)]|(Hin & H)]; [tauto|contradiction|right; tauto].
    + intros [H|([E|Hin] & H)]; [tauto|congruence|right; tauto].
Qed.

Lemma generate_step_read nd k1 k :
  acl_public nd k "getter" = true ->
  read_slot (generate_step nd k1) k = read_slot nd k.
Proof.
  intros Hopen. destruct (String.eqb_spec k k1) as [->|Hne];
    [|now apply generate_step_read_other].
  unfold generate_step. destruct (not_internal k1 && is_settable (read_slot nd k1));
    [|reflexivity].
  unfold read_slot at 1. simpl. rewrite obj_get_set_eq. unfold getter.
  assert (E : acl_public
                (with_slots (obj_set k1 Accessor)
                   (with_properties (obj_set k1 (read_slot nd k1)) nd)) k1 "getter"
              = acl_public nd k1 "getter") by reflexivity.
  rewrite E, Hopen. unfold prop_value. simpl. now rewrite obj_get_set_eq.
Qed.

Lemma generate_fold_read k : forall ks nd,
  acl_public nd k "getter" = true ->
  read_slot (fold_left generate_step ks nd) k = read_slot nd k.
Proof.
  induction ks as [|k1 ks IH]; intros nd Hopen; simpl; [reflexivity|].
  rewrite IH.
  - now apply generate_step_read.
  - unfold acl_public, acl_entry in *. now rewrite generate_step_acl.
Qed.

Lemma generate_step_registry nd k1 k v :
  obj_get k (slots nd) = Some Accessor -> prop_value nd k = v -> is_settable v = true ->
  obj_get k (slots (generate_step nd k1)) = Some Accessor
  /\ prop_value (generate_step nd k1) k = v.
Proof.
  intros Hs Hp Hv. destruct (String.eqb_spec k k1) as [->|Hne].
  - unfold generate_step. destruct (not_internal k1 && is_settable (read_slot nd k1)) eqn:E;
      [|now split].
    simpl. rewrite obj_get_set_eq. split; [reflexivity|].
    unfold prop_value. simpl. rewrite obj_get_set_eq.
    apply andb_true_iff in E as [_ E]. unfold read_slot in *. rewrite Hs in *.
    unfold getter in *. destruct (acl_public nd k1 "getter"); [assumption|].
    discriminate.
  - destruct (generate_step_other nd k1 k Hne) as [Hs' Hp']. split; [congruence|].
    unfold prop_value in *. now rewrite Hp'.
Qed.

Lemma generate_fold_registry k v : forall ks nd,
  obj_get k (slots nd) = Some Accessor -> prop_value nd k = v -> is_settable v = true ->
  prop_value (fold_left generate_step ks nd) k = v.
Proof.
  induction ks as [|k1 ks IH]; intros nd Hs Hp Hv; simpl; [exact Hp|].
  destruct (generate_step_registry nd k1 k v Hs Hp Hv) as [Hs' Hp'].
  now apply IH.
Qed.

Lemma generate_fold_field k v : forall ks nd,
  obj_get k (slots nd) = Some (Field v) -> In k ks ->
  not_internal k = true -> is_settable v = true ->
  prop_value (fold_left generate_step ks nd) k = v.
Proof.
  induction ks as [|k1 ks IH]; intros nd Hs Hin Hni Hv; [destruct Hin|]. simpl.
  destruct (String.eqb_spec k k1) as [<-|Hne].
  - apply generate_fold_registry; [| |exact Hv].
    + unfold generate_step, read_slot. rewrite Hs, Hni, Hv. simpl. apply obj_get_set_eq.
    + unfold generate_step, read_slot. rewrite Hs, Hni, Hv. simpl.
      unfold prop_value. simpl. now rewrite obj_get_set_eq.
  - destruct Hin as [E|Hin]; [congruence|].
    apply IH; try assumption.
    now rewrite (proj1 (generate_step_other nd k1 k Hne)).
Qed.

(** X8. The accessor generator turns into an observable property exactly the
    public fields that hold a number, a string, a boolean or an array;
    the registry then holds the value of the field, and the member reads
    as before (unless the class has closed its getter). *)
Theorem generated_accessors (control : node) (k : string) :
  (obj_get k (slots (generate_accessors control)) = Some Accessor
   <-> obj_get k (slots control) = Some Accessor
       \/ (not_internal k = true /\ is_settable (read_slot control k) = true))
  /\ (forall v, obj_get k (slots control) = Some (Field v) ->
                not_internal k = true -> is_settable v = true ->
                prop_value (generate_accessors control) k = v)
  /\ (acl_public control k "getter" = true ->
      read_slot (generate_accessors control) k = read_slot control k).
Proof.
  rewrite generate_accessors_fold. split; [|split].
  - rewrite generate_fold_accessor. split.
    + intros [H|(_ & H)]; tauto.
    + intros [H|[Hni Hs]]; [tauto|]. right. split; [|tauto].
      unfold read_slot in Hs. destruct (obj_get k (slots control)) as [sl|] eqn:E.
      * apply obj_get_Some_in in E. apply (in_map fst) in E. exact E.
      * discriminate.
  - intros v Hs Hni Hv. apply generate_fold_field; try assumption.
    apply obj_get_Some_in in Hs. apply (in_map fst) in Hs. exact Hs.
  - apply generate_fold_read.
Qed.

Lemma generated_accessors_witness :
  let room := new_control (mkClass "room" [("doors", JNum 1); ("_secret", JNum 2);
                                            ("plan", JNull)] []) in
  obj_get "doors" (slots (generate_accessors room)) = Some Accessor
  /\ prop_value (generate_accessors room) "doors" = JNum 1
  /\ read_slot (generate_accessors room) "doors" = JNum 1
  /\ obj_get "_secret" (slots (generate_accessors room)) = Some (Field (JNum 2))
  /\ obj_get "plan" (slots (generate_accessors room)) = Some (Field JNull).
Proof.
  cbv zeta.
  set (room := new_control (mkClass "room" [("doors", JNum 1); ("_secret", JNum 2);
                                             ("plan", JNull)] [])).
  destruct (generated_accessors room "doors") as (H1 & H2 & H3).
  split; [apply H1; right; split; reflexivity|].
  split; [apply (H2 (JNum 1)); reflexivity|].
  split; [apply H3; reflexivity|].
  split; reflexivity.
Defined.

(** ** What [Set] keeps *)

Lemma In_obj_delete {A : Type} k k' (v : A) o : In (k, v) (obj_delete k' o) -> In (k, v) o.
Proof.
  induction o as [|[k0 v0] o IH]; simpl; [tauto|].
  destruct (String.eqb k' k0); simpl; [tauto|]. intros [E|H]; [now left|right; now apply IH].
Qed.

Lemma kept_refl s : kept s s.
Proof.
  split; [|split; [|split]]; auto.
  intros x nd H. exists nd. repeat split; assumption.
Qed.

Lemma kept_trans s1 s2 s3 : kept s1 s2 -> kept s2 s3 -> kept s1 s3.
Proof.
  intros (I1 & P1 & T1 & C1) (I2 & P2 & T2 & C2). split; [|split; [|split]]; auto.
  intros x nd H. destruct (I1 x nd H) as (nd2 & H2 & A & B & C & D).
  destruct (I2 x nd2 H2) as (nd3 & H3 & A' & B' & C' & D').
  exists nd3. repeat split; congruence.
Qed.

Lemma links_same_back s s' x nd' :
  links_same s s' -> heap s' !! x = Some nd' ->
  exists nd, heap s !! x = Some nd
             /\ _controlName nd' = _controlName nd
             /\ _parent nd' = _parent nd
             /\ _topLevelParent nd' = _topLevelParent nd
             /\ forall k c, In (k, c) (_controls nd') -> In (k, c) (_controls nd).
Proof.
  intros [Hlen Hl] Hx'. pose proof (lookup_lt_Some _ _ _ Hx') as Hlt. rewrite Hlen in Hlt.
  destruct (lookup_lt_is_Some_2 _ _ Hlt) as [nd Hx].
  destruct (Hl x nd Hx) as (nd0 & Hx0 & A & B & C & _ & D).
  assert (nd0 = nd') by congruence. subst nd0. exists nd. repeat split; assumption.
Qed.

Lemma kept_links s s' : links_same s s' -> kept s s'.
Proof.
  intros Hl. split; [|split; [|split]].
  - intros x nd Hx. destruct (proj2 Hl x nd Hx) as (nd' & Hx' & A & B & C & D & _).
    exists nd'. repeat split; assumption.
  - intros Hwf x nd' p Hx' Hp.
    destruct (links_same_back s s' x nd' Hl Hx') as (nd & Hx & _ & B & _).
    apply (Hwf x nd p Hx). congruence.
  - intros [Hwf Hch]. split.
    + intros x nd' p Hx' Hp.
      destruct (links_same_back s s' x nd' Hl Hx') as (nd & Hx & _ & B & _).
      apply (Hwf x nd p Hx). congruence.
    + intros x nd' k c Hx' Hin.
      destruct (links_same_back s s' x nd' Hl Hx') as (nd & Hx & _ & _ & _ & D).
      destruct (Hch x nd k c Hx (D k c Hin)) as (cd & Hc & Hp & Hname).
      destruct (proj2 Hl c cd Hc) as (cd' & Hc' & A & B & _).
      exists cd'. repeat split; congruence.
  - intros t Hct x nd' Hx'.
    destruct (links_same_back s s' x nd' Hl Hx') as (nd & Hx & _ & _ & C & _).
    rewrite C. now apply (Hct x nd).
Qed.

Lemma links_same_upd n f s :
  (forall nd, _controlName (f nd) = _controlName nd /\ _parent (f nd) = _parent nd
              /\ _topLevelParent (f nd) = _topLevelParent nd /\ _acl (f nd) = _acl nd
              /\ forall k c, In (k, c) (_controls (f nd)) -> In (k, c) (_controls nd)) ->
  links_same s (upd n f s).
Proof.
  intros Hf. split; [unfold upd; simpl; apply length_alter|].
  intros x nd H. rewrite lookup_upd. destruct (decide (n = x)) as [->|Hne].
  - rewrite H. simpl. exists (f nd). split; [reflexivity|]. apply Hf.
  - exists nd. repeat split; auto.
Qed.

Lemma links_same_skeleton s s' : skeleton s' = skeleton s -> links_same s s'.
Proof.
  intros Hsk. split; [now apply length_skeleton|].
  intros x nd H. destruct (skeleton_lookup s s' x nd Hsk H) as (nd' & H' & He).
  apply erase_fields in He as (_ & A & E & _ & B & C & D & _).
  exists nd'. repeat split; try assumption. intros k c. now rewrite E.
Qed.

Lemma steady_Ok s s' : kept s s' -> steady (Ok s') s.
Proof. intros Hk. split; [|discriminate]. now intros s0 [[= <-]|[=]]. Qed.

Lemma steady_Throw s s' : kept s s' -> steady (Throw s') s.
Proof. intros Hk. split; [|discriminate]. now intros s0 [[=]|[= <-]]. Qed.

Lemma steady_bind r f s :
  steady r s -> (forall s1, r = Ok s1 -> steady (f s1) s1) -> steady (r >>= f) s.
Proof.
  intros [Hr Hfuel] Hf. destruct r as [s1|s1|]; simpl.
  - pose proof (Hr s1 (or_introl eq_refl)) as Hk.
    destruct (Hf s1 eq_refl) as [Hr1 Hfuel1]. split.
    + intros s' H. apply (kept_trans s s1 s' Hk). now apply Hr1.
    + intros Hwf. apply Hfuel1. now apply (proj1 (proj2 Hk)).
  - split; [|discriminate]. intros s' [[=]|[= <-]]. apply (Hr s1). now right.
  - split; [|exact Hfuel]. intros s' [[=]|[=]].
Qed.

Lemma steady_after r s s1 : kept s s1 -> steady r s1 -> steady r s.
Proof.
  intros Hk [Hr Hfuel]. split.
  - intros s' H. apply (kept_trans s s1 s' Hk). now apply Hr.
  - intros Hwf. apply Hfuel. now apply (proj1 (proj2 Hk)).
Qed.

Ltac fields_kept := intros ?; repeat split; solve [reflexivity | auto].

Lemma kept_upd n f s :
  (forall nd, _controlName (f nd) = _controlName nd /\ _parent (f nd) = _parent nd
              /\ _topLevelParent (f nd) = _topLevelParent nd /\ _acl (f nd) = _acl nd
              /\ forall k c, In (k, c) (_controls (f nd)) -> In (k, c) (_controls nd)) ->
  kept s (upd n f s).
Proof. intros Hf. now apply kept_links, links_same_upd. Qed.

Lemma kept_skeleton s s' : skeleton s' = skeleton s -> kept s s'.
Proof. intros H. now apply kept_links, links_same_skeleton. Qed.

Lemma _notify_fuel_outcome fuel : forall n delta s s',
  _notify_fuel fuel n delta s = Ok s' \/ _notify_fuel fuel n delta s = Throw s' ->
  skeleton s' = skeleton s.
Proof.
  induction fuel as [|fuel IH]; intros n delta s s' H; [destruct H; discriminate|].
  rewrite _notify_fuel_S in H. destruct (heap s !! n) as [nd|].
  2:{ destruct H as [[=]|[= <-]]. reflexivity. }
  destruct (_parent nd) as [p|].
  - destruct (negb (hidden s n)).
    + destruct (_notify_fuel fuel p (DObj [(_controlName nd, delta)]) s) as [s1|s1|] eqn:E;
        simpl in H.
      * destruct H as [[= <-]|[=]]. rewrite skeleton_super_emit. apply (IH _ _ _ _ (or_introl E)).
      * destruct H as [[=]|[= <-]]. apply (IH _ _ _ _ (or_intror E)).
      * destruct H; discriminate.
    + simpl in H. destruct H as [[= <-]|[=]]. apply skeleton_super_emit.
  - simpl in H. destruct H as [[= <-]|[=]]. apply skeleton_super_emit.
Qed.

Lemma NotifyProperty_steady n ns s : steady (NotifyProperty n ns s) s.
Proof.
  unfold NotifyProperty. destruct (heap s !! n) as [nd|] eqn:Hn.
  - unfold _notify. split.
    + intros s' H. apply _notify_fuel_outcome in H. now apply kept_skeleton.
    + intros Hwf. pose proof (lookup_lt_Some _ _ _ Hn) as Hlt.
      destruct (_notify_fuel_total s Hwf (length (heap s)) n
                  (DObj (notify_delta s n nd ns)) Hlt Hlt) as (s' & Hrun & _).
      rewrite Hrun. discriminate.
  - apply steady_Throw, kept_refl.
Qed.

Lemma put_prop_steady n k v s : steady (put_prop n k v s) s.
Proof.
  unfold put_prop. destruct (heap s !! n) as [nd|] eqn:Hn.
  2:{ apply steady_Throw, kept_refl. }
  destruct (obj_get k (slots nd)) as [[|w]|];
    try (apply steady_Ok, kept_upd; fields_kept).
  unfold setter. rewrite Hn. apply steady_bind.
  - destruct (negb (loose_eq (prop_value nd k) v)).
    + destruct (acl_public nd k "setter").
      * apply (steady_after _ s (upd n (with_properties (obj_set k v)) s)).
        { apply kept_upd. fields_kept. }
        apply steady_bind.
        -- destruct (negb (_bypassNotify nd)).
           ++ apply NotifyProperty_steady.
           ++ apply steady_Ok, kept_upd. fields_kept.
        -- intros s1 _. apply steady_Ok, kept_skeleton, skeleton_super_emit.
      * apply steady_Ok, kept_refl.
    + apply steady_Ok, kept_refl.
  - intros s1 _. apply steady_Ok, kept_upd. fields_kept.
Qed.

Lemma RemoveChild_kept this control s : kept s (RemoveChild this control s).
Proof.
  unfold RemoveChild. destruct (heap s !! this) as [nd|]; [|apply kept_refl].
  destruct (obj_get control (_controls nd)) as [c|]; [|apply kept_refl].
  cbv zeta.
  eapply kept_trans; [apply kept_skeleton, (skeleton_super_emit c "remove" (DVal (VCtl c)))|].
  eapply kept_trans.
  { apply (kept_upd this (with_controls (obj_delete control))).
    intros nd0. repeat split. intros k c0. apply In_obj_delete. }
  eapply kept_trans; [apply (kept_upd this (with_slots (obj_delete control))); fields_kept|].
  unfold removeAllListeners. apply kept_upd. fields_kept.
Qed.

Lemma _getDynamicClass_steady require n name s :
  match _getDynamicClass require n name s with
  | Found _ s' => kept s s'
  | NotFound s' | Raised s' => s' = s
  end.
Proof.
  unfold _getDynamicClass. destruct (heap s !! n) as [nd|]; [|reflexivity].
  destruct (_topLevelParent nd) as [tp|]; [|reflexivity].
  destruct (heap s !! tp) as [tpn|]; [|reflexivity].
  destruct (obj_get (to_string name) (_cls_ tpn)) as [c0|]; [apply kept_refl|].
  destruct name; try reflexivity.
  destruct (single_word s0); [|reflexivity].
  destruct (require s0); [|reflexivity].
  apply kept_upd. fields_kept.
Qed.

(** Allocation of a control under [this] and its entry in the children
    mapping of [this]. *)
Lemma kept_attach s control this nd k :
  heap s !! this = Some nd ->
  _parent control = Some this -> _controlName control = k -> _controls control = [] ->
  _topLevelParent control = _topLevelParent nd ->
  kept s (upd this (with_controls (obj_set k (length (heap s))))
            (mkState (heap s ++ [control]) (trace s))).
Proof.
  intros Hthis Hpar Hname Hcs Htop.
  set (s2 := mkState (heap s ++ [control]) (trace s)).
  set (s3 := upd this (with_controls (obj_set k (length (heap s)))) s2).
  pose proof (lookup_lt_Some _ _ _ Hthis) as Hlt.
  assert (Hold : forall x nd0, heap s !! x = Some nd0 ->
             heap s3 !! x = Some (if decide (this = x)
                                  then with_controls (obj_set k (length (heap s))) nd0
                                  else nd0)).
  { intros x nd0 Hx. unfold s3. rewrite lookup_upd. unfold s2. simpl.
    rewrite lookup_app_l by (now apply lookup_lt_Some in Hx). rewrite Hx.
    now destruct (decide (this = x)). }
  assert (Hnew : heap s3 !! length (heap s) = Some control).
  { unfold s3. rewrite lookup_upd_ne by lia. unfold s2. simpl.
    rewrite lookup_app_r by lia. now rewrite Nat.sub_diag. }
  assert (Hlen : length (heap s3) = S (length (heap s))).
  { unfold s3, upd, s2. simpl. rewrite length_alter, length_app. simpl. lia. }
  assert (Hcases : forall x nd', heap s3 !! x = Some nd' ->
             (exists nd0, heap s !! x = Some nd0
                          /\ nd' = if decide (this = x)
                                   then with_controls (obj_set k (length (heap s))) nd0
                                   else nd0)
             \/ (x = length (heap s) /\ nd' = control)).
  { intros x nd' Hx. pose proof (lookup_lt_Some _ _ _ Hx) as Hx3. rewrite Hlen in Hx3.
    destruct (decide (x = length (heap s))) as [->|Hne].
    - right. split; [reflexivity|]. congruence.
    - left. destruct (lookup_lt_is_Some_2 (heap s) x) as [nd0 H0]; [lia|].
      exists nd0. split; [exact H0|]. rewrite (Hold x nd0 H0) in Hx. congruence. }
  split; [|split; [|split]].
  - intros x nd0 Hx. rewrite (Hold x nd0 Hx). eexists. split; [reflexivity|].
    destruct (decide (this = x)); repeat split.
  - intros Hwf x nd' p Hx Hp.
    destruct (Hcases x nd' Hx) as [(nd0 & H0 & ->)|[-> ->]].
    + apply (Hwf x nd0 p H0). now destruct (decide (this = x)).
    + rewrite Hpar in Hp. injection Hp as <-. exact Hlt.
  - intros Ht.
    destruct (attach_step (fun _ => None) s this nd k control Ht Hthis Hpar Hname Hcs)
      as ((Ht3 & _) & _). exact Ht3.
  - intros t Hct x nd' Hx.
    destruct (Hcases x nd' Hx) as [(nd0 & H0 & ->)|[-> ->]].
    + pose proof (Hct x nd0 H0). now destruct (decide (this = x)).
    + rewrite Htop. now apply (Hct this nd).
Qed.

Lemma generate_accessors_top control :
  _topLevelParent (generate_accessors control) = _topLevelParent control.
Proof.
  rewrite generate_accessors_fold. generalize (map fst (slots control)). intros ks.
  revert control. induction ks as [|k ks IH]; intros control; simpl; [reflexivity|].
  rewrite IH. unfold generate_step. now destruct (_ && _).
Qed.

Lemma _createControl_steady require SetData this d name s :
  (forall c s0, steady (SetData c s0) s0) ->
  steady (_createControl require SetData this d name s) s.
Proof.
  intros HSet. unfold _createControl.
  pose proof (_getDynamicClass_steady require this (member d "controlType") s) as Hcls.
  destruct (_getDynamicClass require this (member d "controlType") s) as [c s1|s1|s1].
  2:{ subst s1. apply steady_Ok, kept_refl. }
  2:{ subst s1. apply steady_Throw, kept_refl. }
  apply (steady_after _ s s1 Hcls).
  destruct (heap s1 !! this) as [nd|] eqn:Hthis; [|apply steady_Throw, kept_refl].
  cbv zeta.
  match goal with
  | |- steady (put_prop _ _ _ (upd _ _ (mkState (heap s1 ++ [?c0]) _)) >>= _) _ =>
      set (control := c0)
  end.
  destruct (generate_accessors_fields
              (mkNode (slots (new_control c)) name (_controls (new_control c))
                 (_properties (new_control c)) (_acl (new_control c)) (Some this)
                 (_topLevelParent nd) (_bypassNotify (new_control c))
                 (_cls_ (new_control c)) (_events (new_control c)))) as (Gn & Gc & Gp).
  fold control in Gn, Gc, Gp. simpl in Gn, Gc, Gp.
  eapply steady_after.
  { apply (kept_attach s1 control this nd name Hthis Gp Gn).
    - rewrite Gc. apply new_control_controls.
    - unfold control. now rewrite generate_accessors_top. }
  apply steady_bind; [apply put_prop_steady|]. intros s4 _.
  apply steady_bind; [apply HSet|]. intros s5 _.
  eapply steady_after;
    [apply kept_skeleton, (skeleton_super_emit this name (DVal (VCtl (length (heap s1)))))|].
  apply steady_Ok, kept_skeleton, skeleton_super_emit.
Qed.

Lemma Set_key_steady require SetData this k v s :
  (forall c s0, steady (SetData c s0) s0) ->
  steady (Set_key require SetData this k v s) s.
Proof.
  intros HSet. unfold Set_key. destruct (heap s !! this) as [nd|] eqn:Hn.
  2:{ apply steady_Throw, kept_refl. }
  destruct (String.eqb k "remove").
  { destruct (loose_eq v (JBool true)); [|apply steady_Ok, kept_refl].
    destruct (_parent nd) as [p|].
    - apply steady_Ok, RemoveChild_kept.
    - apply steady_Throw, kept_refl. }
  destruct (not_internal k && negb (String.eqb k "controlType"));
    [|apply steady_Ok, kept_refl].
  destruct (negb (is_nullish (read_slot nd k)) && is_settable (read_slot nd k)).
  { destruct (acl_public nd k "Set"); [|apply steady_Ok, kept_refl].
    apply (steady_after _ s (upd this (with_bypass true) s)).
    { apply kept_upd. fields_kept. }
    apply put_prop_steady. }
  destruct (obj_get k (_controls nd)) as [c|]; [apply HSet|].
  destruct (negb (is_nullish v) && negb (is_nullish (member v "controlType"))).
  - now apply _createControl_steady.
  - apply steady_Ok, kept_refl.
Qed.

Lemma Set_steady require : forall d n s, steady (Set_ require n d s) s.
Proof.
  induction d as [| |b|z| |str|kind r fs IH] using jsval_rect2; intros n s;
    try (apply steady_Ok, kept_refl).
  rewrite Set_unfold. revert s.
  induction IH as [|[k v] fs Hkv _ IHfs]; intros s.
  - apply steady_Ok, kept_refl.
  - simpl. apply steady_bind.
    + apply Set_key_steady. intros c s0. apply Hkv.
    + intros s1 _. apply IHfs.
Qed.



(** ** The keys [Set] acts upon *)

Lemma bind_ext r f g : (forall s, r = Ok s -> f s = g s) -> r >>= f = r >>= g.
Proof. intros H. destruct r; simpl; [now apply H|reflexivity|reflexivity]. Qed.

Lemma Set_key_skipped require SetData n nd k v s :
  heap s !! n = Some nd -> Set_reads k = false ->
  Set_key require SetData n k v s = Ok s.
Proof.
  intros Hn Hk. unfold Set_reads in Hk. apply orb_false_iff in Hk as [Hrem Hpub].
  unfold Set_key. now rewrite Hn, Hrem, Hpub.
Qed.

(** X10. [Set] skips the keys that start with an underscore and the key
    [controlType]: the data without them has the same effect, so that no
    internal member of a control can be written through [Set]. *)
Theorem Set_ignores_internal_keys (require : string -> option cdecl) (n : nat) (nd : node)
    (kind : okind) (r : nat) (fs : list (string * jsval)) (s : state) :
  heap s !! n = Some nd ->
  Set_ require n (JObj kind r fs) s
  = Set_ require n (JObj kind r (List.filter (fun kv => Set_reads (fst kv)) fs)) s.
Proof.
  rewrite !Set_unfold. revert s nd.
  induction fs as [|[k v] fs IH]; intros s nd Hn; [reflexivity|].
  simpl. destruct (Set_reads k) eqn:Hk.
  - simpl. apply bind_ext. intros s1 Hrun.
    destruct (Set_key_steady require (fun c => Set_ require c v) n k v s
                (fun c s0 => Set_steady require v c s0)) as [Hr _].
    destruct (Hr s1 (or_introl Hrun)) as [Hi _].
    destruct (Hi n nd Hn) as (nd1 & Hn1 & _).
    now apply (IH s1 nd1).
  - rewrite (Set_key_skipped require _ n nd k v s Hn Hk). simpl. now apply (IH s nd).
Qed.

Lemma Set_ignores_internal_keys_witness :
  Set_ demo_require 2
    (obj 9 [("_parent", JNull); ("windows", JNum 4); ("controlType", JStr "house");
            ("_acl", obj 10 [])]) demo_state
  = Set_ demo_require 2 (obj 9 [("windows", JNum 4)]) demo_state.
Proof.
  exact (Set_ignores_internal_keys demo_require 2 _ KObject 9
           [("_parent", JNull); ("windows", JNum 4); ("controlType", JStr "house");
            ("_acl", obj 10 [])] demo_state eq_refl).
Defined.

Lemma Set_key_fallthrough require SetData n nd k v s :
  heap s !! n = Some nd ->
  k <> "remove" ->
  is_settable (read_slot nd k) = false ->
  obj_get k (_controls nd) = None ->
  Set_key require SetData n k v s
  = if not_internal k && negb (String.eqb k "controlType") then
      if negb (is_nullish v) && negb (is_nullish (member v "controlType"))
      then _createControl require SetData n v k s
      else Ok s
    else Ok s.
Proof.
  intros Hn Hrem Hread Hchild. unfold Set_key.
  rewrite Hn, (eqb_neq_false _ _ Hrem), Hread, andb_false_r, Hchild. reflexivity.
Qed.



(** ** The type resolver *)





Lemma _getDynamicClass_ext r1 r2 n name s :
  (forall w, single_word w = true -> r1 w = r2 w) ->
  _getDynamicClass r1 n name s = _getDynamicClass r2 n name s.
Proof.
  intros H. unfold _getDynamicClass. destruct (heap s !! n) as [nd|]; [|reflexivity].
  destruct (_topLevelParent nd) as [tp|]; [|reflexivity].
  destruct (heap s !! tp) as [tpn|]; [|reflexivity].
  destruct (obj_get (to_string name) (_cls_ tpn)); [reflexivity|].
  destruct name; try reflexivity.
  destruct (single_word s0) eqn:Hw; [|reflexivity]. now rewrite (H s0 Hw).
Qed.

Lemma Set_key_ext r1 r2 S1 S2 this k v s :
  (forall w, single_word w = true -> r1 w = r2 w) ->
  (forall c s0, S1 c s0 = S2 c s0) ->
  Set_key r1 S1 this k v s = Set_key r2 S2 this k v s.
Proof.
  intros Hr HS. unfold Set_key. destruct (heap s !! this) as [nd|]; [|reflexivity].
  destruct (String.eqb k "remove"); [reflexivity|].
  destruct (not_internal k && negb (String.eqb k "controlType")); [|reflexivity].
  destruct (negb (is_nullish (read_slot nd k)) && is_settable (read_slot nd k));
    [reflexivity|].
  destruct (obj_get k (_controls nd)) as [c|]; [apply HS|].
  destruct (negb (is_nullish v) && negb (is_nullish (member v "controlType")));
    [|reflexivity].
  unfold _createControl. rewrite (_getDynamicClass_ext r1 r2 _ _ _ Hr).
  destruct (_getDynamicClass r2 this (member v "controlType") s) as [c s1|s1|s1];
    try reflexivity.
  destruct (heap s1 !! this) as [nd1|]; [|reflexivity]. cbv zeta.
  apply bind_ext. intros s4 _. now rewrite HS.
Qed.

(** X14. The loader is only ever asked for single words (letters, digits and
    underscores): two loaders that agree on those make [Set] behave the
    same, whatever the data names as [controlType]. *)
Theorem loader_sees_single_words_only (r1 r2 : string -> option cdecl) (d : jsval)
    (n : nat) (s : state) :
  (forall w, single_word w = true -> r1 w = r2 w) ->
  Set_ r1 n d s = Set_ r2 n d s.
Proof.
  intros Hr. revert n s.
  induction d as [| |b|z| |str|kind r fs IH] using jsval_rect2; intros n s;
    try reflexivity.
  rewrite !Set_unfold. revert s.
  induction IH as [|[k v] fs Hkv _ IHfs]; intros s; [reflexivity|].
  simpl. rewrite (Set_key_ext r1 r2 (fun c => Set_ r1 c v) (fun c => Set_ r2 c v) n k v s Hr)
    by (intros c s0; apply Hkv).
  apply bind_ext. intros s1 _. apply IHfs.
Qed.

Lemma loader_sees_single_words_only_witness :
  let unsafe w := if single_word w then demo_require w else Some (mkClass "intruder" [] []) in
  let d := obj 9 [("shed", obj 10 [("controlType", JStr "../intruder")])] in
  Set_ demo_require 0 d demo_state = Set_ unsafe 0 d demo_state.
Proof.
  cbv zeta. apply loader_sees_single_words_only.
  intros w Hw. now rewrite Hw.
Defined.

(** X15. A class that was resolved once is in the cache of the container: the
    same lookup then succeeds without the loader, with the same class and
    no further change. *)
Theorem class_cache_hit (require : string -> option cdecl) (n : nat) (name : jsval)
    (s s1 : state) (c : cdecl) :
  _getDynamicClass require n name s = Found c s1 ->
  forall require', _getDynamicClass require' n name s1 = Found c s1.
Proof.
  unfold _getDynamicClass. destruct (heap s !! n) as [nd|] eqn:Hn; [|discriminate].
  destruct (_topLevelParent nd) as [tp|] eqn:Htp; [|discriminate].
  destruct (heap s !! tp) as [tpn|] eqn:Htpn; [|discriminate].
  destruct (obj_get (to_string name) (_cls_ tpn)) as [c0|] eqn:Hc0.
  { intros [= <- <-] require'. now rewrite Hn, Htp, Htpn, Hc0. }
  destruct name; try discriminate.
  destruct (single_word s0); [|discriminate].
  destruct (require s0) as [c1|]; [|discriminate].
  intros [= <- <-] require'.
  assert (Hn1 : exists nd1, heap (upd tp (with_cls (obj_set s0 c1)) s) !! n = Some nd1
                            /\ _topLevelParent nd1 = Some tp).
  { rewrite lookup_upd. destruct (decide (tp = n)) as [->|].
    - rewrite Hn. simpl. eexists. split; [reflexivity|exact Htp].
    - exists nd. now split. }
  destruct Hn1 as (nd1 & Hn1 & Htp1). rewrite Hn1, Htp1.
  rewrite (lookup_upd_eq _ _ _ _ Htpn).
  change (to_string (JStr s0)) with s0.
  change (_cls_ (with_cls (obj_set s0 c1) tpn)) with (obj_set s0 c1 (_cls_ tpn)).
  now rewrite obj_get_set_eq.
Qed.

Lemma class_cache_hit_witness :
  exists c s1,
    _getDynamicClass demo_require 0 (JStr "room") initial_state = Found c s1
    /\ forall require', _getDynamicClass require' 0 (JStr "room") s1 = Found c s1.
Proof.
  eexists. eexists. split; [reflexivity|].
  exact (class_cache_hit demo_require 0 (JStr "room") initial_state _ _ eq_refl).
Defined.

(** ** [Set] with several properties *)

Lemma writable_fields nd k :
  writable nd k = true ->
  String.eqb k "remove" = false /\ not_internal k = true
  /\ String.eqb k "controlType" = false
  /\ obj_get k (slots nd) = Some Accessor
  /\ acl_public nd k "getter" = true /\ is_settable (prop_value nd k) = true
  /\ acl_public nd k "Set" = true /\ acl_public nd k "setter" = true.
Proof.
  unfold writable. intros H.
  repeat (apply andb_true_iff in H as [H ?]).
  destruct (obj_get k (slots nd)) as [[|]|]; try discriminate.
  repeat split; try assumption; now apply negb_true_iff.
Qed.

Lemma frame_fields nd nd' :
  frame nd' = frame nd ->
  slots nd' = slots nd /\ _controlName nd' = _controlName nd
  /\ _controls nd' = _controls nd /\ _acl nd' = _acl nd
  /\ _parent nd' = _parent nd /\ _topLevelParent nd' = _topLevelParent nd.
Proof.
  destruct nd, nd'. unfold frame, shape, with_properties. simpl.
  intros [= -> -> -> -> -> ->]. repeat split.
Qed.

Lemma frame_trans nd1 nd2 nd3 : frame nd2 = frame nd1 -> frame nd3 = frame nd2 ->
  frame nd3 = frame nd1.
Proof. congruence. Qed.

Lemma writable_same nd nd' k :
  frame nd' = frame nd ->
  obj_get k (_properties nd') = obj_get k (_properties nd) ->
  writable nd' k = writable nd k.
Proof.
  intros Hf Hp. apply frame_fields in Hf as (Hs & _ & _ & Ha & _).
  unfold writable, acl_public, acl_entry, prop_value.
  now rewrite Hs, Ha, Hp.
Qed.

Lemma skeleton_lookup_fmap s s' x :
  skeleton s' = skeleton s -> erase <$> heap s' !! x = erase <$> heap s !! x.
Proof.
  intros H. assert (E : skeleton s' !! x = skeleton s !! x) by now rewrite H.
  unfold skeleton in E. now rewrite !list_lookup_fmap in E.
Qed.

(** One write of [Set] to a writable property. *)
Lemma Set_key_write require SetData n nd k v s :
  heap s !! n = Some nd ->
  writable nd k = true ->
  is_settable (VJs v) = true ->
  exists s1 nd1 es,
    Set_key require SetData n k v s = Ok s1
    /\ heap s1 !! n = Some nd1
    /\ frame nd1 = frame nd /\ _bypassNotify nd1 = false
    /\ _properties nd1 = (if loose_eq (prop_value nd k) v then _properties nd
                          else obj_set k (VJs v) (_properties nd))
    /\ trace s1 = trace s ++ es
    /\ emissions es = (if loose_eq (prop_value nd k) v then [] else [(n, k, DVal v)])
    /\ (forall x, x <> n -> erase <$> heap s1 !! x = erase <$> heap s !! x).
Proof.
  intros Hn Hw Hv.
  destruct (writable_fields nd k Hw) as (Hrem & Hint & Hct & Hslot & Hget & Hold & HSet & Hsetter).
  assert (Hco : coerce v = VJs v).
  { unfold coerce. now rewrite (is_settable_not_nullish _ Hv). }
  assert (Hread : read_slot nd k = prop_value nd k).
  { unfold read_slot, getter. now rewrite Hslot, Hget. }
  set (s0 := upd n (with_bypass true) s).
  assert (Hn0 : heap s0 !! n = Some (with_bypass true nd)) by now apply lookup_upd_eq.
  assert (Hkey : Set_key require SetData n k v s = put_prop n k (VJs v) s0).
  { unfold Set_key. rewrite Hn, Hrem, Hint, Hct, Hread, Hold.
    rewrite (is_settable_not_nullish _ Hold), HSet, Hco. reflexivity. }
  rewrite Hkey. unfold put_prop, setter. rewrite Hn0.
  change (slots (with_bypass true nd)) with (slots nd). rewrite Hslot.
  change (prop_value (with_bypass true nd) k) with (prop_value nd k).
  change (acl_public (with_bypass true nd) k "setter") with (acl_public nd k "setter").
  destruct (loose_eq (prop_value nd k) v) eqn:Heq; simpl.
  - exists (upd n (with_bypass false) s0), (with_bypass false (with_bypass true nd)), [].
    split; [reflexivity|]. split; [now apply lookup_upd_eq|].
    split; [reflexivity|]. split; [reflexivity|]. split; [reflexivity|].
    split; [simpl; now rewrite app_nil_r|]. split; [reflexivity|].
    intros x Hx. unfold s0. now rewrite !lookup_upd_ne by congruence.
  - rewrite Hsetter. simpl.
    set (s2 := upd n (with_bypass false) (upd n (with_properties (obj_set k (VJs v))) s0)).
    assert (Hn2 : heap s2 !! n
                  = Some (with_bypass false
                            (with_properties (obj_set k (VJs v)) (with_bypass true nd)))).
    { unfold s2. now repeat apply lookup_upd_eq. }
    destruct (emissions_super_emit n k (DVal v) s2) as (es & Htr & Hem).
    destruct (skeleton_lookup s2 (super_emit n k (DVal v) s2) n _
                (skeleton_super_emit _ _ _ _) Hn2) as (nd3 & Hn3 & He).
    exists (upd n (with_bypass false) (super_emit n k (DVal v) s2)), (with_bypass false nd3), es.
    split; [reflexivity|]. split; [now apply lookup_upd_eq|].
    split.
    { destruct nd, nd3. unfold erase, with_events in He. simpl in He.
      injection He as -> -> -> _ -> -> -> _ _. reflexivity. }
    apply erase_fields in He as (_ & _ & _ & Ep & _).
    split; [reflexivity|]. split; [exact Ep|]. split; [exact Htr|]. split; [exact Hem|].
    intros x Hx. rewrite lookup_upd_ne by congruence.
    rewrite (skeleton_lookup_fmap _ _ x (skeleton_super_emit n k (DVal v) s2)).
    unfold s2, s0. now rewrite !lookup_upd_ne by congruence.
Qed.

Lemma Set_flat_writes (require : string -> option cdecl) (s : state) (n : nat)
    (nd : node) (kind : okind) (r : nat) (fs : list (string * jsval)) :
  heap s !! n = Some nd ->
  List.NoDup (map fst fs) ->
  forallb (fun kv => writable nd (fst kv) && is_settable (VJs (snd kv))) fs = true ->
  exists s' nd' es,
    Set_ require n (JObj kind r fs) s = Ok s'
    /\ heap s' !! n = Some nd'
    /\ (forall k v, In (k, v) fs ->
          prop_value nd' k
          = if loose_eq (prop_value nd k) v then prop_value nd k else VJs v)
    /\ (forall k, ~ In k (map fst fs) -> prop_value nd' k = prop_value nd k)
    /\ frame nd' = frame nd
    /\ trace s' = trace s ++ es
    /\ emissions es = map (fun kv => (n, fst kv, DVal (VJs (snd kv)))) (effective nd fs)
    /\ (forall x, x <> n -> erase <$> heap s' !! x = erase <$> heap s !! x).
Proof.
  rewrite Set_unfold. revert s nd.
  induction fs as [|[k v] fs IH]; intros s nd Hn Hnd Hall.
  - exists s, nd, []. simpl. repeat split; try tauto. now rewrite app_nil_r.
  - simpl in Hall. apply andb_true_iff in Hall as [Hkv Hall].
    apply andb_true_iff in Hkv as [Hw Hv].
    apply List.NoDup_cons_iff in Hnd as [Hnotin Hnd]. simpl in Hnotin.
    destruct (Set_key_write require (fun c => Set_ require c v) n nd k v s Hn Hw Hv)
      as (s1 & nd1 & es1 & Hrun & Hn1 & Ef & _ & Ep & Htr1 & Hem1 & Hfr1).
    assert (Hother : forall k', k' <> k -> obj_get k' (_properties nd1)
                                          = obj_get k' (_properties nd)).
    { intros k' Hne. rewrite Ep. destruct (loose_eq (prop_value nd k) v); [reflexivity|].
      now apply obj_get_set_ne. }
    assert (Hall1 : forallb (fun kv => writable nd1 (fst kv) && is_settable (VJs (snd kv))) fs
                    = true).
    { rewrite forallb_forall in *. intros [k' v'] Hin. rewrite <- (Hall _ Hin). simpl.
      f_equal. apply writable_same; [exact Ef|].
      apply Hother. intros ->. apply Hnotin. now apply (in_map fst) in Hin. }
    destruct (IH s1 nd1 Hn1 Hnd Hall1)
      as (s' & nd' & es2 & Hrun2 & Hn' & Hin' & Hout' & Ef' & Htr2 & Hem2 & Hfr2).
    assert (Hpv : forall k', k' <> k -> prop_value nd1 k' = prop_value nd k').
    { intros k' Hne. unfold prop_value. now rewrite Hother. }
    exists s', nd', (es1 ++ es2). split.
    { simpl. rewrite Hrun. simpl. exact Hrun2. }
    split; [exact Hn'|]. split; [|split; [|split; [|split; [|split]]]].
    + intros k' v' [[= <- <-]|Hin].
      * rewrite (Hout' k Hnotin). destruct (loose_eq (prop_value nd k) v) eqn:E.
        -- unfold prop_value at 1. now rewrite Ep.
        -- unfold prop_value at 1. now rewrite Ep, obj_get_set_eq.
      * assert (Hne : k' <> k).
        { intros ->. apply Hnotin. now apply (in_map fst) in Hin. }
        rewrite (Hin' k' v' Hin). now rewrite (Hpv k' Hne).
    + intros k' Hk'. simpl in Hk'. rewrite Hout' by tauto. apply Hpv. intros ->. tauto.
    + congruence.
    + now rewrite Htr2, Htr1, app_assoc.
    + rewrite emissions_app, Hem1, Hem2. unfold effective. simpl.
      assert (Heff : List.filter (fun kv => negb (loose_eq (prop_value nd1 (fst kv)) (VJs (snd kv)))) fs
                     = List.filter (fun kv => negb (loose_eq (prop_value nd (fst kv)) (VJs (snd kv)))) fs).
      { apply List.filter_ext_in. intros [k' v'] Hin. simpl. rewrite Hpv; [reflexivity|].
        intros ->. apply Hnotin. now apply (in_map fst) in Hin. }
      rewrite Heff. now destruct (loose_eq (prop_value nd k) v).
    + intros x Hx. now rewrite (Hfr2 x Hx), (Hfr1 x Hx).
Qed.



(** ** Creation of a child through [Set] *)

Lemma resolve_found require s n nd t tn w c :
  heap s !! n = Some nd -> _topLevelParent nd = Some t -> heap s !! t = Some tn ->
  (obj_get w (_cls_ tn) = Some c
   \/ (obj_get w (_cls_ tn) = None /\ single_word w = true /\ require w = Some c)) ->
  exists s1 nd1,
    _getDynamicClass require n (JStr w) s = Found c s1
    /\ trace s1 = trace s
    /\ length (heap s1) = length (heap s)
    /\ heap s1 !! n = Some nd1
    /\ shape nd1 = shape nd.
Proof.
  intros Hn Ht Htn Hc. unfold _getDynamicClass. rewrite Hn, Ht, Htn.
  change (to_string (JStr w)) with w. destruct Hc as [Hc|(Hc & Hw & Hr)]; rewrite Hc.
  - exists s, nd. repeat split. exact Hn.
  - rewrite Hw, Hr.
    exists (upd t (with_cls (obj_set w c)) s),
           (if decide (t = n) then with_cls (obj_set w c) nd else nd).
    split; [reflexivity|]. split; [reflexivity|].
    split; [unfold upd; simpl; now rewrite length_alter|].
    rewrite lookup_upd. destruct (decide (t = n)) as [->|].
    + rewrite Hn. simpl. split; reflexivity.
    + split; [exact Hn|reflexivity].
Qed.

Lemma fresh_control_fields c name parent top :
  _controlName (fresh_control c name parent top) = name
  /\ _parent (fresh_control c name parent top) = Some parent
  /\ _topLevelParent (fresh_control c name parent top) = top
  /\ _controls (fresh_control c name parent top) = []
  /\ forall f, acl_public (new_control c) f "getter" = true ->
               read_slot (fresh_control c name parent top) f = read_slot (new_control c) f.
Proof.
  unfold fresh_control. cbv zeta.
  match goal with |- context [generate_accessors ?x] => set (raw := x) end.
  destruct (generate_accessors_fields raw) as (Gn & Gc & Gp).
  split; [exact Gn|]. split; [exact Gp|]. split; [apply generate_accessors_top|].
  split; [rewrite Gc; apply new_control_controls|].
  intros f Hopen. rewrite generate_accessors_fold. now rewrite generate_fold_read.
Qed.

(** The steps of [Set] for a key that asks for a new child, up to the
    point where the data is handed to the new control. *)
Lemma create_unfold require s n t nd tn k w c v kind r :
  heap s !! n = Some nd -> _topLevelParent nd = Some t -> heap s !! t = Some tn ->
  k <> "remove" -> k <> "controlType" -> not_internal k = true ->
  obj_get k (slots nd) = None -> obj_get k (_controls nd) = None ->
  (obj_get w (_cls_ tn) = Some c
   \/ (obj_get w (_cls_ tn) = None /\ single_word w = true /\ require w = Some c)) ->
  member v "controlType" = JStr w ->
  let id := length (heap s) in
  exists s4 nd4,
    Set_ require n (JObj kind r [(k, v)]) s
    = Set_ require id v s4 >>= (fun s5 =>
        Ok (super_emit n "newChildControl" (DVal (VCtl id))
              (super_emit n k (DVal (VCtl id)) s5)))
    /\ trace s4 = trace s
    /\ heap s4 !! n = Some nd4
    /\ obj_get k (_controls nd4) = Some id
    /\ read_slot nd4 k = VCtl id
    /\ heap s4 !! id = Some (fresh_control c k n (Some t)).
Proof.
  intros Hn Ht Htn Hrem Hct Hint Hslot Hchild Hc Hw id.
  destruct (resolve_found require s n nd t tn w c Hn Ht Htn Hc)
    as (s1 & nd1 & Hres & Htr1 & Hlen1 & Hn1 & Hsh1).
  apply shape_fields in Hsh1 as (Hs1 & _ & Hc1 & _ & _ & _ & Ht1).
  assert (Hread : is_settable (read_slot nd k) = false).
  { unfold read_slot. now rewrite Hslot. }
  assert (Hv : is_nullish v = false).
  { destruct v; try discriminate; reflexivity. }
  assert (Hkey : Set_key require (fun c0 => Set_ require c0 v) n k v s
                 = _createControl require (fun c0 => Set_ require c0 v) n v k s).
  { rewrite (Set_key_fallthrough require _ n nd k _ s Hn Hrem Hread Hchild).
    rewrite Hint, (eqb_neq_false _ _ Hct), Hv, Hw. reflexivity. }
  rewrite Set_single, Hkey. unfold _createControl.
  rewrite Hw, Hres, Hn1. cbv zeta. rewrite Hlen1, Ht1, Ht. fold id.
  fold (fresh_control c k n (Some t)).
  set (control := fresh_control c k n (Some t)).
  set (s2 := mkState (heap s1 ++ [control]) (trace s1)).
  set (s3 := upd n (with_controls (obj_set k id)) s2).
  set (s4 := upd n (with_slots (obj_set k (Field (VCtl id)))) s3).
  pose proof (lookup_lt_Some _ _ _ Hn) as Hlt. fold id in Hlt.
  assert (Hn2 : heap s2 !! n = Some nd1).
  { unfold s2. simpl. rewrite lookup_app_l by lia. exact Hn1. }
  assert (Hid2 : heap s2 !! id = Some control).
  { unfold s2. simpl. rewrite lookup_app_r by lia.
    replace (id - length (heap s1)) with 0 by lia. reflexivity. }
  assert (Hn3 : heap s3 !! n = Some (with_controls (obj_set k id) nd1)).
  { now apply lookup_upd_eq. }
  assert (Hput : put_prop n k (VCtl id) s3 = Ok s4).
  { unfold put_prop. rewrite Hn3. simpl. now rewrite Hs1, Hslot. }
  rewrite Hput. cbn [bind].
  exists s4, (with_slots (obj_set k (Field (VCtl id))) (with_controls (obj_set k id) nd1)).
  split; [reflexivity|]. split; [exact Htr1|].
  split; [now apply lookup_upd_eq|].
  split; [simpl; apply obj_get_set_eq|].
  split; [unfold read_slot; simpl; now rewrite obj_get_set_eq|].
  unfold s4, s3. rewrite !lookup_upd_ne by lia. exact Hid2.
Qed.



(** ** Removal *)

Lemma RemoveChild_unfold this control s nd c :
  heap s !! this = Some nd -> obj_get control (_controls nd) = Some c ->
  RemoveChild this control s
  = removeAllListeners c
      (upd this (with_slots (obj_delete control))
         (upd this (with_controls (obj_delete control))
            (super_emit c "remove" (DVal (VCtl c)) s))).
Proof. intros Hn Hc. unfold RemoveChild. now rewrite Hn, Hc. Qed.

(** What [RemoveChild] leaves of each control: the parent loses the entry
    and the alias, every other field of every control stays (listener
    tables apart). *)
Lemma RemoveChild_lookup this control s nd c :
  heap s !! this = Some nd -> obj_get control (_controls nd) = Some c ->
  (exists nd', heap (RemoveChild this control s) !! this = Some nd'
               /\ erase nd' = erase (with_slots (obj_delete control)
                                       (with_controls (obj_delete control) nd)))
  /\ forall x xd, x <> this -> heap s !! x = Some xd ->
       exists xd', heap (RemoveChild this control s) !! x = Some xd'
                   /\ erase xd' = erase xd.
Proof.
  intros Hn Hc. rewrite (RemoveChild_unfold this control s nd c Hn Hc).
  set (s1 := super_emit c "remove" (DVal (VCtl c)) s).
  pose proof (skeleton_super_emit c "remove" (DVal (VCtl c)) s) as Hsk. fold s1 in Hsk.
  split.
  - destruct (skeleton_lookup s s1 this nd Hsk Hn) as (nd1 & Hn1 & He).
    unfold removeAllListeners. rewrite lookup_upd, !upd_upd, (lookup_upd_eq _ _ _ _ Hn1).
    destruct (decide (c = this)); simpl; eexists; (split; [reflexivity|]);
      destruct nd, nd1; unfold erase, with_events, with_slots, with_controls in *;
      simpl in *; injection He as -> -> -> -> -> -> -> -> ->; reflexivity.
  - intros x xd Hne Hx.
    destruct (skeleton_lookup s s1 x xd Hsk Hx) as (xd1 & Hx1 & He).
    unfold removeAllListeners. rewrite lookup_upd, !lookup_upd_ne by congruence.
    rewrite Hx1. destruct (decide (c = x)); simpl; eexists; (split; [reflexivity|]);
      [|exact He].
    rewrite <- He. destruct xd1. reflexivity.
Qed.

(** X18. Removing a child twice is the same as removing it once. *)
Theorem RemoveChild_twice (this : nat) (control : string) (s : state) :
  RemoveChild this control (RemoveChild this control s) = RemoveChild this control s.
Proof.
  destruct (heap s !! this) as [nd|] eqn:Hn.
  2:{ unfold RemoveChild at 2. rewrite Hn. unfold RemoveChild. now rewrite Hn. }
  destruct (obj_get control (_controls nd)) as [c|] eqn:Hc.
  2:{ unfold RemoveChild at 2. rewrite Hn, Hc. unfold RemoveChild. now rewrite Hn, Hc. }
  destruct (proj1 (RemoveChild_lookup this control s nd c Hn Hc)) as (nd' & Hn' & He).
  apply erase_fields in He as (_ & _ & Hcs & _).
  unfold RemoveChild at 1. rewrite Hn', Hcs. simpl. now rewrite obj_get_delete_eq.
Qed.

Lemma notify_reaches_parent s n nd p delta :
  parents_below s -> heap s !! n = Some nd -> _parent nd = Some p -> hidden s n = false ->
  exists s', _notify n delta s = Ok s'
             /\ emitted s s' (Emitted p "data" (DObj [(_controlName nd, delta)])).
Proof.
  intros Hwf Hn Hp Hh. unfold _notify.
  pose proof (lookup_lt_Some _ _ _ Hn) as Hlt. pose proof (Hwf n nd p Hn Hp) as Hpn.
  destruct (length (heap s)) as [|fuel] eqn:E; [lia|].
  destruct (_notify_fuel_total s Hwf fuel p (DObj [(_controlName nd, delta)]))
    as (s1 & Hrun & Hem); [lia|lia|].
  rewrite _notify_fuel_S, Hn, Hp, Hh. simpl. rewrite Hrun. simpl.
  eexists. split; [reflexivity|].
  eapply emitted_before; [exact Hem|apply grows_super_emit].
Qed.

Lemma put_prop_reaches_parent s x nd p k v :
  parents_below s ->
  heap s !! x = Some nd -> _parent nd = Some p ->
  hidden s x = false -> k <> "hideData" ->
  obj_get k (slots nd) = Some Accessor ->
  loose_eq (prop_value nd k) v = false ->
  acl_public nd k "setter" = true ->
  _bypassNotify nd = false ->
  exists s' delta,
    put_prop x k v s = Ok s'
    /\ emitted s s' (Emitted p "data" (DObj [(_controlName nd, delta)])).
Proof.
  intros Hwf Hnd Hp Hh Hk Hslot Hneq Hsetter Hby.
  set (s1 := upd x (with_properties (obj_set k v)) s).
  assert (Hnd1 : heap s1 !! x = Some (with_properties (obj_set k v) nd))
    by now apply lookup_upd_eq.
  destruct (notify_reaches_parent s1 x _ p
              (DObj (notify_delta s1 x (with_properties (obj_set k v) nd) (Single k)))
              (parents_below_upd x (with_properties (obj_set k v)) s (fun _ => eq_refl) Hwf)
              Hnd1 Hp) as (s2 & Hrun & Hem).
  { unfold s1. now rewrite (hidden_set_property x nd k v s Hnd Hk). }
  do 2 eexists. split.
  - unfold put_prop. rewrite Hnd, Hslot. unfold setter. rewrite Hnd, Hneq, Hsetter, Hby.
    simpl. fold s1. unfold NotifyProperty. rewrite Hnd1, Hrun. reflexivity.
  - apply (emitted_traces _ s1 (super_emit x k (DVal v) s2) _);
      [reflexivity|reflexivity|].
    eapply emitted_before; [exact Hem|apply grows_super_emit].
Qed.



(** X20. The documented way to remove a child through data: [Set] on the
    parent with [{k: {remove: true}}] hands the data to the child [k],
    whose [Set] asks the parent to remove it. *)
Theorem Set_removes_child_by_data (require : string -> option cdecl) (s : state)
    (n c : nat) (nd cd : node) (k : string) (v : jsval) (kind kind' : okind) (r r' : nat) :
  heap s !! n = Some nd ->
  obj_get k (_controls nd) = Some c ->
  heap s !! c = Some cd ->
  _parent cd = Some n ->
  _controlName cd = k ->
  k <> "remove" -> k <> "controlType" -> not_internal k = true ->
  is_settable (read_slot nd k) = false ->
  loose_eq v (JBool true) = true ->
  Set_ require n (JObj kind r [(k, JObj kind' r' [("remove", v)])]) s
  = Ok (RemoveChild n k s).
Proof.
  intros Hn Hc Hcd Hpar Hname Hrem Hct Hint Hread Hv.
  rewrite Set_single. unfold Set_key at 1.
  rewrite Hn, (eqb_neq_false _ _ Hrem), Hint, (eqb_neq_false _ _ Hct), Hread, andb_false_r, Hc.
  cbn [andb negb]. rewrite Set_single. unfold Set_key.
  rewrite Hcd, Hv, Hpar, Hname. reflexivity.
Qed.

Lemma Set_removes_child_by_data_witness :
  Set_ demo_require 1 (obj 9 [("room1", obj 10 [("remove", JBool true)])]) demo_state
  = Ok (RemoveChild 1 "room1" demo_state).
Proof.
  refine (Set_removes_child_by_data demo_require demo_state 1 2 _ _ "room1" (JBool true)
            KObject KObject 9 10 eq_refl eq_refl eq_refl eq_refl eq_refl _ _ eq_refl
            eq_refl eq_refl); discriminate.
Defined.

(** ** The parent-driven mark *)



(** ** The shape of what [Get] returns *)

Lemma obj_get_notin_None {A : Type} k (o : list (string * A)) :
  ~ In k (map fst o) -> obj_get k o = None.
Proof.
  induction o as [|[k' v] o IH]; simpl; intros H; [reflexivity|].
  destruct (String.eqb_spec k k') as [->|Hne]; [tauto|]. apply IH. tauto.
Qed.

Lemma own_data_lookup nd options k :
  obj_get k (own_data nd options)
  = if existsb (String.eqb k) (map fst (_properties nd))
       && (acl_Get nd k && sparse_keeps options (prop_value nd k))
    then Some (DVal (prop_value nd k)) else None.
Proof. unfold own_data. now rewrite own_data_fold. Qed.

Lemma children_loop_lookup rec s : forall cs d r,
  List.NoDup (map fst cs) ->
  children_loop rec s cs d = Some r ->
  forall k, obj_get k r
            = match obj_get k cs with
              | Some c => if hidden s c then obj_get k d else DObj <$> rec c
              | None => obj_get k d
              end.
Proof.
  induction cs as [|[k' c] cs IH]; intros d r Hnd Hr k; simpl in *.
  - now injection Hr as <-.
  - apply List.NoDup_cons_iff in Hnd as [Hnotin Hnd].
    destruct (hidden s c) eqn:Hh; simpl in Hr.
    + rewrite (IH d r Hnd Hr k). destruct (String.eqb_spec k k') as [->|Hne].
      * now rewrite (obj_get_notin_None k' cs Hnotin), Hh.
      * reflexivity.
    + destruct (rec c) as [rc|] eqn:Hrc; [|discriminate].
      rewrite (IH _ r Hnd Hr k). destruct (String.eqb_spec k k') as [->|Hne].
      * rewrite (obj_get_notin_None k' cs Hnotin), Hh, Hrc. simpl. apply obj_get_set_eq.
      * destruct (obj_get k cs) as [c'|]; [|now apply obj_get_set_ne].
        destruct (hidden s c'); [now apply obj_get_set_ne|reflexivity].
Qed.

Lemma children_loop_ext_in rec rec' s cs : forall d,
  (forall k c, In (k, c) cs -> rec c = rec' c) ->
  children_loop rec s cs d = children_loop rec' s cs d.
Proof.
  induction cs as [|[k c] cs IH]; intros d H; simpl; [reflexivity|].
  rewrite (H k c (or_introl eq_refl)).
  destruct (negb (hidden s c)).
  - destruct (rec' c); [|reflexivity]. apply IH. intros; eapply H; right; eauto.
  - apply IH. intros; eapply H; right; eauto.
Qed.

Lemma Get_fuel_enough s options :
  children_above s ->
  forall fuel fuel' n,
    n < length (heap s) -> length (heap s) - n <= fuel -> length (heap s) - n <= fuel' ->
    Get_fuel fuel s n options = Get_fuel fuel' s n options.
Proof.
  intros Hwf. induction fuel as [|fuel IH]; intros fuel' n Hn H1 H2; [lia|].
  destruct fuel' as [|fuel']; [lia|]. rewrite !Get_fuel_unfold.
  destruct (heap s !! n) as [nd|] eqn:Hnd; [|reflexivity].
  apply children_loop_ext_in. intros k c Hin.
  destruct (Hwf n nd k c Hnd Hin). apply IH; lia.
Qed.



Lemma own_data_same nd nd' options :
  _properties nd' = _properties nd -> _acl nd' = _acl nd ->
  own_data nd' options = own_data nd options.
Proof.
  intros Hp Ha. unfold own_data. rewrite Hp. apply fold_left_pointwise.
  intros d k. unfold own_step, acl_Get, acl_entry, prop_value. now rewrite Hp, Ha.
Qed.

Lemma children_above_RemoveChild this control s :
  children_above s -> children_above (RemoveChild this control s).
Proof.
  intros Hwf. destruct (heap s !! this) as [nd|] eqn:Hn.
  2:{ unfold RemoveChild. now rewrite Hn. }
  destruct (obj_get control (_controls nd)) as [c|] eqn:Hc.
  2:{ unfold RemoveChild. now rewrite Hn, Hc. }
  destruct (RemoveChild_lookup this control s nd c Hn Hc) as [(nd' & Hn' & He) Hother].
  assert (Hlen : length (heap (RemoveChild this control s)) = length (heap s)).
  { rewrite (RemoveChild_unfold this control s nd c Hn Hc).
    unfold removeAllListeners, upd. simpl. rewrite !length_alter.
    apply length_skeleton, skeleton_super_emit. }
  intros x xd k c0 Hx Hin. rewrite Hlen.
  destruct (decide (x = this)) as [->|Hne].
  - rewrite Hn' in Hx. injection Hx as <-.
    apply erase_fields in He as (_ & _ & Hcs & _). rewrite Hcs in Hin. simpl in Hin.
    apply In_obj_delete in Hin. now apply (Hwf this nd k c0).
  - destruct (lookup_lt_is_Some_2 (heap s) x) as [xd0 Hx0].
    { rewrite <- Hlen. now apply lookup_lt_Some in Hx. }
    destruct (Hother x xd0 Hne Hx0) as (xd' & Hx' & He').
    rewrite Hx' in Hx. injection Hx as <-.
    apply erase_fields in He' as (_ & _ & Hcs & _). rewrite Hcs in Hin.
    now apply (Hwf x xd0 k c0).
Qed.

(** X23. Once [RemoveChild(name)] has run, [Get] on the parent no longer
    reports a child under [name]: the key is there only if the parent has
    a property of that name, with the value of that property. *)
Theorem RemoveChild_then_Get (s : state) (p : nat) (pn : node) (name : string)
    (options : get_options) :
  children_above s ->
  heap s !! p = Some pn ->
  exists r,
    Get (RemoveChild p name s) p options = Some r
    /\ obj_get name r = obj_get name (own_data pn options).
Proof.
  intros Hwf Hp.
  pose proof (children_above_RemoveChild p name s Hwf) as Hwf1.
  assert (Hp1 : exists pn1, heap (RemoveChild p name s) !! p = Some pn1
                            /\ obj_get name (_controls pn1) = None
                            /\ own_data pn1 options = own_data pn options).
  { destruct (obj_get name (_controls pn)) as [c|] eqn:Hc.
    - destruct (proj1 (RemoveChild_lookup p name s pn c Hp Hc)) as (pn1 & Hp1 & He).
      exists pn1. split; [exact Hp1|].
      apply erase_fields in He as (_ & _ & Hcs & Hps & Ha & _). split.
      + rewrite Hcs. simpl. apply obj_get_delete_eq.
      + now apply own_data_same.
    - exists pn. unfold RemoveChild. rewrite Hp, Hc. auto. }
  destruct Hp1 as (pn1 & Hp1 & Hc1 & Hown).
  pose proof (lookup_lt_Some _ _ _ Hp1) as Hlt.
  destruct (Get_total _ p options Hwf1 Hlt) as [r Hr]. exists r. split; [exact Hr|].
  unfold Get in Hr. destruct (length (heap (RemoveChild p name s))) as [|fuel]; [lia|].
  rewrite Get_fuel_unfold, Hp1 in Hr. rewrite <- Hown.
  apply (children_loop_other _ _ _ _ _ _ (fun c Hin => False_ind _
           (obj_get_None_notin name _ Hc1 (in_map fst _ _ Hin))) Hr).
Qed.

Lemma RemoveChild_then_Get_witness :
  exists r,
    Get (RemoveChild 1 "room1" demo_state) 1 default_options = Some r
    /\ obj_get "room1" r = None.
Proof.
  exact (RemoveChild_then_Get demo_state 1 _ "room1" default_options
           (children_above_b_spec demo_state eq_refl) eq_refl).
Defined.

Lemma sparse_keeps_truthy o1 o2 v :
  truthy (sparse o1) = truthy (sparse o2) -> sparse_keeps o1 v = sparse_keeps o2 v.
Proof. intros H. unfold sparse_keeps. now rewrite H. Qed.

Lemma Get_fuel_truthy s o1 o2 :
  truthy (sparse o1) = truthy (sparse o2) ->
  forall fuel n, Get_fuel fuel s n o1 = Get_fuel fuel s n o2.
Proof.
  intros H. induction fuel as [|fuel IH]; intros n; [reflexivity|].
  rewrite !Get_fuel_unfold. destruct (heap s !! n) as [nd|]; [|reflexivity].
  assert (E : own_data nd o1 = own_data nd o2).
  { unfold own_data. apply fold_left_pointwise. intros d k. unfold own_step.
    now rewrite (sparse_keeps_truthy o1 o2 _ H). }
  rewrite E. apply children_loop_ext_in. intros k c _. apply IH.
Qed.

(** X24. [Get] reads of its options only whether [sparse] is truthy.  An
    options object without [sparse] therefore gives the full result, as
    [{sparse: false}] does, and not the sparse one that a call without
    options gives. *)
Theorem Get_reads_truthiness_of_sparse (s : state) (n : nat) (o1 o2 : get_options) :
  truthy (sparse o1) = truthy (sparse o2) ->
  Get s n o1 = Get s n o2.
Proof. intros H. unfold Get. now apply Get_fuel_truthy. Qed.

Lemma Get_reads_truthiness_of_sparse_witness :
  Get demo_zero 2 (mkGet JUndefined) = Get demo_zero 2 (mkGet (JBool false))
  /\ Get demo_zero 2 (mkGet JUndefined) <> Get demo_zero 2 default_options.
Proof.
  split.
  - apply (Get_reads_truthiness_of_sparse demo_zero 2 (mkGet JUndefined) (mkGet (JBool false))).
    reflexivity.
  - discriminate.
Defined.

(** ** The delta of [NotifyProperty] *)

Lemma notify_fold_lookup s n nd p : forall ps d,
  heap s !! n = Some nd ->
  obj_get p (fold_left (fun d q =>
                          if acl_public nd q "Get" then
                            if negb (is_nullish (get_prop s n q))
                            then obj_set q (DVal (get_prop s n q)) d else d
                          else d) ps d)
  = if existsb (String.eqb p) ps
       && (acl_public nd p "Get" && negb (is_nullish (read_slot nd p)))
    then Some (DVal (read_slot nd p)) else obj_get p d.
Proof.
  intros ps d Hn. revert d.
  assert (Hg : forall q, get_prop s n q = read_slot nd q).
  { intros q. unfold get_prop. now rewrite Hn. }
  induction ps as [|q ps IH]; intros d; simpl; [reflexivity|].
  rewrite IH, Hg. destruct (String.eqb_spec p q) as [->|Hne]; simpl.
  - destruct (acl_public nd q "Get"); simpl.
    + destruct (is_nullish (read_slot nd q)); simpl.
      * now rewrite andb_false_r.
      * rewrite obj_get_set_eq. now destruct (existsb _ _).
    + now rewrite andb_false_r.
  - destruct (acl_public nd q "Get"); [|reflexivity].
    destruct (negb (is_nullish (read_slot nd q))); [|reflexivity].
    now rewrite obj_get_set_ne.
Qed.



(** ** Sessions on a new container *)

Lemma sound_kept s s' : kept s s' -> sound s -> sound s'.
Proof.
  intros (Hi & _ & Ht & Hc) (T & C & nd & H0 & Hp). split; [auto|]. split; [auto|].
  destruct (Hi 0 nd H0) as (nd' & H0' & _ & Hp' & _). exists nd'. split; congruence.
Qed.

Lemma sound_steady r s :
  steady r s -> sound s ->
  match r with
  | Ok s' | Throw s' => sound s'
  | Fuel => False
  end.
Proof.
  intros [Hr Hfuel] Hs. destruct r as [s'|s'|].
  - apply (sound_kept s s'); [now apply Hr; left|assumption].
  - apply (sound_kept s s'); [now apply Hr; right|assumption].
  - apply Hfuel; [apply Hs|reflexivity].
Qed.

Lemma sound_SetAccess n k ACL s : sound s -> sound (SetAccess n k ACL s).
Proof.
  intros Hs. unfold SetAccess. destruct (negb _); [|exact Hs].
  destruct Hs as ((Hwf & Hch) & Hc & nd0 & H0 & Hp0).
  assert (Hback : forall x nd', heap (upd n (with_acl (obj_set k ACL)) s) !! x = Some nd' ->
            exists nd, heap s !! x = Some nd /\ _parent nd' = _parent nd
                       /\ _controlName nd' = _controlName nd
                       /\ _controls nd' = _controls nd
                       /\ _topLevelParent nd' = _topLevelParent nd).
  { intros x nd' Hx. rewrite lookup_upd in Hx. destruct (decide (n = x)) as [->|].
    - destruct (heap s !! x) as [nd|]; [|discriminate]. injection Hx as <-.
      exists nd. repeat split.
    - exists nd'. repeat split. exact Hx. }
  assert (Hfwd : forall x nd, heap s !! x = Some nd ->
            exists nd', heap (upd n (with_acl (obj_set k ACL)) s) !! x = Some nd'
                        /\ _parent nd' = _parent nd /\ _controlName nd' = _controlName nd).
  { intros x nd Hx. rewrite lookup_upd. destruct (decide (n = x)) as [->|].
    - rewrite Hx. eexists. repeat split.
    - exists nd. repeat split. exact Hx. }
  split; [split|split].
  - intros x nd' p Hx Hp. destruct (Hback x nd' Hx) as (nd & Hx0 & E & _).
    apply (Hwf x nd p Hx0). congruence.
  - intros x nd' k0 c Hx Hin. destruct (Hback x nd' Hx) as (nd & Hx0 & _ & _ & E & _).
    rewrite E in Hin. destruct (Hch x nd k0 c Hx0 Hin) as (cd & Hcd & Hp & Hname).
    destruct (Hfwd c cd Hcd) as (cd' & Hcd' & E1 & E2). exists cd'. repeat split; congruence.
  - intros x nd' Hx. destruct (Hback x nd' Hx) as (nd & Hx0 & _ & _ & _ & E).
    rewrite E. now apply (Hc x nd).
  - destruct (Hfwd 0 nd0 H0) as (nd' & H0' & E & _). exists nd'. split; congruence.
Qed.

Lemma emit_fuel_outcome ev payload sc : forall fuel n s s',
  emit_fuel fuel n ev payload sc s = Ok s' \/ emit_fuel fuel n ev payload sc s = Throw s' ->
  skeleton s' = skeleton s.
Proof.
  induction fuel as [|fuel IH]; intros n s s' H; [destruct H; discriminate|].
  simpl in H. destruct (heap s !! n) as [nd|].
  2:{ destruct H as [[=]|[= <-]]. reflexivity. }
  set (s1 := match sc with
             | Local | LocalTop | Bubble => super_emit n ev payload s
             | Top => s
             end) in *.
  assert (Hs1 : skeleton s1 = skeleton s).
  { unfold s1. destruct sc; try apply skeleton_super_emit; reflexivity. }
  assert (Hlast : forall s2 s0,
             skeleton s2 = skeleton s ->
             (match sc with
              | Top | LocalTop =>
                  match _topLevelParent nd with
                  | Some t => Ok (super_emit t ev payload s2)
                  | None => Throw s2
                  end
              | _ => Ok s2
              end = Ok s0
              \/ match sc with
                 | Top | LocalTop =>
                     match _topLevelParent nd with
                     | Some t => Ok (super_emit t ev payload s2)
                     | None => Throw s2
                     end
                 | _ => Ok s2
                 end = Throw s0) ->
             skeleton s0 = skeleton s).
  { intros s2 s0 H2 H0. destruct sc; try (destruct H0 as [[= <-]|[=]]; exact H2);
      destruct (_topLevelParent nd);
      destruct H0 as [[= <-]|[= <-]]; try exact H2;
      now rewrite skeleton_super_emit. }
  destruct sc; try (simpl in H; apply (Hlast s1 s' Hs1 H)).
  destruct (_parent nd) as [p|]; [|simpl in H; apply (Hlast s1 s' Hs1 H)].
  destruct (emit_fuel fuel p ev payload Bubble s1) as [s2|s2|] eqn:E; simpl in H.
  - destruct H as [[= <-]|[=]]. rewrite (IH _ _ _ (or_introl E)). exact Hs1.
  - destruct H as [[=]|[= <-]]. rewrite (IH _ _ _ (or_intror E)). exact Hs1.
  - destruct H; discriminate.
Qed.

Lemma emit_fuel_returns ev payload sc : forall fuel n s,
  parents_below s -> n < fuel -> emit_fuel fuel n ev payload sc s <> Fuel.
Proof.
  induction fuel as [|fuel IH]; intros n s Hwf Hn; [lia|].
  simpl. destruct (heap s !! n) as [nd|] eqn:Hnd; [|discriminate].
  destruct sc; try (simpl; try destruct (_topLevelParent nd); discriminate).
  destruct (_parent nd) as [p|] eqn:Hp; [|simpl; discriminate].
  pose proof (Hwf n nd p Hnd Hp) as Hlt.
  pose proof (IH p (super_emit n ev payload s)
                (parents_below_skeleton s _ (skeleton_super_emit n ev payload s) Hwf)
                ltac:(lia)) as Hrec.
  destruct (emit_fuel fuel p ev payload Bubble (super_emit n ev payload s));
    simpl; [discriminate|discriminate|contradiction].
Qed.

Lemma emit_steady n ev payload sc s :
  0 < length (heap s) -> steady (emit n ev payload sc s) s.
Proof.
  intros Hlen. unfold emit. split.
  - intros s' H. apply emit_fuel_outcome in H. now apply kept_skeleton.
  - intros Hwf. destruct (heap s !! n) as [nd|] eqn:Hnd.
    + apply emit_fuel_returns; [exact Hwf|now apply lookup_lt_Some in Hnd].
    + destruct (length (heap s)) as [|fuel]; [lia|]. simpl. now rewrite Hnd.
Qed.

Lemma on_kept n ev id options s : kept s (on n ev id options s).
Proof.
  apply kept_skeleton. unfold on.
  set (s1 := add_listener n ev (LUser id) s).
  assert (H1 : skeleton s1 = skeleton s) by apply skeleton_add_listener.
  assert (H2 : skeleton (if immediate options && negb (is_nullish (get_prop s1 n ev))
                         then log (Called id (DVal (get_prop s1 n ev)) (heap s1)) s1
                         else s1) = skeleton s).
  { destruct (_ && _); exact H1. }
  destruct (caller options); [now rewrite skeleton_add_listener|exact H2].
Qed.

Lemma perform_sound require c s :
  sound s ->
  match perform require c s with
  | Ok s' | Throw s' => sound s'
  | Fuel => False
  end.
Proof.
  intros Hs. destruct c as [n d|n k v|n name|n k ACL|n ev id options|n ns|n ev payload sc
                            |class_name n message]; simpl.
  - apply (sound_steady _ s (Set_steady require d n s) Hs).
  - apply (sound_steady _ s (put_prop_steady n k v s) Hs).
  - apply (sound_kept s _ (RemoveChild_kept n name s) Hs).
  - now apply sound_SetAccess.
  - apply (sound_kept s _ (on_kept n ev id options s) Hs).
  - apply (sound_steady _ s (NotifyProperty_steady n ns s) Hs).
  - apply (sound_steady _ s); [|exact Hs]. apply emit_steady.
    destruct Hs as (_ & _ & nd & H0 & _). now apply lookup_lt_Some in H0.
  - unfold Log. destruct (heap s !! n) as [nd|]; [|exact Hs].
    destruct (_topLevelParent nd) as [t|]; [|exact Hs].
    apply (sound_steady _ s); [|exact Hs]. apply emit_steady.
    destruct Hs as (_ & _ & nd0 & H0 & _). now apply lookup_lt_Some in H0.
Qed.


